(** * Healthy life expectancy: the estimator of [longevity/estimates.py]

    A shallow embedding of [LongevityEstimator] (Caswell and Zarulli's
    Markov chain with rewards) and of the two inequality indices, and of
    the steps of [longevity/data_manager.py] that prepare its data.

    - Python integers are [Z]; Python and numpy floats are the reals [R],
      extended with NaN and the infinities ([fl]) where pandas and numpy
      produce them. Rounding is not modelled: an equation between returned
      numbers is one that binary64 meets up to its rounding.
    - numpy matrices with a shape fixed by [diff] are MathComp matrices over
      [R]; Python lists and the arrays built from them are sequences.
    - exceptions are an error monad ([result]).
    - scikit-learn's fitted pipeline and [numpy.linalg.inv] are library code:
      the first is a field of the estimator, the second is modelled by its
      contract. *)

Set Warnings "-all".
From HB Require Import structures.
From Stdlib Require Import Reals Lra ZArith Lia String Permutation.
From Stdlib Require Import ClassicalEpsilon FunctionalExtensionality.
From mathcomp Require Import ssreflect ssrfun ssrbool eqtype ssrnat seq.
From mathcomp Require Import choice fintype bigop ssralg matrix.

Set Implicit Arguments.
Unset Strict Implicit.
Unset Printing Implicit Defensive.

Delimit Scope R_scope with Re.

(** ** The reals as a MathComp field

    MathComp's matrices need their coefficients in a [fieldType]; the
    instances below give the Standard Library's [R] that structure, with
    [Rplus], [Rmult], [Ropp] and [Rinv] as operations. *)

Definition Req_bool (x y : R) : bool :=
  if Req_EM_T x y then true else false.

Lemma Req_boolP : Equality.axiom Req_bool.
Proof. by move=> x y; rewrite /Req_bool; case: Req_EM_T => h; constructor. Qed.

HB.instance Definition _ := hasDecEq.Build R Req_boolP.

Definition R_find (P : pred R) (n : nat) : option R :=
  match excluded_middle_informative (exists x, P x) with
  | left ex => Some (proj1_sig (constructive_indefinite_description _ ex))
  | right _ => None
  end.

Lemma R_find_correct (P : pred R) n x : R_find P n = Some x -> P x.
Proof.
rewrite /R_find; case: excluded_middle_informative => // ex [<-].
exact: (proj2_sig (constructive_indefinite_description _ ex)).
Qed.

Lemma R_find_complete (P : pred R) : (exists x, P x) -> exists n, R_find P n.
Proof.
by move=> ex; exists 0; rewrite /R_find; case: excluded_middle_informative.
Qed.

Lemma R_find_ext (P Q : pred R) : P =1 Q -> R_find P =1 R_find Q.
Proof. by move=> /functional_extensionality ->. Qed.

HB.instance Definition _ :=
  hasChoice.Build R R_find_correct R_find_complete R_find_ext.

Lemma R_addA : associative Rplus.
Proof. by move=> x y z; rewrite Rplus_assoc. Qed.

Lemma R_addC : commutative Rplus.
Proof. exact: Rplus_comm. Qed.

Lemma R_add0 : left_id 0%Re Rplus.
Proof. exact: Rplus_0_l. Qed.

Lemma R_addN : left_inverse 0%Re Ropp Rplus.
Proof. exact: Rplus_opp_l. Qed.

HB.instance Definition _ := GRing.isZmodule.Build R R_addA R_addC R_add0 R_addN.

Lemma R_mulA : associative Rmult.
Proof. by move=> x y z; rewrite Rmult_assoc. Qed.

Lemma R_mulC : commutative Rmult.
Proof. exact: Rmult_comm. Qed.

Lemma R_mul1 : left_id 1%Re Rmult.
Proof. exact: Rmult_1_l. Qed.

Lemma R_mulDl : left_distributive Rmult Rplus.
Proof. by move=> x y z; rewrite Rmult_plus_distr_r. Qed.

Lemma R_1neq0 : (1%Re : R) != 0%Re.
Proof. by apply/eqP; exact: R1_neq_R0. Qed.

HB.instance Definition _ :=
  GRing.Zmodule_isComNzRing.Build R R_mulA R_mulC R_mul1 R_mulDl R_1neq0.

Lemma R_mulV (x : R) : x != 0%Re -> Rmult (Rinv x) x = 1%Re.
Proof. by move=> /eqP x0; rewrite Rinv_l. Qed.

HB.instance Definition _ := GRing.ComNzRing_isField.Build R R_mulV Rinv_0.

(** ** Exceptions *)

(** The exceptions the modelled code can raise. [NotANumber] is not a Python
    exception: it marks a result that numpy fills with NaN, which the
    real-valued matrices of this model cannot hold. *)
Inductive exn :=
  KeyError | IndexError | ValueError | TypeError | AttributeError
| LinAlgError | NotANumber.

Inductive result (A : Type) :=
| Ok (a : A)
| Raise (e : exn).

Arguments Ok {A} a.
Arguments Raise {A} e.

Definition bind {A B} (c : result A) (k : A -> result B) : result B :=
  match c with
  | Ok a => k a
  | Raise e => Raise e
  end.

Notation "'let*' x := c 'in' k" := (bind c (fun x => k))
  (at level 200, x name, c at level 200, k at level 200, right associativity).
Notation "'let*' ' p := c 'in' k" := (bind c (fun x => let p := x in k))
  (at level 200, p pattern, c at level 200, k at level 200,
   right associativity).

Fixpoint mapM {A B} (f : A -> result B) (s : seq A) : result (seq B) :=
  match s with
  | [::] => Ok [::]
  | x :: s' => let* y := f x in let* ys := mapM f s' in Ok (y :: ys)
  end.

Fixpoint foldM {A B} (f : B -> A -> result B) (b : B) (s : seq A) : result B :=
  match s with
  | [::] => Ok b
  | x :: s' => let* b' := f b x in foldM f b' s'
  end.

Definition of_option {A} (e : exn) (o : option A) : result A :=
  match o with
  | Some a => Ok a
  | None => Raise e
  end.

(** ** Floating-point values *)

(** A float: a real number, an infinity ([Inf true] is the negative one) or
    NaN. Rounding is not modelled. *)
Inductive fl :=
| Num (x : R)
| Inf (negative : bool)
| NaN.

Definition Rltb (x y : R) : bool := if Rlt_dec x y then true else false.
Definition Rleb (x y : R) : bool := if Rle_dec x y then true else false.

Definition fl_opp (a : fl) : fl :=
  match a with
  | Num x => Num (- x)%Re
  | Inf s => Inf (~~ s)
  | NaN => NaN
  end.

Definition fl_add (a b : fl) : fl :=
  match a, b with
  | Num x, Num y => Num (x + y)%Re
  | Inf s, Num _ | Num _, Inf s => Inf s
  | Inf s, Inf t => if s == t then Inf s else NaN
  | _, _ => NaN
  end.

Definition fl_sub (a b : fl) : fl := fl_add a (fl_opp b).

(** numpy's true division: [x / 0] is an infinity, [0 / 0] is NaN. *)
Definition fl_div (a b : fl) : fl :=
  match a, b with
  | Num x, Num y =>
      if Req_bool y 0 then
        if Req_bool x 0 then NaN else Inf (Rltb x 0)
      else Num (x / y)%Re
  | Num _, Inf _ => Num 0
  | Inf s, Num y => Inf (if Rltb y 0 then ~~ s else s)
  | _, _ => NaN
  end.

Arguments fl_add : simpl never.
Arguments fl_sub : simpl never.
Arguments fl_div : simpl never.

(** [np.sqrt]: NaN on a negative argument. *)
Definition np_sqrt (x : R) : fl :=
  if Rleb 0 x then Num (sqrt x) else NaN.

(** [sigmoid(x) = 1 / (1 + np.exp(-x))]. *)
Definition sigmoid (x : R) : R := (1 / (1 + exp (- x)))%Re.

(** ** Python lists and dictionaries *)

(** [range(a, b)]. *)
Definition py_range (a b : Z) : seq Z :=
  [seq (a + Z.of_nat k)%Z | k <- iota 0 (Z.to_nat (b - a))].

(** An index into a sequence of length [n]: a negative index counts from the
    end, anything else out of range is an [IndexError]. *)
Definition py_index (n : nat) (i : Z) : option nat :=
  if (0 <=? i)%Z && (i <? Z.of_nat n)%Z then Some (Z.to_nat i)
  else if (- Z.of_nat n <=? i)%Z && (i <? 0)%Z
       then Some (Z.to_nat (i + Z.of_nat n))
       else None.

Definition py_getitem {A} (x0 : A) (s : seq A) (i : Z) : result A :=
  match py_index (size s) i with
  | Some k => Ok (nth x0 s k)
  | None => Raise IndexError
  end.

(** ** Data frames *)

(** A cell of a data frame: integers and floats compare by value, a null
    (pandas' NaN or None) equals nothing. *)
Inductive cell :=
| CInt (z : Z)
| CFloat (x : R)
| CStr (s : string)
| CNull.

Definition cell_eqb (a b : cell) : bool :=
  match a, b with
  | CInt x, CInt y => Z.eqb x y
  | CInt x, CFloat y => Req_bool (IZR x) y
  | CFloat x, CInt y => Req_bool x (IZR y)
  | CFloat x, CFloat y => Req_bool x y
  | CStr s, CStr t => String.eqb s t
  | _, _ => false
  end.

(** [c < k] for an integer literal [k]: false on a null, a [TypeError] on a
    string. *)
Definition cell_lt_int (c : cell) (k : Z) : result bool :=
  match c with
  | CInt z => Ok (z <? k)%Z
  | CFloat x => Ok (Rltb x (IZR k))
  | CStr _ => Raise TypeError
  | CNull => Ok false
  end.

Definition is_null (c : cell) : bool :=
  if c is CNull then true else false.

Definition column := seq cell.

(** A data frame: its columns in order, by name. *)
Definition frame := seq (string * column).

Fixpoint frame_get (f : frame) (c : string) : option column :=
  match f with
  | [::] => None
  | (k, v) :: f' => if String.eqb k c then Some v else frame_get f' c
  end.

(** Column assignment: an existing column is overwritten where it stands, a
    new one is appended. *)
Fixpoint frame_set (f : frame) (c : string) (v : column) : frame :=
  match f with
  | [::] => [:: (c, v)]
  | (k, w) :: f' =>
      if String.eqb k c then (k, v) :: f' else (k, w) :: frame_set f' c v
  end.

(** [df[c]] *)
Definition getitem (f : frame) (c : string) : result column :=
  of_option KeyError (frame_get f c).

(** [df.c] *)
Definition getattr (f : frame) (c : string) : result column :=
  of_option AttributeError (frame_get f c).

(** [col ** 2], elementwise. *)
Definition cell_square (c : cell) : result cell :=
  match c with
  | CInt z => Ok (CInt (z * z))
  | CFloat x => Ok (CFloat (x * x)%Re)
  | CStr _ => Raise TypeError
  | CNull => Ok CNull
  end.

(** The three columns [pd.pivot_table] reads, row by row. *)
Record obs := Obs {
  o_is_aged : cell;
  o_income_dcl : cell;
  o_mergeid : cell
}.

Fixpoint zip_obs (a i m : column) : seq obs :=
  match a, i, m with
  | a0 :: a', i0 :: i', m0 :: m' => Obs a0 i0 m0 :: zip_obs a' i' m'
  | _, _, _ => [::]
  end.

(** A table indexed by row and column labels; a cell without data is NaN. *)
Record table := Table {
  t_index : seq cell;
  t_columns : seq cell;
  t_val : cell -> cell -> fl
}.

Definition label_mem (a : cell) (s : seq cell) : bool := has (cell_eqb a) s.

Fixpoint distinct (s : seq cell) : seq cell :=
  match s with
  | [::] => [::]
  | a :: s' => a :: [seq b <- distinct s' | ~~ cell_eqb a b]
  end.

Definition label_union (s t : seq cell) : seq cell :=
  s ++ [seq b <- t | ~~ label_mem b s].

(** [pd.pivot_table(rows, index=['is_aged'], columns=['income_dcl'],
    values=['mergeid'], aggfunc='count')]: rows with a null label belong to
    no group; a group's value is the number of its non-null ids; a pair of
    labels without a group is NaN. The order of the labels is irrelevant to
    the dictionary built from the table and is left as met. *)
Definition pivot_count (rows : seq obs) : table :=
  let rows' :=
    [seq r <- rows | ~~ is_null (o_is_aged r) && ~~ is_null (o_income_dcl r)] in
  Table (distinct [seq o_is_aged r | r <- rows'])
        (distinct [seq o_income_dcl r | r <- rows'])
        (fun a c =>
           let g := [seq r <- rows' | cell_eqb (o_is_aged r) a
                                      && cell_eqb (o_income_dcl r) c] in
           if g is [::] then NaN
           else Num (INR (count (fun r => ~~ is_null (o_mergeid r)) g))).

(** [.replace(np.nan, 0)] *)
Definition replace_nan_0 (t : table) : table :=
  Table (t_index t) (t_columns t)
        (fun a c => if t_val t a c is NaN then Num 0 else t_val t a c).

(** The value of a table at a pair of labels after alignment: NaN outside
    the table's own labels. *)
Definition aligned (t : table) (a c : cell) : fl :=
  if label_mem a (t_index t) && label_mem c (t_columns t)
  then t_val t a c else NaN.

(** [n / d] on data frames: the labels are the union of both sides'. *)
Definition table_div (n d : table) : table :=
  Table (label_union (t_index n) (t_index d))
        (label_union (t_columns n) (t_columns d))
        (fun a c => fl_div (aligned n a c) (aligned d a c)).

(** A Python dict, as an association list. *)
Fixpoint dict_get {K V} (eqb : K -> K -> bool) (d : seq (K * V)) (k : K)
  : option V :=
  match d with
  | [::] => None
  | (k', v) :: d' => if eqb k' k then Some v else dict_get eqb d' k
  end.

Definition colkey := (string * cell)%type.

Definition colkey_eqb (a b : colkey) : bool :=
  String.eqb a.1 b.1 && cell_eqb a.2 b.2.

Definition prevalence_dict := seq (colkey * seq (cell * fl)).

(** [.to_dict()]: one inner dictionary per column, keyed by the row labels;
    the column keys are the pairs [('mergeid', income_dcl)]. *)
Definition to_dict (t : table) : prevalence_dict :=
  [seq (("mergeid"%string, c), [seq (a, t_val t a c) | a <- t_index t])
  | c <- t_columns t].

(** [(df['disabled'] == d) & (df['is_aged'] < 88)] *)
Definition row_mask (df : frame) (d : Z) : result (seq bool) :=
  let* dis := getitem df "disabled" in
  let* aged := getitem df "is_aged" in
  let* young := mapM (fun c => cell_lt_int c 88) aged in
  Ok [seq b.1 && b.2 | b <- zip [seq cell_eqb c (CInt d) | c <- dis] young].

(** [df[mask]], as the rows the pivot table reads. *)
Definition masked_rows (df : frame) (mask : seq bool) : result (seq obs) :=
  let* a := getitem df "is_aged" in
  let* i := getitem df "income_dcl" in
  let* m := getitem df "mergeid" in
  Ok [seq r.2 | r <- zip mask (zip_obs a i m) & r.1].

Definition compute_disability_prevalence_by_age (df : frame)
  : result prevalence_dict :=
  let* sick_mask := row_mask df 1 in
  let* sick := masked_rows df sick_mask in
  let* well_mask := row_mask df 0 in
  let* well := masked_rows df well_mask in
  Ok (to_dict (table_div (replace_nan_0 (pivot_count sick))
                         (pivot_count well))).

(** ** The estimator *)

(** The dictionary [coeffs], with its three keys. *)
Record coefficients := Coefficients {
  c_age : R;
  c_income_dcl : R;
  c_gender_num : R
}.

(** The attributes of a [LongevityEstimator]. [df] and [panel_df] are
    references into the store of data frames. [clf] stands for the pipeline
    (an identity scaler and scikit-learn's logistic regression): once fitted
    on [panel_df] it gives, for a row [[age, income_dcl, gender_num]], the
    probability of class 1 (death within the year); [predict_proba] returns
    that probability and its complement. [diff] is [end_age - start_age]. *)
Record LongevityEstimator := Estimator {
  df : nat;
  panel_df : nat;
  disability_prevalence : prevalence_dict;
  start_age : Z;
  end_age : Z;
  gender : string;
  income_dcl : Z;
  income_buckets : nat;
  coeffs : option coefficients;
  clf : Z -> Z -> Z -> R
}.

Definition diff (e : LongevityEstimator) : nat :=
  Z.to_nat (end_age e - start_age e).

(** *** The constructor *)

(** The data frames of the caller, by reference. *)
Definition store := nat -> option frame.

Definition store_set (st : store) (r : nat) (f : frame) : store :=
  fun r' => if r' == r then Some f else st r'.

(** The numeric cells of a column, as reals; nulls are skipped, as pandas'
    reductions do. *)
Fixpoint numeric (c : column) : result (seq R) :=
  match c with
  | [::] => Ok [::]
  | CInt z :: c' => let* s := numeric c' in Ok (IZR z :: s)
  | CFloat x :: c' => let* s := numeric c' in Ok (x :: s)
  | CNull :: c' => numeric c'
  | CStr _ :: c' => Raise TypeError
  end.

(** [int(col.min())] and [int(col.max())]: [int] truncates toward zero and
    fails on the NaN an empty column reduces to. *)
Definition py_int (x : R) : Z :=
  if Rleb 0 x then Int_part x else (- Int_part (- x))%Z.

Definition int_min (c : column) : result Z :=
  let* s := numeric c in
  if s is x :: s' then Ok (py_int (foldr Rmin x s')) else Raise ValueError.

Definition int_max (c : column) : result Z :=
  let* s := numeric c in
  if s is x :: s' then Ok (py_int (foldr Rmax x s')) else Raise ValueError.

(** [col.unique()]: the distinct values, all nulls counting as one. *)
Definition unique (c : column) : seq cell :=
  distinct [seq x <- c | ~~ is_null x]
  ++ (if has is_null c then [:: CNull] else [::]).

(** [LongevityEstimator(df, panel_df, gender, income_dcl, coeffs)]: the new
    store, and the estimator or the exception. [pipeline] is what the
    pipeline learns from a panel. *)
Definition init (pipeline : frame -> Z -> Z -> Z -> R) (st : store)
  (df_ref panel_ref : nat) (gender : string) (income_dcl : Z)
  (coeffs : option coefficients) : store * result LongevityEstimator :=
  match st panel_ref with
  | None => (st, Raise AttributeError)
  | Some panel =>
      match (let* age := getattr panel "age" in mapM cell_square age) with
      | Raise e => (st, Raise e)
      | Ok age_2 =>
          let panel' := frame_set panel "age_2" age_2 in
          let st' := store_set st panel_ref panel' in
          (st',
           let* d := of_option AttributeError (st' df_ref) in
           let* prevalence := compute_disability_prevalence_by_age d in
           let* age := getattr d "age" in
           let* lo := int_min age in
           let* hi := int_max age in
           let* dcl := getattr d "income_dcl" in
           Ok (Estimator df_ref panel_ref prevalence lo (hi + 1)
                 gender income_dcl (size (unique dcl)) coeffs
                 (pipeline panel')))
      end
  end.

(** *** Disability prevalence *)

Definition float_of_int (z : Z) : cell := CFloat (IZR z).

(** [prevalence(age)] *)
Definition prevalence (e : LongevityEstimator) (age : Z) : result fl :=
  let* ps :=
    mapM (fun age' =>
            let* col := of_option KeyError
                          (dict_get colkey_eqb (disability_prevalence e)
                                    ("mergeid"%string, CInt (income_dcl e))) in
            Ok (odflt (Num 0) (dict_get cell_eqb col (float_of_int age'))))
         (py_range (start_age e) (end_age e)) in
  py_getitem NaN ps (age - start_age e).

(** [np.vstack([rows, row])] for a list of rows and one more row: an empty
    list counts as one empty row, and all rows must be as long as the last. *)
Definition np_vstack (rows : seq (seq fl)) (row : seq fl)
  : result (seq (seq fl)) :=
  let rows2 := if rows is [::] then [:: [::]] else rows in
  if all (fun r => size r == size row) rows2 then Ok (rows2 ++ [:: row])
  else Raise ValueError.

(** [generate_prevalence_matrix()] *)
Definition generate_prevalence_matrix (e : LongevityEstimator)
  : result (seq (seq fl)) :=
  let* m := mapM (prevalence e) (py_range (start_age e) (end_age e)) in
  let m := rcons m (Num 0) in
  let* stacked :=
    np_vstack (nseq (size m - 1) m) [seq fl_div i (Num 2) | i <- m] in
  Ok [seq [seq fl_sub (Num 1) x | x <- row] | row <- stacked].

(** *** The transition matrices *)

Local Open Scope ring_scope.

(** [A[i, j] = v] on a numpy array. *)
Definition setitem {m n} (A : 'M[R]_(m, n)) (i j : Z) (v : R)
  : result 'M[R]_(m, n) :=
  match py_index m i, py_index n j with
  | Some a, Some b =>
      Ok (\matrix_(r, c) if (r == a :> nat) && (c == b :> nat) then v
                         else A r c)
  | _, _ => Raise IndexError
  end.

(** [1 if self.gender == 'female' else 0] *)
Definition gender_num (e : LongevityEstimator) : Z :=
  if String.eqb (gender e) "female" then 1%Z else 0%Z.

(** The pair [(p_alive, p_dead)] of one age: from the fitted pipeline, or
    from the supplied coefficients through the sigmoid. [p_alive] is the
    complement [1 - p_dead], exact here; in binary64 the subtraction is
    rounded, and gives 1 as soon as [p_dead] is at most 2^-54. *)
Definition probabilities (e : LongevityEstimator) (age : Z) : R * R :=
  match coeffs e with
  | None =>
      let p := clf e age (income_dcl e) (gender_num e) in
      ((1 - p)%Re, p)
  | Some c =>
      let p_dead :=
        sigmoid (c_age c * IZR age
                 + c_income_dcl c * IZR (income_dcl e)
                 + c_gender_num c * IZR (gender_num e))%Re in
      ((1 - p_dead)%Re, p_dead)
  end.

Definition p_alive (e : LongevityEstimator) (age : Z) : R :=
  (probabilities e age).1.

Definition p_dead (e : LongevityEstimator) (age : Z) : R :=
  (probabilities e age).2.

(** [np.hstack([np.zeros((diff + 1, diff)),
               np.hstack([np.zeros(diff), [1]]).reshape(diff + 1, 1)])] *)
Definition P_init (d : nat) : 'M[R]_(d + 1, d + 1) :=
  row_mx (0 : 'M_(d + 1, d)) (col_mx (0 : 'M_(d, 1)) (const_mx 1 : 'M_(1, 1))).

(** The body of the loop of [compute_UP]. *)
Definition UP_step (e : LongevityEstimator) (P : 'M[R]_(diff e + 1, diff e + 1))
  (age : Z) : result 'M[R]_(diff e + 1, diff e + 1) :=
  let d := Z.of_nat (diff e) in
  if negb (age =? 90)%Z then
    let* P1 := setitem P (age - (start_age e - 1))%Z (age - start_age e)%Z
                       (p_alive e age) in
    setitem P1 d (age - start_age e)%Z (p_dead e age)
  else
    let* P1 := setitem P (d - 1)%Z (d - 1)%Z (p_alive e age) in
    setitem P1 d (d - 1)%Z (p_dead e age).

Arguments UP_step : clear implicits.

(** [compute_UP()]: the pair [(U, P)]. A negative [diff] is refused by
    [np.zeros]. Fitting the pipeline, when no coefficients are supplied, is
    scikit-learn's work: [clf] is the pipeline as fitted. *)
Definition compute_UP (e : LongevityEstimator)
  : result ('M[R]_(diff e, diff e) * 'M[R]_(diff e + 1, diff e + 1)) :=
  if (end_age e <? start_age e)%Z then Raise ValueError else
  let* P := foldM (UP_step e) (P_init (diff e))
                  (py_range (start_age e) (end_age e)) in
  Ok (ulsubmx P, P).

(** The shape of an array. *)
Definition shape {T : Type} {m n : nat} (A : 'M[T]_(m, n)) : nat * nat :=
  (m, n).

(** *** The moments *)

(** [np.linalg.inv]: the inverse of a square matrix, [LinAlgError] on a
    singular one. *)
Definition np_linalg_inv {n} (A : 'M[R]_n) : result 'M[R]_n :=
  if A \in unitmx then Ok (invmx A) else Raise LinAlgError.

(** [np.multiply] on arrays of one shape. *)
Definition np_multiply {m n} (A B : 'M[R]_(m, n)) : 'M[R]_(m, n) :=
  map2_mx *%R A B.

Definition is_num (x : fl) : bool := if x is Num _ then true else false.

Definition num_val (x : fl) : R := if x is Num r then r else 0%Re.

(** An array of floats as an [m] by [n] real matrix: a [ValueError] on
    another shape (numpy refuses the products), [NotANumber] when an
    entry is not a real number. *)
Definition as_matrix (m n : nat) (a : seq (seq fl)) : result 'M[R]_(m, n) :=
  if (size a == m) && all (fun r => size r == n) a then
    if all (all is_num) a
    then Ok (\matrix_(i, j) num_val (nth NaN (nth [::] a i) j))
    else Raise NotANumber
  else Raise ValueError.

(** [np.hstack([np.vstack([np.ones((diff, diff)), np.ones(diff) / 2]),
               np.zeros((diff + 1, 1))])] *)
Definition life_rewards (d : nat) : 'M[R]_(d + 1, d + 1) :=
  row_mx (col_mx (const_mx 1 : 'M_(d, d)) (const_mx (1 / 2)%Re : 'M_(1, d)))
         (0 : 'M_(d + 1, 1)).

(** [compute_moments(U, P, prevalence_matrix, healthy_life_only)] *)
Definition compute_moments {d : nat} (U : 'M[R]_(d, d))
  (P : 'M[R]_(d + 1, d + 1)) (prevalence_matrix : seq (seq fl))
  (healthy_life_only : bool) : result ('cV[R]_d * 'cV[R]_d * 'cV[R]_d) :=
  let Z := row_mx (1%:M : 'M_(d, d)) (0 : 'M_(d, 1)) in
  let* N := np_linalg_inv (1%:M - U) in
  let* R_1 :=
    if healthy_life_only then as_matrix (d + 1) (d + 1) prevalence_matrix
    else Ok (life_rewards d) in
  let R_2 := R_1 in
  let R_3 := R_1 in
  let ones := (const_mx 1 : 'M[R]_(1, d + 1))^T in
  let rho_1 := N^T *m Z *m (np_multiply P R_1)^T *m ones in
  let R_1_tilde := Z *m R_1 *m Z^T in
  let rho_2 :=
    N^T *m (Z *m (np_multiply P R_2)^T *m ones
            + (2%:R *: (np_multiply U R_1_tilde)^T) *m rho_1) in
  let R_2_tilde := Z *m R_2 *m Z^T in
  let rho_3 :=
    N^T *m (Z *m (np_multiply P R_3)^T *m ones
            + (3%:R *: (np_multiply U R_2_tilde)^T) *m rho_1
            + (3%:R *: (np_multiply U R_1_tilde)^T) *m rho_2) in
  Ok (rho_1, rho_2, rho_3).

(** [np.array(v).squeeze()] of a column: its entries in order (for a single
    entry numpy returns a 0-dimensional array, here a sequence of one). *)
Definition squeeze {T : Type} {d : nat} (v : 'cV[T]_d) : seq T :=
  [seq v i ord0 | i <- enum 'I_d].

(** [compute_lifetime_estimates(healthy_life_only)]: the pair [(mu, std)]. *)
Definition compute_lifetime_estimates (e : LongevityEstimator)
  (healthy_life_only : bool) : result (seq R * seq fl) :=
  let* prevalence_matrix := generate_prevalence_matrix e in
  let* UP := compute_UP e in
  let* m := compute_moments UP.1 UP.2 prevalence_matrix healthy_life_only in
  let mu := squeeze m.1.1 in
  let m2 := squeeze m.1.2 in
  let std := [seq np_sqrt (x.1 - x.2 * x.2)%Re | x <- zip m2 mu] in
  Ok (mu, std).

Local Close Scope ring_scope.

(** ** Inequality indices *)

Local Open Scope R_scope.

(** [np.sum] *)
Definition Rsum (s : seq R) : R := foldr Rplus 0 s.

(** [np.amin]: a [ValueError] on an empty array. *)
Definition np_amin (s : seq R) : result R :=
  if s is x :: s' then Ok (foldr Rmin x s') else Raise ValueError.

Fixpoint insert (x : R) (s : seq R) : seq R :=
  match s with
  | [::] => [:: x]
  | y :: s' => if Rleb x y then x :: s else y :: insert x s'
  end.

(** [np.sort]: ascending. *)
Definition np_sort (s : seq R) : seq R := foldr insert [::] s.

(** [gini(y)], on the flattened array of floats. *)
Definition gini (y : seq R) : result R :=
  let* lo := np_amin y in
  let y := if Rltb lo 0 then [seq x - lo | x <- y] else y in
  let y := [seq x + 0.0000001 | x <- y] in
  let y := np_sort y in
  let index := [seq INR k | k <- iota 1 (size y)] in
  let n := INR (size y) in
  Ok (Rsum [seq (2 * iy.1 - n - 1) * iy.2 | iy <- zip index y] / (n * Rsum y)).

(** [theil(y)]; the last line is Python's [sum], a left fold from 0. The
    logarithm is the Standard Library's [ln], which agrees with [np.log] on
    the positive reals: the index is meant for, and is studied below on,
    non-negative vectors, whose shares are positive once the zeros are
    replaced. *)
Definition theil (y : seq R) : R :=
  let n := INR (size y) in
  let y := [seq x + 1e-08 * (if Req_bool x 0 then 1 else 0) | x <- y] in
  let yt := Rsum y in
  let s := [seq x / (yt * 1.0) | x <- y] in
  let lns := [seq ln (n * x) | x <- s] in
  let slns := [seq sl.1 * sl.2 | sl <- zip s lns] in
  foldl Rplus 0 slns.

(** A transfer of [d] from element [j] to element [i]. *)
Fixpoint upd (s : seq R) (i : nat) (v : R) : seq R :=
  match s, i with
  | [::], _ => [::]
  | _ :: s', 0%N => v :: s'
  | x :: s', i'.+1 => x :: upd s' i' v
  end.

Definition transfer (y : seq R) (i j : nat) (d : R) : seq R :=
  upd (upd y i (nth 0 y i + d)) j (nth 0 y j - d).

Local Close Scope R_scope.

(** ** The matrix [compute_UP] builds, entry by entry *)

(** The entry at row [i], column [j] once the ages before [start_age + t]
    have been written. Column [diff] is the absorbing state's; row [diff]
    collects the deaths; the survivors of the age of column [j] are on the
    row below the diagonal, those of age 90 on the last transient state's
    diagonal entry. The last transient column is special: the age that owns
    it writes both its probabilities on row [diff], the second over the
    first. *)
Definition P_at (e : LongevityEstimator) (t : Z) (i j : Z) : R :=
  let d := Z.of_nat (diff e) in
  let s := start_age e in
  let seen90 := (s + 0 <=? 90)%Z && (90 <? s + t)%Z in
  if (j =? d)%Z then (if (i =? d)%Z then 1%Re else 0%Re)
  else if (i =? d)%Z then
    if (j =? d - 1)%Z then
      if (t =? d)%Z then p_dead e (s + j)
      else if seen90 then p_dead e 90 else 0%Re
    else if (j <? t)%Z && negb (s + j =? 90)%Z then p_dead e (s + j)
    else 0%Re
  else if (i =? d - 1)%Z && (j =? d - 1)%Z then
    if seen90 then p_alive e 90 else 0%Re
  else if (i =? j + 1)%Z then
    if (j <? t)%Z && negb (s + j =? 90)%Z then p_alive e (s + j) else 0%Re
  else 0%Re.

Local Open Scope ring_scope.

Definition mx_of {m n : nat} (f : Z -> Z -> R) : 'M[R]_(m, n) :=
  \matrix_(r, c) f (Z.of_nat r) (Z.of_nat c).

(** The matrix [P] that [compute_UP] returns. *)
Definition P_closed (e : LongevityEstimator) : 'M[R]_(diff e + 1, diff e + 1) :=
  mx_of (P_at e (Z.of_nat (diff e))).

(** Age 90, the age of the self-loop, is one of the modelled ages. *)
Definition models_90 (e : LongevityEstimator) : bool :=
  (start_age e <=? 90)%Z && (90 <? end_age e)%Z.

(** The shape of the [U] that [compute_UP] builds: off the row below the
    diagonal, only the last diagonal entry can be other than 0. *)
Definition chain_shape {d : nat} (U : 'M[R]_(d, d)) : Prop :=
  forall i j : 'I_d,
    U i j <> 0%Re -> i = j.+1 :> nat \/ (i.+1 = d /\ j.+1 = d).

(** ** The prevalence ratios *)

(** The ratio the table holds for an age in the estimator's column, 0 when
    the age is not a key. *)
Definition prevalence_ratio (col : seq (cell * fl)) (age : Z) : fl :=
  odflt (Num 0) (dict_get cell_eqb col (float_of_int age)).

(** [p_j]: the ratio of age [start_age + j] for [j < diff], and 0 for the
    last column. *)
Definition ratio_of_column (e : LongevityEstimator) (col : seq (cell * fl))
  (j : nat) : fl :=
  if (j < diff e)%N then prevalence_ratio col (start_age e + Z.of_nat j)
  else Num 0.

(** The list [m] of [generate_prevalence_matrix]. *)
Definition ratios (e : LongevityEstimator) (col : seq (cell * fl)) : seq fl :=
  [seq ratio_of_column e col j | j <- iota 0 (diff e).+1].

(** The state that follows state [j] among [d] transient states when 90 is
    the oldest modelled age: the next one, or [j] itself for the last, which
    loops. *)
Definition next_state (d j : nat) : nat := if j.+1 == d then j else j.+1.

(** The prevalence at column [j], as a number. *)
Definition prevalence_value (e : LongevityEstimator) (col : seq (cell * fl))
  (j : nat) : R :=
  num_val (ratio_of_column e col j).

(** The rewards of healthy life: a year lived counts for its share without
    disability, the year of death for one minus half the prevalence. *)
Definition healthy_life_rewards (e : LongevityEstimator)
  (col : seq (cell * fl)) : 'M[R]_(diff e + 1, diff e + 1) :=
  \matrix_(i, j) (if (i < diff e)%N then (1 - prevalence_value e col j)%Re
                  else (1 - prevalence_value e col j / 2)%Re).

(** A label below 88: what [df['is_aged'] < 88] keeps. *)
Definition below_88 (c : cell) : bool :=
  match c with
  | CInt z => (z <? 88)%Z
  | CFloat x => Rltb x 88%Re
  | _ => false
  end.

(** ** The moment recursion, as the specification writes it *)

(** [Z]: the identity over the transient states, with a zero column. *)
Definition Z_proj (d : nat) : 'M[R]_(d, d + 1) :=
  \matrix_(i, j) (if (i == j :> nat) then 1 else 0).

(** The Hadamard product. *)
Definition hadamard {m n : nat} (A B : 'M[R]_(m, n)) : 'M[R]_(m, n) :=
  \matrix_(i, j) (A i j * B i j).

(** A column of ones. *)
Definition col_ones (n : nat) : 'cV[R]_n := \col_i 1.

(** The rewards of total life: 1 from a living state to a living state, 1/2
    from a living state to death, 0 from death. *)
Definition total_life_rewards (d : nat) : 'M[R]_(d + 1, d + 1) :=
  \matrix_(i, j) (if (j < d)%N then if (i < d)%N then 1 else (1 / 2)%Re else 0).

(** [R~ = Z R Z^T] *)
Definition tilde {d : nat} (R1 : 'M[R]_(d + 1, d + 1)) : 'M[R]_(d, d) :=
  Z_proj d *m R1 *m (Z_proj d)^T.

Definition spec_rho1 {d : nat} (N : 'M[R]_(d, d)) (P R1 : 'M[R]_(d + 1, d + 1))
  : 'cV[R]_d :=
  N^T *m (Z_proj d *m ((hadamard P R1)^T *m col_ones (d + 1))).

Definition spec_rho2 {d : nat} (N U : 'M[R]_(d, d))
  (P R1 R2 : 'M[R]_(d + 1, d + 1)) (rho1 : 'cV[R]_d) : 'cV[R]_d :=
  N^T *m (Z_proj d *m ((hadamard P R2)^T *m col_ones (d + 1))
          + 2%:R *: ((hadamard U (tilde R1))^T *m rho1)).

Definition spec_rho3 {d : nat} (N U : 'M[R]_(d, d))
  (P R1 R2 R3 : 'M[R]_(d + 1, d + 1)) (rho1 rho2 : 'cV[R]_d) : 'cV[R]_d :=
  N^T *m (Z_proj d *m ((hadamard P R3)^T *m col_ones (d + 1))
          + 3%:R *: ((hadamard U (tilde R2))^T *m rho1)
          + 3%:R *: ((hadamard U (tilde R1))^T *m rho2)).

(** The array that holds the numbers of a matrix, row by row. *)
Definition array_of_matrix {m n : nat} (A : 'M[R]_(m, n)) : seq (seq fl) :=
  [seq [seq Num (A i j) | j <- enum 'I_n] | i <- enum 'I_m].

(** ** Sums and distances for the inequality indices *)

Local Close Scope ring_scope.
Local Open Scope R_scope.

Definition sumf (F : R -> R) (s : seq R) : R := Rsum [seq F x | x <- s].

(** The distances from [x] to the elements of [s], summed. *)
Definition dist (s : seq R) (x : R) : R := sumf (fun y => Rabs (x - y)) s.

(** The sum of [|x - y|] over all ordered pairs of elements. *)
Definition pair_distances (s : seq R) : R := sumf (dist s) s.

(** [np.sum((2 * index - n - 1) * y)], with [index] starting at [off]. *)
Definition weighted (off : nat) (n : R) (y : seq R) : R :=
  Rsum [seq (2 * iy.1 - n - 1) * iy.2
       | iy <- zip [seq INR k | k <- iota off (size y)] y].

Fixpoint ascending (s : seq R) : bool :=
  if s is x :: s' then all (Rleb x) s' && ascending s' else true.

(** [y + 1e-08 * (y == 0)], for one element. *)
Definition nudge (x : R) : R := x + 1e-08 * (if Req_bool x 0 then 1 else 0).

(** One term of the Theil sum, for total [yt] and [n] elements. *)
Definition theil_term (n yt x : R) : R :=
  x / (yt * 1.0) * ln (n * (x / (yt * 1.0))).

(** The vector the Gini index is computed on: shifted up by [lo] when its
    minimum [lo] is negative, then by 0.0000001. *)
Definition gini_shifted (y : seq R) (lo : R) : seq R :=
  [seq x + 0.0000001 | x <- if Rltb lo 0 then [seq x - lo | x <- y] else y].

Local Close Scope R_scope.
Local Open Scope ring_scope.

(** ** Data preparation: [longevity/data_manager.py]

    The manager's frame [self.df] is threaded through the [process_*]
    methods: each is modelled as a function from the frame to the new frame
    or an exception. The log messages are not modelled, but what is
    computed for them is, where it can raise. On a frame without rows the
    row-wise [apply] of pandas tries its function on one row of NaN: when
    the function returns a value there the result is an empty column, as
    for a map over no row; when it raises, [apply] returns the frame
    itself. Of the functions below only [age_integer] raises on NaN. *)

(** [df[mask]] on one column and on a frame. *)
Definition mask_column (mask : seq bool) (c : column) : column :=
  [seq x.2 | x <- zip mask c & x.1].

Definition frame_filter (mask : seq bool) (f : frame) : frame :=
  [seq (kc.1, mask_column mask kc.2) | kc <- f].

(** Comparisons of a cell with an integer: false on a null, a [TypeError]
    on a string. *)
Definition cell_ge_int (c : cell) (k : Z) : result bool :=
  match c with
  | CInt z => Ok (k <=? z)%Z
  | CFloat x => Ok (Rleb (IZR k) x)
  | CStr _ => Raise TypeError
  | CNull => Ok false
  end.

Definition cell_le_int (c : cell) (k : Z) : result bool :=
  match c with
  | CInt z => Ok (z <=? k)%Z
  | CFloat x => Ok (Rleb x (IZR k))
  | CStr _ => Raise TypeError
  | CNull => Ok false
  end.

Definition cell_gt_int (c : cell) (k : Z) : result bool :=
  match c with
  | CInt z => Ok (k <? z)%Z
  | CFloat x => Ok (Rltb (IZR k) x)
  | CStr _ => Raise TypeError
  | CNull => Ok false
  end.

(** [convert_age]: the code for a missing age becomes NaN. *)
Definition convert_age (age : cell) : cell :=
  if cell_eqb age (CStr "-15. no information") then CNull else age.

(** [process_age(start_age, end_age)] on the manager's frame. The counts
    computed for the log are kept where they can raise. *)
Definition process_age (df : frame) (start_age end_age : Z) : result frame :=
  let* age := getitem df "age" in
  let df := frame_set df "age" [seq convert_age c | c <- age] in
  let* age := getitem df "age" in
  let df := frame_filter [seq ~~ is_null c | c <- age] df in
  let* age := getitem df "age" in
  let* below_age := mapM (fun c => cell_lt_int c start_age) age in
  let* keep := mapM (fun c => cell_ge_int c start_age) age in
  let df := frame_filter keep df in
  let* age := getitem df "age" in
  let* above_age := mapM (fun c => cell_gt_int c end_age) age in
  let* keep := mapM (fun c => cell_le_int c end_age) age in
  Ok (frame_filter keep df).

(** [convert_female] and the column [gender_num] of [process_gender]. *)
Definition convert_female (female : cell) : cell :=
  if cell_eqb female (CStr "0. male") then CStr "male" else CStr "female".

Definition process_gender (df : frame) : result frame :=
  let* female := getitem df "female" in
  let df := frame_set df "gender" [seq convert_female c | c <- female] in
  let* gender := getitem df "gender" in
  Ok (frame_set df "gender_num"
        [seq CInt (if cell_eqb c (CStr "female") then 1%Z else 0%Z)
        | c <- gender]).

(** A numeric age lies between two integers. *)
Definition age_between (lo hi : Z) (c : cell) : bool :=
  match c with
  | CInt z => (lo <=? z)%Z && (z <=? hi)%Z
  | CFloat x => Rleb (IZR lo) x && Rleb x (IZR hi)
  | _ => false
  end.

(** What [process_age] accepts in the column [age]: numbers, nulls and the
    code for a missing age. *)
Definition age_cell (c : cell) : bool :=
  match c with
  | CStr s => String.eqb s "-15. no information"
  | _ => true
  end.

(** The rows [process_age] keeps, read off the column [age]. *)
Definition kept_ages (start_age end_age : Z) (age : column) : seq bool :=
  [seq age_between start_age end_age c | c <- age].

(** A row of the frame [create_panel_dataset] walks through: the columns
    the loop reads or writes, and the others. *)
Record panel_row := PanelRow {
  r_age : cell;
  r_age_int : cell;
  r_is_dead : cell;
  r_deceased_age : cell;
  r_y : cell;
  r_others : seq (string * cell)
}.

(** [c + k] for an integer [k]: NaN stays NaN, a string is a [TypeError]. *)
Definition cell_add (c : cell) (k : Z) : result cell :=
  match c with
  | CInt z => Ok (CInt (z + k))
  | CFloat x => Ok (CFloat (x + IZR k)%Re)
  | CStr _ => Raise TypeError
  | CNull => Ok CNull
  end.

(** The row a year before the death: [new_row] of the loop. *)
Definition death_row (row : panel_row) : result panel_row :=
  let* age := cell_add (r_deceased_age row) (-1) in
  let* age_int := cell_add (r_deceased_age row) (-1) in
  Ok (PanelRow age age_int (r_is_dead row) (r_deceased_age row) (CInt 1)
        (r_others row)).

(** The body of the inner loop of [create_panel_dataset]: what the row at
    position [i] of a history of [tot] rows appends to [new_rows]. *)
Definition panel_step (tot i : nat) (row : panel_row)
  : result (seq panel_row) :=
  if (Z.of_nat i <? Z.of_nat tot - 1)%Z || cell_eqb (r_is_dead row) (CInt 0)
  then Ok [:: row]
  else
    let* next_age := cell_add (r_age_int row) 1 in
    if cell_eqb (r_deceased_age row) next_age then
      Ok [:: PanelRow (r_age row) (r_age_int row) (r_is_dead row)
               (r_deceased_age row) (CInt 1) (r_others row)]
    else if cell_eqb (r_deceased_age row) (r_age_int row) then
      let* new_row := death_row row in Ok [:: new_row]
    else
      let* new_row := death_row row in Ok [:: row; new_row].

(** [df['y'] = 0] on one row. *)
Definition with_y_0 (row : panel_row) : panel_row :=
  PanelRow (r_age row) (r_age_int row) (r_is_dead row) (r_deceased_age row)
    (CInt 0) (r_others row).

(** The inner loop of [create_panel_dataset] over one person's history,
    given sorted by age: the rows it appends to [new_rows]. *)
Definition panel_rows (history : seq panel_row) : result (seq panel_row) :=
  let history := [seq with_y_0 row | row <- history] in
  let tot := size history in
  let* chunks :=
    mapM (fun ir => panel_step tot ir.1 ir.2) (zip (iota 0 tot) history) in
  Ok (flatten chunks).

(** The value of a numeric cell. *)
Definition cell_value (c : cell) : option R :=
  match c with
  | CInt z => Some (IZR z)
  | CFloat x => Some x
  | _ => None
  end.

(** [round(x)]: to the nearest integer, a tie to the even one. *)
Definition py_round (x : R) : Z :=
  let f := Int_part x in
  let r := (x - IZR f)%Re in
  if Rltb r (1 / 2)%Re then f
  else if Rltb (1 / 2)%Re r then (f + 1)%Z
  else if Z.even f then f else (f + 1)%Z.

(** [a < b] and [a >= b] on two cells: numbers compare by value, strings
    by code points; a comparison with NaN is false, one of a string with
    anything else is a [TypeError]. *)
Definition cell_compare (num : R -> R -> bool) (str : string -> string -> bool)
  (a b : cell) : result bool :=
  match a, b with
  | CStr s, CStr t => Ok (str s t)
  | CStr _, _ | _, CStr _ => Raise TypeError
  | CNull, _ | _, CNull => Ok false
  | CInt x, CInt y => Ok (num (IZR x) (IZR y))
  | CInt x, CFloat y => Ok (num (IZR x) y)
  | CFloat x, CInt y => Ok (num x (IZR y))
  | CFloat x, CFloat y => Ok (num x y)
  end.

Definition cell_lt : cell -> cell -> result bool :=
  cell_compare Rltb String.ltb.

Definition cell_ge : cell -> cell -> result bool :=
  cell_compare (fun x y => Rleb y x) (fun s t => String.leb t s).

(** [convert_deceased_age], [deceased_age_int] and [age_integer]. *)
Definition convert_deceased_age (deceased_age : cell) : cell :=
  if cell_eqb deceased_age (CStr "Refusal")
     || cell_eqb deceased_age (CStr "Don't know")
  then CNull else deceased_age.

Definition deceased_age_int (deceased_age : cell) : cell :=
  if cell_eqb deceased_age (CStr "Not applicable") then CInt 99999
  else deceased_age.

Definition age_integer (age : cell) : result cell :=
  match age with
  | CInt z => Ok (CInt z)
  | CFloat x => Ok (CInt (py_round x))
  | CStr _ => Raise TypeError
  | CNull => Raise ValueError
  end.

(** [process_deceased_age()] on the manager's frame. When no row is left
    after the rows without an age at death are dropped, [age_integer] fails
    on the row of NaN that [apply] tries, [apply] returns the frame, and the
    assignment of a frame of several columns to the one column [age_int] is
    a [ValueError]. *)
Definition process_deceased_age (df : frame) : result frame :=
  let* dec := getitem df "deceased_age" in
  let df := frame_set df "deceased_age"
              [seq convert_deceased_age c | c <- dec] in
  let* dec := getitem df "deceased_age" in
  let df := frame_filter [seq ~~ is_null c | c <- dec] df in
  let* dec := getitem df "deceased_age" in
  let df := frame_set df "deceased_age_int"
              [seq deceased_age_int c | c <- dec] in
  let* age_int :=
    if dec is [::] then Raise ValueError
    else let* age := getitem df "age" in mapM age_integer age in
  let df := frame_set df "age_int" age_int in
  let* dec_int := getitem df "deceased_age_int" in
  let* age_int := getitem df "age_int" in
  let* wrong_deceased_age :=
    mapM (fun p => cell_lt p.1 p.2) (zip dec_int age_int) in
  let* keep := mapM (fun p => cell_ge p.1 p.2) (zip dec_int age_int) in
  Ok (frame_filter keep df).

(** [deceased_dummy] and [deceased] of [process_age_of_death]. *)
Definition deceased_dummy (deceased_age : cell) : cell :=
  if cell_eqb deceased_age (CStr "Not applicable") then CInt 0 else CInt 1.

Definition deceased (deceased_age age_int : cell) : cell :=
  if cell_eqb deceased_age (CStr "Not applicable") then age_int
  else deceased_age.

(** [process_age_of_death()] on the manager's frame. *)
Definition process_age_of_death (df : frame) : result frame :=
  let* dec := getitem df "deceased_age" in
  let df := frame_set df "is_dead" [seq deceased_dummy c | c <- dec] in
  let* dec := getitem df "deceased_age" in
  let* age_int := getitem df "age_int" in
  Ok (frame_set df "is_aged"
        [seq deceased p.1 p.2 | p <- zip dec age_int]).

(** What [process_deceased_age] accepts as an age at death: a number, a
    null or one of the three codes. *)
Definition death_cell (c : cell) : bool :=
  match c with
  | CStr s => String.eqb s "Refusal" || String.eqb s "Don't know"
              || String.eqb s "Not applicable"
  | _ => true
  end.

Definition number_cell (c : cell) : bool :=
  match c with CInt _ | CFloat _ => true | _ => false end.

(** A comparison that returned [True]. *)
Definition returns_true (r : result bool) : bool :=
  if r is Ok true then true else false.

(** The integer [age_integer] computes from a number. *)
Definition age_int_of (age : cell) : cell :=
  match age with
  | CFloat x => CInt (py_round x)
  | c => c
  end.

(** An age at death [process_deceased_age] keeps: a number or the code of
    the living. *)
Definition kept_death_cell (c : cell) : bool :=
  number_cell c || cell_eqb c (CStr "Not applicable").

Definition int_cell (c : cell) : bool :=
  if c is CInt _ then true else false.

(** An age [age ** 2] squares without loss: a float, a NaN, or an integer
    whose square an int64 holds. *)
Definition squarable (c : cell) : bool :=
  match c with
  | CInt z => (z * z <? 2 ^ 63)%Z
  | CFloat _ | CNull => true
  | CStr _ => false
  end.

(** ** Example estimators *)

Definition zero_coeffs : coefficients := Coefficients 0 0 0.

Definition no_data : prevalence_dict := [:: (("mergeid"%string, CInt 0), [::])].

(** Observed ages from 88 to below 90, so that the ages 88 and 89 are
    modelled, with all coefficients zero. *)
Definition estimator_88_89 : LongevityEstimator :=
  Estimator 0 1 no_data 88 90 "male" 0 1 (Some zero_coeffs) (fun _ _ _ => 0%Re).

(** Observed ages from 89 to 90: the ages 89 and 90 are modelled. *)
Definition estimator_89_90 : LongevityEstimator :=
  Estimator 0 1 no_data 89 91 "male" 0 1 (Some zero_coeffs) (fun _ _ _ => 0%Re).

(** The ages 89 and 90 again, with a fitted pipeline that predicts no death
    at 89 and one death in two at 90. *)
Definition estimator_fitted_89_90 : LongevityEstimator :=
  Estimator 0 1 no_data 89 91 "male" 0 1 None
    (fun age _ _ => if (age =? 89)%Z then 0%Re else (1 / 2)%Re).

(** The ages 89 and 90 with a fitted pipeline that predicts one death in
    two at 89 and none at 90. *)
Definition estimator_immortal_90 : LongevityEstimator :=
  Estimator 0 1 no_data 89 91 "male" 0 1 None
    (fun age _ _ => if (age =? 89)%Z then (1 / 2)%Re else 0%Re).

(** One modelled age, 60, with three disabled for one non-disabled person
    in the estimator's income decile. *)
Definition estimator_ratio_3 : LongevityEstimator :=
  Estimator 0 1 [:: (("mergeid"%string, CInt 0), [:: (CInt 60, Num 3)])]
    60 61 "male" 0 1 None (fun _ _ _ => 0%Re).

(** Two observations in income decile 0: a disabled person aged 60 and a
    non-disabled person aged 61. The cell of age 60 has one disabled person
    and no non-disabled one: its denominator is missing. *)
Definition observations_60_61 : frame :=
  [:: ("mergeid"%string, [:: CStr "a"; CStr "b"]);
      ("age"%string, [:: CInt 60; CInt 61]);
      ("is_aged"%string, [:: CInt 60; CInt 61]);
      ("income_dcl"%string, [:: CInt 0; CInt 0]);
      ("disabled"%string, [:: CInt 1; CInt 0])].

Definition panel_60_61 : frame :=
  [:: ("age"%string, [:: CInt 60; CInt 61]);
      ("income_dcl"%string, [:: CInt 0; CInt 0]);
      ("gender_num"%string, [:: CInt 0; CInt 0]);
      ("y"%string, [:: CInt 0; CInt 0])].

(** The caller's store: the observations at reference 0, the panel at 1. *)
Definition store_60_61 : store :=
  fun r => if r == 0%N then Some observations_60_61
           else if r == 1%N then Some panel_60_61 else None.

Definition no_pipeline : frame -> Z -> Z -> Z -> R := fun _ _ _ _ => 0%Re.

(** An estimator whose income decile, 7, is not in its table. *)
Definition estimator_decile_7 : LongevityEstimator :=
  Estimator 0 1 no_data 88 90 "male" 7 1 (Some zero_coeffs) (fun _ _ _ => 0%Re).

(** Three observations in income decile 0: a disabled and a non-disabled
    person aged 87, and a disabled person aged 88. *)
Definition observations_87_88 : frame :=
  [:: ("mergeid"%string, [:: CStr "a"; CStr "b"; CStr "c"]);
      ("age"%string, [:: CInt 87; CInt 87; CInt 88]);
      ("is_aged"%string, [:: CInt 87; CInt 87; CInt 88]);
      ("income_dcl"%string, [:: CInt 0; CInt 0; CInt 0]);
      ("disabled"%string, [:: CInt 1; CInt 0; CInt 1])].

Definition store_87_88 : store :=
  fun r => if r == 0%N then Some observations_87_88
           else if r == 1%N then Some panel_60_61 else None.

(** A store whose observation frame has no column [disabled]. *)
Definition store_without_disability : store :=
  fun r => if (r <= 1)%N then Some panel_60_61 else None.

(** Two interviews of one person: a first at 70, a last at 72 of someone
    who died at 75, and the same last interview of a survivor. *)
Definition interview_at_70 : panel_row :=
  PanelRow (CFloat 70.2) (CInt 70) (CInt 1) (CInt 75) CNull
    [:: ("mergeid"%string, CStr "a")].

Definition last_interview_dead : panel_row :=
  PanelRow (CFloat 72.4) (CInt 72) (CInt 1) (CInt 75) CNull
    [:: ("mergeid"%string, CStr "a")].

Definition last_interview_alive : panel_row :=
  PanelRow (CFloat 72.4) (CInt 72) (CInt 0) (CStr "Not applicable") CNull
    [:: ("mergeid"%string, CStr "a")].

Definition two_respondents : frame :=
  [:: ("mergeid"%string, [:: CStr "a"; CStr "b"]);
      ("female"%string, [:: CStr "0. male"; CStr "1. female"])].

Definition estimator_female : LongevityEstimator :=
  Estimator 0 1 no_data 88 90 "female" 0 1 (Some zero_coeffs)
    (fun _ _ _ => 0%Re).

(** Four respondents: one alive, one dead at 75, one whose age at death was
    refused, one recorded dead at 60 but interviewed at 65. *)
Definition deaths_frame : frame :=
  [:: ("mergeid"%string, [:: CStr "a"; CStr "b"; CStr "c"; CStr "d"]);
      ("age"%string, [:: CFloat 72.4; CInt 70; CInt 80; CInt 65]);
      ("deceased_age"%string,
       [:: CStr "Not applicable"; CInt 75; CStr "Refusal"; CInt 60])].

(** A frame of four respondents, one with the code of a missing age. *)
Definition ages_with_missing_code : frame :=
  [:: ("mergeid"%string, [:: CStr "a"; CStr "b"; CStr "c"; CStr "d"]);
      ("age"%string,
       [:: CFloat 64.5; CStr "-15. no information"; CInt 70; CFloat 90.5])].

(** ** Support *)

Import GRing.Theory.

Ltac Zbool :=
  repeat match goal with
  | |- context [Z.eqb ?a ?b] => destruct (Z.eqb_spec a b)
  | |- context [Z.ltb ?a ?b] => destruct (Z.ltb_spec a b)
  | |- context [Z.leb ?a ?b] => destruct (Z.leb_spec a b)
  end.

Lemma ord_Z {n : nat} (i : 'I_n) : (0 <= Z.of_nat i < Z.of_nat n)%Z.
Proof. by have /ltP := ltn_ord i; lia. Qed.

Lemma eqn_Z (a b : nat) : (a == b) = (Z.of_nat a =? Z.of_nat b)%Z.
Proof.
case: eqP => [->|ne]; first by rewrite Z.eqb_refl.
by case: Z.eqb_spec => // /Nat2Z.inj.
Qed.

Lemma py_index_in (n : nat) (i : Z) :
  (0 <= i < Z.of_nat n)%Z -> py_index n i = Some (Z.to_nat i).
Proof. by rewrite /py_index => h; Zbool; try lia. Qed.

Lemma setitem_in {m n : nat} (A : 'M[R]_(m, n)) (i j : Z) (v : R) :
  (0 <= i < Z.of_nat m)%Z -> (0 <= j < Z.of_nat n)%Z ->
  setitem A i j v =
  Ok (\matrix_(r, c) if (Z.of_nat r =? i)%Z && (Z.of_nat c =? j)%Z then v
                     else A r c).
Proof.
move=> hi hj; rewrite /setitem !py_index_in //; congr Ok.
apply/matrixP => r c; rewrite !mxE !eqn_Z !Z2Nat.id //; lia.
Qed.

Lemma diff_plus1 (e : LongevityEstimator) :
  Z.of_nat (diff e + 1) = (Z.of_nat (diff e) + 1)%Z.
Proof. by rewrite -plusE; lia. Qed.

Lemma P_init_at (e : LongevityEstimator) : P_init (diff e) = mx_of (P_at e 0).
Proof.
apply/matrixP => r c; rewrite /P_init /mx_of !mxE /P_at.
have := ord_Z r; have := ord_Z c; rewrite !diff_plus1 => hc hr.
case: (splitP c) => c' hcc'; rewrite !mxE.
  have := ord_Z c'; rewrite hcc' => ?.
  by Zbool; rewrite /=; Zbool; try lia.
have -> : Z.of_nat c = Z.of_nat (diff e).
  by rewrite hcc' ord1 /= addn0.
rewrite Z.eqb_refl; case: (splitP r) => r' hrr'; rewrite !mxE.
  by have := ord_Z r'; rewrite hrr' => ?; Zbool; try lia.
have -> : Z.of_nat r = Z.of_nat (diff e) by rewrite hrr' ord1 /= addn0.
by rewrite Z.eqb_refl.
Qed.

Ltac Zcases :=
  repeat (Zbool; rewrite /=); try lia; try by [];
  try (congr (p_dead _ _); lia); try (congr (p_alive _ _); lia).

Lemma UP_step_at (e : LongevityEstimator) (t : Z) :
  (0 <= t < Z.of_nat (diff e))%Z ->
  UP_step e (mx_of (P_at e t)) (start_age e + t)%Z
  = Ok (mx_of (P_at e (t + 1))).
Proof.
move=> ht; rewrite /UP_step.
case: (Z.eqb_spec (start_age e + t) 90) => /= h90.
  rewrite setitem_in ?diff_plus1 /=; try lia.
  rewrite setitem_in ?diff_plus1 /=; try lia.
  congr Ok; apply/matrixP => r c; rewrite !mxE /P_at.
  have := ord_Z r; have := ord_Z c; rewrite !diff_plus1.
  move: (Z.of_nat r) (Z.of_nat c) => i j hj hi.
  by Zcases; rewrite -?h90; Zcases.
rewrite setitem_in ?diff_plus1 /=; try lia.
rewrite setitem_in ?diff_plus1 /=; try lia.
congr Ok; apply/matrixP => r c; rewrite !mxE /P_at.
have := ord_Z r; have := ord_Z c; rewrite !diff_plus1.
move: (Z.of_nat r) (Z.of_nat c) => i j hj hi.
by Zcases.
Qed.

Lemma foldM_UP_step (e : LongevityEstimator) (n t : nat) :
  (t + n = diff e)%N ->
  foldM (UP_step e) (mx_of (P_at e (Z.of_nat t)))
        [seq (start_age e + Z.of_nat k)%Z | k <- iota t n]
  = Ok (mx_of (P_at e (Z.of_nat (diff e)))).
Proof.
elim: n t => [|n IH] t /= htn; first by rewrite -htn addn0.
have ht : (0 <= Z.of_nat t < Z.of_nat (diff e))%Z.
  by split; [lia | apply/inj_lt/ltP; rewrite -htn -addSnnS ltn_addr].
rewrite (UP_step_at ht) /=.
have -> : (Z.of_nat t + 1)%Z = Z.of_nat t.+1 by lia.
by apply: IH; rewrite addSnnS.
Qed.

(** [compute_UP] never fails on an estimator whose ages are in order, and
    returns [P_closed] with its upper left block. *)
Lemma compute_UP_closed (e : LongevityEstimator) :
  (start_age e <= end_age e)%Z ->
  compute_UP e = Ok (ulsubmx (P_closed e), P_closed e).
Proof.
move=> hse; rewrite /compute_UP; case: Z.ltb_spec => [|_]; first by lia.
by rewrite P_init_at /py_range -/(diff e) (foldM_UP_step (t := 0)).
Qed.

(** ** Reals: from ring notation to the Standard Library's *)

Lemma RplusE (x y : R) : x + y = (x + y)%Re. Proof. by []. Qed.
Lemma RoppE (x : R) : - x = (- x)%Re. Proof. by []. Qed.
Lemma RmultE (x y : R) : x * y = (x * y)%Re. Proof. by []. Qed.
Lemma RinvE (x : R) : x^-1 = (/ x)%Re. Proof. by []. Qed.
Lemma R0E : (0 : R) = 0%Re. Proof. by []. Qed.
Lemma R1E : (1 : R) = 1%Re. Proof. by []. Qed.

Lemma RnatE (n : nat) : (n%:R : R) = INR n.
Proof.
by elim: n => [|n IH] //; rewrite -addn1 GRing.natrD IH -plusE plus_INR.
Qed.

(** Turns the ring operations on [R] in the goal into the Standard
    Library's, for [lra] and [field]. *)
Ltac to_real :=
  rewrite ?RnatE;
  repeat first
    [ progress change (@Algebra.zero _) with 0%Re
    | progress change (@Algebra.add _ ?x ?y) with (Rplus x y)
    | progress change (@Algebra.opp _ ?x) with (Ropp x)
    | progress change (@GRing.mul _ ?x ?y) with (Rmult x y)
    | progress change (@GRing.inv _ ?x) with (Rinv x)
    | progress change (@GRing.one _) with 1%Re ];
  simpl INR.

Lemma sigmoid_0 : sigmoid 0 = (1 / 2)%Re.
Proof. by rewrite /sigmoid Ropp_0 exp_0; lra. Qed.

Lemma p_dead_zero_coeffs (e : LongevityEstimator) (age : Z) :
  coeffs e = Some zero_coeffs -> p_dead e age = (1 / 2)%Re.
Proof.
rewrite /p_dead /probabilities => -> /=.
by rewrite !Rmult_0_l !Rplus_0_l sigmoid_0.
Qed.

Lemma p_alive_zero_coeffs (e : LongevityEstimator) (age : Z) :
  coeffs e = Some zero_coeffs -> p_alive e age = (1 / 2)%Re.
Proof.
rewrite /p_alive /probabilities => -> /=.
by rewrite !Rmult_0_l !Rplus_0_l sigmoid_0; lra.
Qed.

Lemma p_alive_dead (e : LongevityEstimator) (age : Z) :
  p_alive e age = (1 - p_dead e age)%Re.
Proof. by rewrite /p_alive /p_dead /probabilities; case: (coeffs e). Qed.

Lemma diff_Z (e : LongevityEstimator) :
  (start_age e <= end_age e)%Z ->
  Z.of_nat (diff e) = (end_age e - start_age e)%Z.
Proof. by move=> h; rewrite /diff Z2Nat.id; lia. Qed.

(** ** The transition matrix: shape, placement, column sums *)

Lemma sum_single (n : nat) (F : 'I_n -> R) (k : nat) (v : R) :
  (forall i : 'I_n, F i = if (i == k :> nat) then v else 0) ->
  \sum_i F i = if (k < n)%N then v else 0.
Proof.
move=> hF; case: ltnP => hk.
  rewrite (bigD1 (Ordinal hk)) //= hF eqxx big1 ?addr0 // => i hi.
  by rewrite hF; case: eqP => // h; case/eqP: hi; apply: val_inj.
rewrite big1 // => i _; rewrite hF; case: eqP => // h.
by have := ltn_ord i; rewrite h ltnNge hk.
Qed.

(** The sum of each column of [P]: 1 for the absorbing state and for every
    age below the last that is not 90; 0 for age 90 when it is not the
    last; and for the last age its [p_dead], plus the [p_alive] of age 90
    when that age is modelled. *)
Lemma column_sum (e : LongevityEstimator) (j : 'I_(diff e + 1)) :
  (start_age e <= end_age e)%Z ->
  \sum_i P_closed e i j
  = if (j == diff e :> nat) then 1
    else if (j.+1 == diff e) then
      p_dead e (start_age e + Z.of_nat j)
      + (if models_90 e then p_alive e 90 else 0)
    else if (start_age e + Z.of_nat j =? 90)%Z then 0 else 1.
Proof.
move=> hse; have hd := diff_Z hse; have hj := ord_Z j.
rewrite diff_plus1 in hj.
rewrite big_split_ord /= big_ord1.
have -> : (j == diff e :> nat) = (Z.of_nat j =? Z.of_nat (diff e))%Z.
  by rewrite eqn_Z.
have -> : (j.+1 == diff e) = (Z.of_nat j =? Z.of_nat (diff e) - 1)%Z.
  by rewrite eqn_Z; Zbool; lia.
rewrite [P_closed e (rshift _ _) j]mxE /= addn0.
case: (Z.eqb_spec (Z.of_nat j) (Z.of_nat (diff e))) => hjd.
  have -> : P_at e (Z.of_nat (diff e)) (Z.of_nat (diff e)) (Z.of_nat j) = 1.
    by rewrite /P_at hjd !Z.eqb_refl.
  rewrite big1 ?add0r // => i _; rewrite mxE /P_at /= hjd Z.eqb_refl.
  by have hi := ord_Z i; Zbool => //; lia.
case: (Z.eqb_spec (Z.of_nat j) (Z.of_nat (diff e) - 1)) => hjl.
  have hlt : ((diff e).-1 < diff e)%N.
    by apply/ltP; move: hjl hj; move: (Z.of_nat j) => b; lia.
  have hpred : Z.of_nat (diff e).-1 = (Z.of_nat (diff e) - 1)%Z.
    by move/ltP: hlt; lia.
  rewrite (@sum_single _ _ (diff e).-1
             (if models_90 e then p_alive e 90 else 0)).
    move=> i; rewrite mxE /= /P_at /models_90 eqn_Z hpred.
    have hi := ord_Z i.
    by move: (Z.of_nat i) (Z.of_nat j) hj hjd hjl hi => a b *; Zcases.
  by rewrite hlt addrC /P_at /models_90; Zcases.
have hlt : (j.+1 < diff e)%N by apply/ltP; lia.
rewrite (@sum_single _ _ j.+1
           (if (start_age e + Z.of_nat j =? 90)%Z then 0
            else p_alive e (start_age e + Z.of_nat j))).
  move=> i; rewrite mxE /= /P_at eqn_Z.
  have -> : Z.of_nat j.+1 = (Z.of_nat j + 1)%Z by lia.
  have hi := ord_Z i.
  by move: (Z.of_nat i) (Z.of_nat j) hj hjd hjl hi => a b *; Zcases.
rewrite hlt /P_at; Zcases; rewrite ?add0r // p_alive_dead.
by to_real; lra.
Qed.

(** When every modelled age is below 90 the column of the oldest one sums
    to its [p_dead] alone. *)
Lemma last_column_sum_below_90 (e : LongevityEstimator)
  (j : 'I_(diff e + 1)) :
  (start_age e < end_age e)%Z -> (end_age e <= 90)%Z -> j.+1 = diff e ->
  \sum_i P_closed e i j = p_dead e (end_age e - 1).
Proof.
move=> hlt he hj; have hse : (start_age e <= end_age e)%Z by lia.
have hd := diff_Z hse; rewrite column_sum // /models_90 !eqn_Z.
have -> : (start_age e + Z.of_nat j)%Z = (end_age e - 1)%Z by lia.
by Zcases; rewrite addr0.
Qed.

(** When 90 is the oldest modelled age every column of [P] sums to 1. *)
Lemma column_sums_top_age_90 (e : LongevityEstimator) (j : 'I_(diff e + 1)) :
  (start_age e <= 90)%Z -> end_age e = 91%Z ->
  \sum_i P_closed e i j = 1.
Proof.
move=> hs he; have hse : (start_age e <= end_age e)%Z by lia.
rewrite column_sum // /models_90 he; have hd := diff_Z hse.
have := ord_Z j; rewrite diff_plus1 !eqn_Z => hj.
have -> : Z.of_nat j.+1 = (Z.of_nat j + 1)%Z by lia.
Zcases; rewrite ?(p_alive_dead e 90).
have -> : (start_age e + Z.of_nat j)%Z = 90%Z by lia.
by to_real; lra.
Qed.

(** When 90 is the oldest modelled age the probabilities are placed as the
    specification says: for an age below 90 on the row below the diagonal
    and on the absorbing row, for age 90 as a self-loop and on the
    absorbing row. *)
Lemma placement_top_age_90 (e : LongevityEstimator) (age : Z)
  (i j : 'I_(diff e + 1)) :
  (start_age e <= age < end_age e)%Z -> end_age e = 91%Z ->
  Z.of_nat j = (age - start_age e)%Z ->
  (Z.of_nat i = Z.of_nat (diff e) -> P_closed e i j = p_dead e age) /\
  ((age < 90)%Z -> Z.of_nat i = (age - start_age e + 1)%Z ->
   P_closed e i j = p_alive e age) /\
  (age = 90%Z -> Z.of_nat i = (Z.of_nat (diff e) - 1)%Z ->
   P_closed e i j = p_alive e age).
Proof.
move=> ha he hj; have hse : (start_age e <= end_age e)%Z by lia.
have hd := diff_Z hse; rewrite /P_closed /mx_of mxE /P_at hj.
by split; [|split] => *; subst; Zcases.
Qed.

(** C1, at an input where the code departs from the claim. With observed
    ages 88 to 89 the final modelled age is 89, not the hard-coded 90: the
    loop takes the general branch, whose two writes both land on the
    absorbing row of the last transient column, the second over the first.
    The column of age 89 of the returned [P] then sums to [p_dead], here
    1/2, and not to 1. *)
Theorem C1_final_column_sums_to_p_dead :
  exists U P,
    compute_UP estimator_88_89 = Ok (U, P) /\
    \sum_i P i (Ordinal (isT : 1 < diff estimator_88_89 + 1)%N) = (1 / 2)%Re.
Proof.
exists (ulsubmx (P_closed estimator_88_89)), (P_closed estimator_88_89).
split; first by apply: compute_UP_closed.
rewrite !big_ord_recl big_ord0 /P_closed /mx_of !mxE /P_at /=.
by rewrite p_dead_zero_coeffs //; to_real; lra.
Qed.

(** C3, at the same input and from the same defect as C1: for the final
    modelled age 89 no self-loop is written. The diagonal entry of the last
    transient state stays 0 although [p_alive] is 1/2, and the absorbing
    row of that column holds [p_dead]. *)
Theorem C3_no_self_loop_at_final_age_89 :
  exists U P,
    compute_UP estimator_88_89 = Ok (U, P) /\
    p_alive estimator_88_89 89 = (1 / 2)%Re /\
    P (Ordinal (isT : 1 < diff estimator_88_89 + 1)%N)
      (Ordinal (isT : 1 < diff estimator_88_89 + 1)%N) = 0%Re /\
    P (Ordinal (isT : 2 < diff estimator_88_89 + 1)%N)
      (Ordinal (isT : 1 < diff estimator_88_89 + 1)%N)
    = p_dead estimator_88_89 89.
Proof.
exists (ulsubmx (P_closed estimator_88_89)), (P_closed estimator_88_89).
split; first by apply: compute_UP_closed.
split; first by apply: p_alive_zero_coeffs.
by rewrite /P_closed /mx_of !mxE /P_at /=.
Qed.

(** C6, counterexample: for the ages 89 and 90 the returned [P] is 3 by 3,
    not 3 by 2. *)
Lemma C6_P_is_not_diff_columns_wide :
  ~ (forall U P, compute_UP estimator_89_90 = Ok (U, P) ->
       shape P = (diff estimator_89_90 + 1, diff estimator_89_90)%N).
Proof.
have hle : (start_age estimator_89_90 <= end_age estimator_89_90)%Z.
  by rewrite /=; lia.
move=> /(_ _ _ (compute_UP_closed hle)) [] /eqP.
by rewrite -[X in _ == X]addn0 eqn_add2l.
Qed.

(** C6, amended: [P] is square, (diff + 1) by (diff + 1): one extra row and
    one extra column, those of the absorbing state, whose column is 0 but
    for its last entry 1; [U] is the diff by diff block of the first diff
    rows and first diff columns of [P]. *)
Theorem C6_shapes_of_U_and_P (e : LongevityEstimator) :
  (start_age e <= end_age e)%Z ->
  exists U P,
    compute_UP e = Ok (U, P) /\
    shape P = (diff e + 1, diff e + 1)%N /\
    shape U = (diff e, diff e) /\
    (forall i j, U i j = P (lshift 1 i) (lshift 1 j)) /\
    (forall i, P i (rshift (diff e) ord0)
               = if (i == diff e :> nat) then 1%Re else 0%Re).
Proof.
move=> hse; exists (ulsubmx (P_closed e)), (P_closed e).
split; first by apply: compute_UP_closed.
do 2![split=> //]; split=> [i j|i]; first by rewrite !mxE.
rewrite /P_closed /mx_of mxE /P_at /= addn0 Z.eqb_refl eqn_Z.
by case: Z.eqb_spec.
Qed.

Lemma C6_shapes_of_U_and_P_witness :
  exists U P,
    compute_UP estimator_89_90 = Ok (U, P) /\
    shape P = (diff estimator_89_90 + 1, diff estimator_89_90 + 1)%N /\
    shape U = (diff estimator_89_90, diff estimator_89_90) /\
    (forall i j, U i j = P (lshift 1 i) (lshift 1 j)) /\
    (forall i, P i (rshift (diff estimator_89_90) ord0)
               = if (i == diff estimator_89_90 :> nat) then 1%Re else 0%Re).
Proof. by apply: C6_shapes_of_U_and_P; rewrite /=; lia. Defined.

(** ** The fundamental matrix *)

Lemma U_closedE (e : LongevityEstimator) (i j : 'I_(diff e)) :
  ulsubmx (P_closed e) i j
  = P_at e (Z.of_nat (diff e)) (Z.of_nat i) (Z.of_nat j).
Proof. by rewrite !mxE. Qed.

Lemma fundamental_trig (e : LongevityEstimator) :
  is_trig_mx (1%:M - ulsubmx (P_closed e)).
Proof.
apply/is_trig_mxP => i j lt_ij; rewrite !mxE -val_eqE (ltn_eqF lt_ij) /= /P_at.
have := ord_Z i; have := ord_Z j; move/ltP/inj_lt: lt_ij.
move: (Z.of_nat i) (Z.of_nat j) => a b hab hb ha.
by Zcases; rewrite subr0.
Qed.

Lemma fundamental_diag (e : LongevityEstimator) (i : 'I_(diff e)) :
  (start_age e <= end_age e)%Z ->
  (1%:M - ulsubmx (P_closed e)) i i
  = if (i.+1 == diff e) && models_90 e then p_dead e 90 else 1.
Proof.
move=> hse; rewrite !mxE eqxx /= /P_at /models_90.
have hi := ord_Z i; have hd := diff_Z hse.
have -> : (i.+1 == diff e) = (Z.of_nat i =? Z.of_nat (diff e) - 1)%Z.
  by rewrite eqn_Z; Zbool; lia.
move: (Z.of_nat i) hi => a ha.
by Zcases; rewrite ?p_alive_dead; to_real; lra.
Qed.

Lemma prod_last (n : nat) (F : 'I_n -> R) (x : R) :
  (forall i, F i = if i.+1 == n then x else 1) ->
  \prod_i F i = if n is 0%N then 1 else x.
Proof.
case: n F => [|n] F hF; first by rewrite big_ord0.
rewrite big_ord_recr /= hF eqxx big1 ?mul1r // => i _.
by rewrite hF /= eqSS (ltn_eqF (ltn_ord i)).
Qed.

(** The determinant of [I - U] is [p_dead] of age 90 when that age is
    modelled, and 1 otherwise. *)
Lemma det_fundamental (e : LongevityEstimator) :
  (start_age e <= end_age e)%Z ->
  \det (1%:M - ulsubmx (P_closed e))
  = if models_90 e then p_dead e 90 else 1.
Proof.
move=> hse; rewrite (det_trig (fundamental_trig e)).
rewrite (@prod_last _ _ (if models_90 e then p_dead e 90 else 1)).
  by move=> i; rewrite fundamental_diag //; case: eqP; case: models_90.
case hd: (diff e) => [|d] //; have := diff_Z hse; rewrite hd /models_90.
by Zcases.
Qed.

Lemma inv_fundamental_ok (e : LongevityEstimator) :
  (start_age e <= end_age e)%Z ->
  (models_90 e -> p_dead e 90 <> 0%Re) ->
  let A := 1%:M - ulsubmx (P_closed e) in
  np_linalg_inv A = Ok (invmx A) /\
  invmx A *m A = 1%:M /\ A *m invmx A = 1%:M.
Proof.
move=> hse h90 A.
have uA : A \in unitmx.
  rewrite unitmxE unitfE det_fundamental //.
  by case: models_90 h90 => [/(_ isT)/eqP|_] //; apply: oner_neq0.
by rewrite /np_linalg_inv uA mulVmx // mulmxV.
Qed.

Lemma inv_fundamental_fails (e : LongevityEstimator) :
  (start_age e <= end_age e)%Z ->
  models_90 e -> p_dead e 90 = 0%Re ->
  np_linalg_inv (1%:M - ulsubmx (P_closed e)) = Raise LinAlgError.
Proof.
move=> hse h90 h0.
by rewrite /np_linalg_inv unitmxE unitfE det_fundamental // h90 h0 eqxx.
Qed.

(** C4, counterexample: with the fitted pipeline above, [p_dead] is 0 at the
    modelled age 89, and yet [I - U] has an inverse: no error is raised. *)
Lemma C4_zero_p_dead_without_error :
  (exists age, (89 <= age < 91)%Z /\ p_dead estimator_fitted_89_90 age = 0%Re)
  /\ exists U P N,
       compute_UP estimator_fitted_89_90 = Ok (U, P) /\
       np_linalg_inv (1%:M - U) = Ok N.
Proof.
split; first by exists 89%Z; split; [lia | rewrite /p_dead /=].
have hse : (start_age estimator_fitted_89_90
            <= end_age estimator_fitted_89_90)%Z by rewrite /=; lia.
exists (ulsubmx (P_closed estimator_fitted_89_90)).
exists (P_closed estimator_fitted_89_90).
exists (invmx (1%:M - ulsubmx (P_closed estimator_fitted_89_90))).
split; first exact: compute_UP_closed.
have [] // := @inv_fundamental_ok estimator_fitted_89_90 hse.
by move=> _; rewrite /p_dead /=; lra.
Qed.

(** When 90 is the oldest modelled age, the last diagonal entry of [U] is
    the survival probability of that age: the self-loop. *)
Lemma self_loop_entry (e : LongevityEstimator) (i : 'I_(diff e)) :
  (start_age e <= 90)%Z -> end_age e = 91%Z -> i.+1 = diff e ->
  ulsubmx (P_closed e) i i = p_alive e 90.
Proof.
move=> hs he hi; rewrite U_closedE /P_at.
have hse : (start_age e <= end_age e)%Z by lia.
have hd := diff_Z hse.
have hz : Z.of_nat i = (Z.of_nat (diff e) - 1)%Z.
  by have := f_equal Z.of_nat hi; rewrite Nat2Z.inj_succ; lia.
by rewrite hz; Zcases.
Qed.

(** The determinant of [I - U], for a [U] of the chain's shape. *)
Lemma det_chain {d : nat} (U : 'M[R]_(d, d)) (i : 'I_d) :
  chain_shape U -> i.+1 = d -> \det (1%:M - U) = 1 - U i i.
Proof.
move=> hU hi.
have zero (k j : 'I_d) :
    ~ (k = j.+1 :> nat \/ (k.+1 = d /\ j.+1 = d)) -> U k j = 0.
  by move=> h; apply/eqP; case: eqP => // /hU.
have trig : is_trig_mx (1%:M - U).
  apply/is_trig_mxP => k j lt_kj.
  rewrite !mxE -val_eqE (ltn_eqF lt_kj) /= zero ?subr0 //.
  by move/ltP: lt_kj => ? [?|[? ?]]; lia.
rewrite (det_trig trig).
have hd : (0 < d)%N by apply: leq_ltn_trans (ltn_ord i).
have last (n : nat) (a b : R) : (0 < n)%N -> (if n is 0%N then a else b) = b.
  by case: n.
rewrite (@prod_last _ _ (1 - U i i)); last by rewrite last.
move=> k; rewrite !mxE eqxx /=; case: eqP => [hk|hk].
  by have -> : k = i by apply: val_inj; rewrite /=; lia.
by rewrite zero ?subr0 // => -[?|[? _]] //; lia.
Qed.

(** C4, amended: for a [U] of the chain's shape whose entries are
    probabilities, the last diagonal entry alone decides: [N] exists unless
    it is 1, and if it is 1 the inversion raises numpy's [LinAlgError], and
    with it [compute_moments]. (With entries between 0 and 1 numpy's
    elimination exchanges no rows and divides by no other number than the
    diagonal's.) When 90 is the oldest modelled age, the age of the
    self-loop, [compute_UP] returns a [U] of that shape whose last diagonal
    entry is [p_alive] of that age: it is 1 when [p_dead] is 0, and in
    binary64 also when [p_dead] is too small to change 1. What [p_dead] is
    at a younger age plays no part. *)
Theorem C4_fundamental_matrix :
  (forall (d : nat) (U : 'M[R]_(d, d)) (i : 'I_d),
     chain_shape U -> (forall k j, 0 <= U k j <= 1)%Re -> i.+1 = d ->
     (U i i <> 1%Re ->
      exists N, np_linalg_inv (1%:M - U) = Ok N /\
                N *m (1%:M - U) = 1%:M /\ (1%:M - U) *m N = 1%:M) /\
     (U i i = 1%Re ->
      np_linalg_inv (1%:M - U) = Raise LinAlgError /\
      forall P prevalence_matrix healthy_life_only,
        compute_moments U P prevalence_matrix healthy_life_only
        = Raise LinAlgError)) /\
  (forall e : LongevityEstimator,
     (start_age e <= 90)%Z -> end_age e = 91%Z ->
     exists U P,
       compute_UP e = Ok (U, P) /\ chain_shape U /\
       (forall i : 'I_(diff e), i.+1 = diff e -> U i i = p_alive e 90) /\
       ((forall age, 0 <= p_alive e age <= 1)%Re ->
        forall k j, 0 <= U k j <= 1)%Re).
Proof.
split.
  move=> d U i hU _ hi; have hdet := det_chain hU hi.
  split=> [h1|h1].
    have uA : 1%:M - U \in unitmx.
      rewrite unitmxE unitfE hdet; apply/eqP => h0; apply: h1.
      by move: h0; to_real; lra.
    exists (invmx (1%:M - U)).
    by rewrite /np_linalg_inv uA mulVmx // mulmxV.
  have hinv : np_linalg_inv (1%:M - U) = Raise LinAlgError.
    by rewrite /np_linalg_inv unitmxE unitfE hdet h1 subrr eqxx.
  by split=> // P pm h; rewrite /compute_moments hinv.
move=> e hs he; have hse : (start_age e <= end_age e)%Z by lia.
exists (ulsubmx (P_closed e)), (P_closed e).
split; first exact: compute_UP_closed.
have hd := diff_Z hse.
split; last first.
  split; first by move=> i hi; exact: self_loop_entry.
  move=> hp k j; rewrite U_closedE /P_at.
  have hk := ord_Z k; have hj := ord_Z j.
  move: (Z.of_nat k) (Z.of_nat j) hk hj => a b ha hb.
  by Zcases; try exact: hp; lra.
move=> i j; rewrite U_closedE /P_at.
have hi := ord_Z i; have hj := ord_Z j.
have ei : (i = j.+1 :> nat) <-> (Z.of_nat i = Z.of_nat j + 1)%Z by lia.
have el : (i.+1 = diff e /\ j.+1 = diff e)
          <-> (Z.of_nat i = Z.of_nat (diff e) - 1
               /\ Z.of_nat j = Z.of_nat (diff e) - 1)%Z by lia.
move: (Z.of_nat i) (Z.of_nat j) hi hj ei el => a b ha hb ei el.
by Zcases => // _;
   first [by left; apply/ei; lia | by right; apply/el; split; lia].
Qed.

Lemma C4_fundamental_matrix_witness :
  (exists U P,
     compute_UP estimator_89_90 = Ok (U, P) /\
     exists N, np_linalg_inv (1%:M - U) = Ok N /\
               N *m (1%:M - U) = 1%:M /\ (1%:M - U) *m N = 1%:M) /\
  (exists U P,
     compute_UP estimator_immortal_90 = Ok (U, P) /\
     np_linalg_inv (1%:M - U) = Raise LinAlgError).
Proof.
have [inverse placement] := C4_fundamental_matrix.
have last : (1 < diff estimator_89_90)%N by [].
split.
  have hs : (start_age estimator_89_90 <= 90)%Z by rewrite /=; lia.
  have [U [P [hUP [hU [hloop hp]]]]] :=
    placement estimator_89_90 hs (erefl _).
  exists U, P; split=> //.
  have hb : forall k j, (0 <= U k j <= 1)%Re.
    by apply: hp => age; rewrite p_alive_zero_coeffs //; lra.
  have [hok _] := inverse _ U (Ordinal last) hU hb (erefl _).
  by apply: hok; rewrite hloop // p_alive_zero_coeffs //; lra.
have hs : (start_age estimator_immortal_90 <= 90)%Z by rewrite /=; lia.
have [U [P [hUP [hU [hloop hp]]]]] :=
  placement estimator_immortal_90 hs (erefl _).
exists U, P; split=> //.
have hb : forall k j, (0 <= U k j <= 1)%Re.
  by apply: hp => age; rewrite /p_alive /=; case: Z.eqb; lra.
have [_ hfail] := inverse _ U (Ordinal last) hU hb (erefl _).
by have [] // := hfail; rewrite hloop // /p_alive /=; lra.
Defined.

(** ** The prevalence matrix *)

Lemma mapM_iota {A B} (f : A -> result B) (h : nat -> A) (g : nat -> B)
  (t n : nat) :
  (forall k, (t <= k < t + n)%N -> f (h k) = Ok (g k)) ->
  mapM f [seq h k | k <- iota t n] = Ok [seq g k | k <- iota t n].
Proof.
elim: n t => [|n IH] t hf //=.
have ht : (t <= t < t + n.+1)%N by rewrite leqnn addnS ltnS leq_addr.
rewrite (hf _ ht) /= IH // => k /andP [h1 h2].
by apply: hf; rewrite (ltnW h1) -addSnnS.
Qed.

Lemma bind_Ok {A B} (a : A) (k : A -> result B) : bind (Ok a) k = k a.
Proof. by []. Qed.

Lemma np_vstack_nseq (d : nat) (m row : seq fl) :
  (0 < d)%N -> size m = size row ->
  np_vstack (nseq d m) row = Ok (nseq d m ++ [:: row]).
Proof.
case: d => [|d] // _ hs.
by rewrite /np_vstack /= all_nseq hs eqxx orbT.
Qed.

Lemma Req_bool_refl (x : R) : Req_bool x x = true.
Proof. by rewrite /Req_bool; case: Req_EM_T. Qed.

Lemma Req_bool_neq (x y : R) : x <> y -> Req_bool x y = false.
Proof. by rewrite /Req_bool; case: Req_EM_T. Qed.

Lemma half_float (x : R) : fl_div (Num x) (Num 2) = Num (x / 2)%Re.
Proof. by rewrite /fl_div Req_bool_neq //; lra. Qed.

Section PrevalenceMatrix.

Variable e : LongevityEstimator.
Variable col : seq (cell * fl).
Hypothesis ages_in_order : (start_age e < end_age e)%Z.
Hypothesis column_present :
  dict_get colkey_eqb (disability_prevalence e)
           ("mergeid"%string, CInt (income_dcl e)) = Some col.

Let d := diff e.

Lemma range_size : size (py_range (start_age e) (end_age e)) = d.
Proof. by rewrite /py_range size_map size_iota. Qed.

Lemma prevalence_in_range (k : nat) :
  (k < d)%N ->
  prevalence e (start_age e + Z.of_nat k)
  = Ok (prevalence_ratio col (start_age e + Z.of_nat k)).
Proof.
move=> hk; rewrite /prevalence /py_range -/(diff e) -/d.
rewrite (@mapM_iota _ _ _ _
          (fun j => prevalence_ratio col (start_age e + Z.of_nat j))) /=.
  by move=> j _; rewrite column_present.
have hk' : (0 <= start_age e + Z.of_nat k - start_age e < Z.of_nat d)%Z.
  by move/ltP/inj_lt: hk; lia.
rewrite /py_getitem size_map size_iota (py_index_in hk').
have -> : Z.to_nat (start_age e + Z.of_nat k - start_age e) = k by lia.
by rewrite (nth_map 0%N) ?size_iota // nth_iota.
Qed.

Lemma prevalence_list :
  mapM (prevalence e) (py_range (start_age e) (end_age e))
  = Ok [seq prevalence_ratio col (start_age e + Z.of_nat k) | k <- iota 0 d].
Proof.
by apply: mapM_iota => k /andP [_ hk]; apply: prevalence_in_range.
Qed.

Lemma ratiosE :
  rcons [seq prevalence_ratio col (start_age e + Z.of_nat k) | k <- iota 0 d]
        (Num 0) = ratios e col.
Proof.
rewrite /ratios -addn1 iotaD map_cat /= add0n cats1 /ratio_of_column.
rewrite -/d ltnn; congr rcons; apply/eq_in_map => k.
by rewrite mem_iota add0n => /andP [_ ->].
Qed.

Lemma size_ratios : size (ratios e col) = d.+1.
Proof. by rewrite size_map size_iota. Qed.

Lemma nth_ratios (j : nat) :
  (j <= d)%N -> nth NaN (ratios e col) j = ratio_of_column e col j.
Proof.
by move=> hj; rewrite (nth_map 0%N) ?size_iota ?ltnS // nth_iota ?ltnS.
Qed.

Lemma d_positive : (0 < d)%N.
Proof. by apply/ltP; rewrite /d /diff; lia. Qed.

Lemma generate_prevalence_matrix_closed :
  generate_prevalence_matrix e
  = Ok [seq [seq fl_sub (Num 1) x | x <- row]
       | row <- nseq d (ratios e col)
                ++ [:: [seq fl_div i (Num 2) | i <- ratios e col]]].
Proof.
rewrite /generate_prevalence_matrix prevalence_list bind_Ok ratiosE.
rewrite size_ratios subn1 [d.+1.-1]/= np_vstack_nseq ?size_map //.
exact: d_positive.
Qed.

End PrevalenceMatrix.

(** C9, counterexample: with a prevalence ratio of 3 at age 60 the reward on
    the dying transition of that column is 1 - 3/2, below 1/2. *)
Lemma C9_dying_reward_below_half :
  exists M x,
    generate_prevalence_matrix estimator_ratio_3 = Ok M /\
    nth NaN (nth [::] M (diff estimator_ratio_3)) 0 = Num x /\
    (x < 1 / 2)%Re.
Proof.
have hse : (start_age estimator_ratio_3 < end_age estimator_ratio_3)%Z.
  by rewrite /=; lia.
have := @generate_prevalence_matrix_closed estimator_ratio_3 _ hse (erefl _).
move=> ->; eexists; exists (1 - 3 / 2)%Re; split; first by [].
rewrite /= /ratio_of_column /prevalence_ratio /= Req_bool_refl /= half_float.
by split=> //; lra.
Qed.

(** C9, amended: the matrix is (diff + 1) by (diff + 1); with [p_j] the
    ratio of age [start_age + j] for [j < diff] and [p_diff = 0], the first
    diff rows are all equal to [1 - p_j] in column [j] and the last row is
    [1 - p_j / 2]: the reward on a dying transition is [1 - p_j / 2], not
    [(1 - p_j) / 2]. That reward is at least 1/2 exactly when [p_j <= 1]: a
    ratio of disabled to non-disabled counts can exceed 1. *)
Theorem C9_prevalence_matrix (e : LongevityEstimator) (col : seq (cell * fl)) :
  (start_age e < end_age e)%Z ->
  dict_get colkey_eqb (disability_prevalence e)
           ("mergeid"%string, CInt (income_dcl e)) = Some col ->
  exists M,
    generate_prevalence_matrix e = Ok M /\
    size M = (diff e + 1)%N /\
    (forall i, (i <= diff e)%N -> size (nth [::] M i) = (diff e + 1)%N) /\
    (forall i j, (i <= diff e)%N -> (j <= diff e)%N ->
       nth NaN (nth [::] M i) j
       = if (i < diff e)%N then fl_sub (Num 1) (ratio_of_column e col j)
         else fl_sub (Num 1) (fl_div (ratio_of_column e col j) (Num 2))) /\
    (forall j x, (j <= diff e)%N -> ratio_of_column e col j = Num x ->
       nth NaN (nth [::] M (diff e)) j = Num (1 - x / 2)%Re /\
       ((1 / 2 <= 1 - x / 2)%Re <-> (x <= 1)%Re)).
Proof.
move=> hse hcol; rewrite (generate_prevalence_matrix_closed hse hcol).
set M := map _ _; exists M.
have sM : size M = (diff e + 1)%N.
  by rewrite size_map size_cat size_nseq.
have row i : (i <= diff e)%N ->
    nth [::] M i
    = [seq fl_sub (Num 1) x
      | x <- if (i < diff e)%N then ratios e col
             else [seq fl_div y (Num 2) | y <- ratios e col]].
  move=> hi.
  have hi' : (i < size (nseq (diff e) (ratios e col)
                        ++ [:: [seq fl_div y (Num 2) | y <- ratios e col]]))%N.
    by rewrite size_cat size_nseq /= addn1 ltnS.
  rewrite (nth_map [::] _ _ hi').
  rewrite nth_cat size_nseq nth_nseq; case: ltnP => // hdi.
  have -> : i = diff e by apply/eqP; rewrite eqn_leq hi hdi.
  by rewrite subnn.
have entry i j : (i <= diff e)%N -> (j <= diff e)%N ->
    nth NaN (nth [::] M i) j
    = if (i < diff e)%N then fl_sub (Num 1) (ratio_of_column e col j)
      else fl_sub (Num 1) (fl_div (ratio_of_column e col j) (Num 2)).
  move=> hi hj; rewrite row //.
  have hj1 : (j < size (ratios e col))%N by rewrite size_ratios ltnS.
  have hj2 : (j < size [seq fl_div y (Num 2) | y <- ratios e col])%N.
    by rewrite size_map.
  case: ltnP => _; first by rewrite (nth_map NaN _ _ hj1) nth_ratios.
  by rewrite (nth_map NaN _ _ hj2) (nth_map NaN _ _ hj1) nth_ratios.
split=> //; split=> //; split; last split=> //.
  move=> i hi; rewrite row //; case: ifP => _.
    by rewrite size_map size_ratios addn1.
  by rewrite 2!size_map size_ratios addn1.
move=> j x hj hx; rewrite entry // ltnn hx half_float; split=> //.
by split=> h; lra.
Qed.

Lemma C9_prevalence_matrix_witness :
  exists M,
    generate_prevalence_matrix estimator_ratio_3 = Ok M /\
    size M = 2 /\
    nth NaN (nth [::] M 1) 0 = Num (1 - 3 / 2)%Re.
Proof.
have hse : (start_age estimator_ratio_3 < end_age estimator_ratio_3)%Z.
  by rewrite /=; lia.
have [M [hM [sM [_ [_ hlast]]]]] :=
  @C9_prevalence_matrix estimator_ratio_3 _ hse (erefl _).
exists M; split=> //; split=> //.
have [] // := hlast 0%N 3%Re.
by rewrite /ratio_of_column /prevalence_ratio /= Req_bool_refl.
Defined.

(** *** The prevalence matrix as a matrix of rewards *)

(** The matrix of [generate_prevalence_matrix], read as a matrix of rewards:
    [1 - p_j] in the rows of the living, [1 - p_j / 2] in the row of the
    dead. *)

Section HealthyLife.

Variable e : LongevityEstimator.
Variable col : seq (cell * fl).
Hypothesis ratios_are_numbers : all is_num (ratios e col).

Let M : seq (seq fl) :=
  [seq [seq fl_sub (Num 1) x | x <- row]
  | row <- nseq (diff e) (ratios e col)
           ++ [:: [seq fl_div i (Num 2) | i <- ratios e col]]].

Lemma ratio_number (j : nat) :
  (j <= diff e)%N ->
  ratio_of_column e col j = Num (prevalence_value e col j).
Proof.
move=> hj; have := all_nthP NaN ratios_are_numbers j.
rewrite size_ratios ltnS nth_ratios // /prevalence_value => /(_ hj).
by case: (ratio_of_column e col j).
Qed.

Lemma prevalence_matrix_size : size M = (diff e + 1)%N.
Proof. by rewrite /M size_map size_cat size_nseq. Qed.

Lemma prevalence_matrix_row (i : nat) :
  (i <= diff e)%N ->
  nth [::] M i
  = [seq fl_sub (Num 1) x
    | x <- if (i < diff e)%N then ratios e col
           else [seq fl_div y (Num 2) | y <- ratios e col]].
Proof.
move=> hi.
have hi' : (i < size (nseq (diff e) (ratios e col)
                      ++ [:: [seq fl_div y (Num 2) | y <- ratios e col]]))%N.
  by rewrite size_cat size_nseq /= addn1 ltnS.
rewrite /M (nth_map [::] _ _ hi') nth_cat size_nseq nth_nseq.
case: ltnP => // hdi.
have -> : i = diff e by apply/eqP; rewrite eqn_leq hi hdi.
by rewrite subnn.
Qed.

Lemma prevalence_matrix_entry (i j : nat) :
  (i <= diff e)%N -> (j <= diff e)%N ->
  nth NaN (nth [::] M i) j
  = Num (if (i < diff e)%N then (1 - prevalence_value e col j)%Re
         else (1 - prevalence_value e col j / 2)%Re).
Proof.
move=> hi hj; rewrite prevalence_matrix_row //.
have hj1 : (j < size (ratios e col))%N by rewrite size_ratios ltnS.
have hj2 : (j < size [seq fl_div y (Num 2) | y <- ratios e col])%N.
  by rewrite size_map.
case: ltnP => _.
  by rewrite (nth_map NaN _ _ hj1) nth_ratios // ratio_number.
rewrite (nth_map NaN _ _ hj2) (nth_map NaN _ _ hj1) nth_ratios //.
by rewrite ratio_number // half_float.
Qed.

Lemma prevalence_matrix_as_matrix :
  as_matrix (diff e + 1) (diff e + 1) M = Ok (healthy_life_rewards e col).
Proof.
rewrite /as_matrix prevalence_matrix_size eqxx /=.
have rows : all (fun r => size r == (diff e + 1)%N) M.
  apply/(all_nthP [::]) => i; rewrite prevalence_matrix_size addn1 ltnS => hi.
  rewrite prevalence_matrix_row //; case: ifP => _.
    by rewrite size_map size_ratios.
  by rewrite 2!size_map size_ratios.
have nums : all (all is_num) M.
  apply/(all_nthP [::]) => i; rewrite prevalence_matrix_size addn1 ltnS => hi.
  apply/(all_nthP NaN) => j hj.
  have hj' : (j <= diff e)%N.
    by move: hj; rewrite (eqP (all_nthP [::] rows i _)) ?prevalence_matrix_size
                         ?addn1 ?ltnS.
  by rewrite prevalence_matrix_entry.
rewrite rows nums; congr Ok; apply/matrixP => i j; rewrite !mxE.
have hi : (i <= diff e)%N.
  by apply/leP; have := ord_Z i; rewrite diff_plus1; lia.
have hj : (j <= diff e)%N.
  by apply/leP; have := ord_Z j; rewrite diff_plus1; lia.
by rewrite prevalence_matrix_entry.
Qed.

Lemma prevalence_matrix_array : M = array_of_matrix (healthy_life_rewards e col).
Proof.
apply: (@eq_from_nth _ [::]).
  by rewrite prevalence_matrix_size size_map size_enum_ord.
move=> i hi0.
have hi' : (i < diff e + 1)%N by rewrite -prevalence_matrix_size.
have hi : (i <= diff e)%N by move: hi'; rewrite addn1 ltnS.
rewrite [RHS](nth_map (Ordinal hi')) ?size_enum_ord //.
rewrite (@nth_ord_enum _ (Ordinal hi') (Ordinal hi')).
apply: (@eq_from_nth _ NaN).
  rewrite [RHS]size_map size_enum_ord prevalence_matrix_row //.
  case: ifP => _; first by rewrite size_map size_ratios addn1.
  by rewrite 2!size_map size_ratios addn1.
move=> j hj0.
have hj' : (j < diff e + 1)%N.
  move: hj0; rewrite prevalence_matrix_row //.
  case: ifP => _; first by rewrite size_map size_ratios addn1.
  by rewrite 2!size_map size_ratios addn1.
have hj : (j <= diff e)%N by move: hj'; rewrite addn1 ltnS.
rewrite prevalence_matrix_entry //.
rewrite (nth_map (Ordinal hj')) ?size_enum_ord //.
by rewrite (@nth_ord_enum _ (Ordinal hj') (Ordinal hj')) mxE.
Qed.

End HealthyLife.

(** ** The moments *)

Lemma Z_projE (d : nat) : row_mx (1%:M : 'M[R]_(d, d)) (0 : 'M_(d, 1)) = Z_proj d.
Proof.
apply/matrixP => i j; rewrite !mxE; case: splitP => k hk; rewrite !mxE hk.
  by rewrite -val_eqE /=; case: eqP.
by rewrite ord1 /= addn0 (ltn_eqF (ltn_ord i)).
Qed.

Lemma np_multiplyE {m n : nat} (A B : 'M[R]_(m, n)) :
  np_multiply A B = hadamard A B.
Proof. by apply/matrixP => i j; rewrite !mxE. Qed.

Lemma onesE (n : nat) : (const_mx 1 : 'M[R]_(1, n))^T = col_ones n.
Proof. by apply/matrixP => i j; rewrite !mxE. Qed.

Lemma life_rewardsE (d : nat) : life_rewards d = total_life_rewards d.
Proof.
apply/matrixP => i j; rewrite !mxE.
case: (splitP j) => j' hj; rewrite ?mxE //.
by case: (splitP i) => i' hi; rewrite !mxE.
Qed.

(** The inverse [numpy.linalg.inv] returns is the only left inverse. *)
Lemma np_linalg_inv_left {n : nat} (A N : 'M[R]_n) :
  N *m A = 1%:M -> np_linalg_inv A = Ok N.
Proof.
move=> hN; have [_ uA] := mulmx1_unit hN.
by rewrite /np_linalg_inv uA -[LHS]/(Ok (invmx A)) -[invmx A]mul1mx -hN mulmxK.
Qed.

(** [compute_moments] computes the three moments of the specification,
    whatever matrices it is given. *)
Lemma compute_moments_formula {d : nat} (U : 'M[R]_(d, d))
  (P : 'M[R]_(d + 1, d + 1)) (prevalence_matrix : seq (seq fl))
  (healthy_life_only : bool) (N : 'M[R]_(d, d)) (R1 : 'M[R]_(d + 1, d + 1)) :
  N *m (1%:M - U) = 1%:M ->
  (if healthy_life_only
   then as_matrix (d + 1) (d + 1) prevalence_matrix = Ok R1
   else R1 = total_life_rewards d) ->
  let rho1 := spec_rho1 N P R1 in
  let rho2 := spec_rho2 N U P R1 R1 rho1 in
  let rho3 := spec_rho3 N U P R1 R1 R1 rho1 rho2 in
  compute_moments U P prevalence_matrix healthy_life_only
  = Ok (rho1, rho2, rho3).
Proof.
move=> hN hR rho1 rho2 rho3.
rewrite /compute_moments (np_linalg_inv_left hN) bind_Ok.
have -> : (if healthy_life_only
           then as_matrix (d + 1) (d + 1) prevalence_matrix
           else Ok (life_rewards d)) = Ok R1.
  by case: healthy_life_only hR => [-> | ->] //; rewrite life_rewardsE.
rewrite bind_Ok !np_multiplyE !Z_projE onesE -/(tilde R1).
have e1 : N^T *m Z_proj d *m (hadamard P R1)^T *m col_ones (d + 1) = rho1.
  by rewrite /rho1 /spec_rho1 !mulmxA.
have e0 : Z_proj d *m (hadamard P R1)^T *m col_ones (d + 1)
          = Z_proj d *m ((hadamard P R1)^T *m col_ones (d + 1)).
  by rewrite mulmxA.
rewrite e1 e0 -!scalemxAl.
by [].
Qed.

Lemma size_squeeze {T : Type} {d : nat} (v : 'cV[T]_d) : size (squeeze v) = d.
Proof. by rewrite size_map size_enum_ord. Qed.

Lemma nth_squeeze {T : Type} {d : nat} (x0 : T) (v : 'cV[T]_d) (i : 'I_d) :
  nth x0 (squeeze v) i = v i ord0.
Proof. by rewrite (nth_map i) ?size_enum_ord // nth_ord_enum. Qed.

Lemma compute_lifetime_estimates_formula (e : LongevityEstimator)
  (healthy_life_only : bool) (prevalence_matrix : seq (seq fl))
  (U : 'M[R]_(diff e, diff e)) (P : 'M[R]_(diff e + 1, diff e + 1))
  (rho1 rho2 rho3 : 'cV[R]_(diff e)) :
  generate_prevalence_matrix e = Ok prevalence_matrix ->
  compute_UP e = Ok (U, P) ->
  compute_moments U P prevalence_matrix healthy_life_only
  = Ok (rho1, rho2, rho3) ->
  exists mean std,
    compute_lifetime_estimates e healthy_life_only = Ok (mean, std) /\
    size mean = diff e /\ size std = diff e /\
    forall i : 'I_(diff e),
      nth 0%Re mean i = rho1 i ord0 /\
      nth NaN std i = np_sqrt (rho2 i ord0 - rho1 i ord0 * rho1 i ord0)%Re.
Proof.
move=> h1 h2 h3.
exists (squeeze rho1).
exists [seq np_sqrt (x.1 - x.2 * x.2)%Re
       | x <- zip (squeeze rho2) (squeeze rho1)].
split; first by rewrite /compute_lifetime_estimates h1 bind_Ok h2 bind_Ok /= h3.
rewrite size_map size_zip !size_squeeze minnn; do 2![split=> //].
move=> i; rewrite nth_squeeze; split=> //.
have hi : (i < size (zip (squeeze rho2) (squeeze rho1)))%N.
  by rewrite size_zip !size_squeeze minnn.
rewrite (nth_map (0%Re, 0%Re) _ _ hi) nth_zip ?size_squeeze //=.
by rewrite !nth_squeeze.
Qed.

Lemma nth_array_of_matrix {m n : nat} (A : 'M[R]_(m, n))
  (i : 'I_m) (j : 'I_n) :
  nth NaN (nth [::] (array_of_matrix A) i) j = Num (A i j).
Proof.
rewrite /array_of_matrix (nth_map i) ?size_enum_ord // nth_ord_enum.
by rewrite (nth_map j) ?size_enum_ord // nth_ord_enum.
Qed.

(** An array of numbers is read back as the matrix of those numbers. *)
Lemma as_matrix_array {m n : nat} (A : 'M[R]_(m, n)) :
  as_matrix m n (array_of_matrix A) = Ok A.
Proof.
rewrite /as_matrix /array_of_matrix size_map size_enum_ord eqxx /=.
have -> : all (fun r : seq fl => size r == n)
              [seq [seq Num (A i j) | j <- enum 'I_n] | i <- enum 'I_m].
  by rewrite all_map; apply/allP => i _ /=; rewrite size_map size_enum_ord.
have -> : all (all is_num)
              [seq [seq Num (A i j) | j <- enum 'I_n] | i <- enum 'I_m].
  by rewrite all_map; apply/allP => i _ /=; rewrite all_map; apply/allP.
congr Ok; apply/matrixP => i j; rewrite mxE.
by rewrite -/(array_of_matrix A) nth_array_of_matrix.
Qed.

(** What [numpy.linalg.inv] returns is the inverse. *)
Lemma np_linalg_inv_inverse {n : nat} (A N : 'M[R]_n) :
  np_linalg_inv A = Ok N -> N *m A = 1%:M /\ A *m N = 1%:M.
Proof.
rewrite /np_linalg_inv; case uA: (A \in unitmx) => // -[<-].
by rewrite mulVmx // mulmxV.
Qed.

(** [np.sqrt] is the square root on a non-negative number and NaN on a
    negative one. *)
Lemma std_entry (v : R) :
  ((0 <= v)%Re -> np_sqrt v = Num (sqrt v)) /\ ((v < 0)%Re -> np_sqrt v = NaN).
Proof. by rewrite /np_sqrt /Rleb; case: Rle_dec => h; split=> // h'; lra. Qed.

(** C2: [compute_moments] returns the three moments of the specification's
    recursion, for every [U], [P] and reward choice, [N] being the inverse
    of [I - U] that [numpy.linalg.inv] returns: the rewards [R1] are the
    numbers of the prevalence matrix it is given when [healthy_life_only] is
    set, and 1, 1/2 and 0 otherwise. [compute_lifetime_estimates] returns
    [rho1] as the mean and, entry by entry, the square root of the variance
    [rho2 - rho1^2] as the standard deviation (NaN where the variance is
    negative). *)
Theorem C2_moments_and_lifetime_estimates :
  (forall (d : nat) (U : 'M[R]_(d, d)) (P : 'M[R]_(d + 1, d + 1))
          (prevalence_matrix : seq (seq fl)) (healthy_life_only : bool)
          (N : 'M[R]_(d, d)) (R1 : 'M[R]_(d + 1, d + 1)),
     np_linalg_inv (1%:M - U) = Ok N ->
     (if healthy_life_only
      then prevalence_matrix = array_of_matrix R1
      else R1 = total_life_rewards d) ->
     let rho1 := spec_rho1 N P R1 in
     let rho2 := spec_rho2 N U P R1 R1 rho1 in
     let rho3 := spec_rho3 N U P R1 R1 R1 rho1 rho2 in
     N *m (1%:M - U) = 1%:M /\ (1%:M - U) *m N = 1%:M /\
     compute_moments U P prevalence_matrix healthy_life_only
     = Ok (rho1, rho2, rho3)) /\
  (forall (e : LongevityEstimator) (healthy_life_only : bool)
          (prevalence_matrix : seq (seq fl))
          (U : 'M[R]_(diff e, diff e)) (P : 'M[R]_(diff e + 1, diff e + 1))
          (rho1 rho2 rho3 : 'cV[R]_(diff e)),
     generate_prevalence_matrix e = Ok prevalence_matrix ->
     compute_UP e = Ok (U, P) ->
     compute_moments U P prevalence_matrix healthy_life_only
     = Ok (rho1, rho2, rho3) ->
     exists mean std,
       compute_lifetime_estimates e healthy_life_only = Ok (mean, std) /\
       size mean = diff e /\ size std = diff e /\
       forall i : 'I_(diff e),
         let variance := (rho2 i ord0 - rho1 i ord0 * rho1 i ord0)%Re in
         nth 0%Re mean i = rho1 i ord0 /\
         ((0 <= variance)%Re -> nth NaN std i = Num (sqrt variance)) /\
         ((variance < 0)%Re -> nth NaN std i = NaN)).
Proof.
split.
  move=> d U P pm h N R1 hinv hR.
  have [hN hN'] := np_linalg_inv_inverse hinv.
  do 2![split=> //].
  apply: compute_moments_formula => //.
  by case: h hR => // ->; exact: as_matrix_array.
move=> e h pm U P rho1 rho2 rho3 h1 h2 h3.
have [mean [std [hr [sm [ss hnth]]]]] :=
  compute_lifetime_estimates_formula h1 h2 h3.
exists mean, std; split=> //; split=> //; split=> // i /=.
have [-> ->] := hnth i; split=> //.
exact: std_entry.
Qed.

Lemma C2_moments_and_lifetime_estimates_witness :
  exists mean std,
    compute_lifetime_estimates estimator_89_90 true = Ok (mean, std) /\
    size mean = 2 /\ size std = 2.
Proof.
have [moments lifetime] := C2_moments_and_lifetime_estimates.
have hse : (start_age estimator_89_90 <= end_age estimator_89_90)%Z.
  by rewrite /=; lia.
have hlt : (start_age estimator_89_90 < end_age estimator_89_90)%Z.
  by rewrite /=; lia.
have [hinv _] := @inv_fundamental_ok estimator_89_90 hse
  (fun _ => eq_ind_r (fun x => x <> 0%Re)
     (fun h : (1 / 2)%Re = 0%Re => ltac:(lra))
     (@p_dead_zero_coeffs estimator_89_90 90 (erefl _))).
have hgen := @generate_prevalence_matrix_closed estimator_89_90 _ hlt (erefl _).
have harr := @prevalence_matrix_array estimator_89_90 [::] (erefl _).
have [_ [_ hm]] := moments _ _ (P_closed estimator_89_90) _ true _ _ hinv harr.
have [mean [std [h [s1 [s2 _]]]]] :=
  lifetime _ true _ _ _ _ _ _ hgen (compute_UP_closed hse) hm.
by exists mean, std.
Defined.

(** ** The mean at the age of the self-loop *)

Lemma Z_proj_mul {d : nat} (w : 'cV[R]_(d + 1)) (j : 'I_d) :
  (Z_proj d *m w) j ord0 = w (lshift 1 j) ord0.
Proof.
rewrite mxE (bigD1 (lshift 1 j)) //= mxE eqxx mul1r big1 ?addr0 // => k hk.
rewrite mxE; case: eqP => [h|_]; last by rewrite mul0r.
by case/eqP: hk; apply: val_inj.
Qed.

(** The first moment, entry by entry: the rewards of each column of [P]
    weighted by the expected visits [N]. *)
Lemma spec_rho1_entry {d : nat} (N : 'M[R]_(d, d))
  (P R1 : 'M[R]_(d + 1, d + 1)) (i : 'I_d) :
  spec_rho1 N P R1 i ord0
  = \sum_j N j i * (\sum_b P b (lshift 1 j) * R1 b (lshift 1 j)).
Proof.
rewrite /spec_rho1 mxE; apply: eq_bigr => j _; rewrite mxE Z_proj_mul mxE.
by congr (_ * _); apply: eq_bigr => b _; rewrite !mxE mulr1.
Qed.

Section TopAge.

Variable e : LongevityEstimator.
Hypothesis ages_in_order : (start_age e <= end_age e)%Z.
Variable l : 'I_(diff e).
Hypothesis l_last : l.+1 = diff e.

Lemma fundamental_last_column (k : 'I_(diff e)) :
  k != l -> (1%:M - ulsubmx (P_closed e)) k l = 0.
Proof.
move=> hkl; rewrite !mxE (negbTE hkl) /= /P_at.
have hk : Z.of_nat k <> Z.of_nat l by move/Nat2Z.inj/val_inj/eqP; apply/negP.
have := ord_Z k; have hl : Z.of_nat l = (Z.of_nat (diff e) - 1)%Z.
  by move: l_last; lia.
rewrite hl in hk *; move: (Z.of_nat k) hk => a ha ha'.
by Zcases; rewrite subr0.
Qed.

Lemma inverse_last_column (N : 'M[R]_(diff e)) (j : 'I_(diff e)) :
  models_90 e -> p_dead e 90 <> 0%Re ->
  N *m (1%:M - ulsubmx (P_closed e)) = 1%:M ->
  N j l = (if j == l then 1 else 0) / p_dead e 90.
Proof.
move=> h90 hpd /matrixP /(_ j l).
rewrite [LHS]mxE [RHS]mxE (bigD1 l) //= big1.
  by move=> k hk; rewrite fundamental_last_column // mulr0.
rewrite addr0 (fundamental_diag l ages_in_order) l_last eqxx h90 /=.
have -> : (j == l)%:R = (if j == l then 1 else 0) :> R by case: eqP.
by move=> <-; rewrite -mulrA divff ?mulr1 //; apply/eqP.
Qed.

(** The rewards collected from the last transient state in one step. *)
Lemma last_column_rewards :
  \sum_b P_closed e b (lshift 1 l) * total_life_rewards (diff e) b (lshift 1 l)
  = P_closed e (lshift 1 l) (lshift 1 l)
    + P_closed e (rshift (diff e) ord0) (lshift 1 l) * (1 / 2)%Re.
Proof.
rewrite big_split_ord /= big_ord1 (bigD1 l) //= big1.
  move=> k hk; rewrite !mxE /= /P_at.
  have hk' : Z.of_nat k <> Z.of_nat l.
    by move/Nat2Z.inj/val_inj/eqP; apply/negP.
  have := ord_Z k; have hl : Z.of_nat l = (Z.of_nat (diff e) - 1)%Z.
    by move: l_last; lia.
  rewrite hl in hk' *; move: (Z.of_nat k) hk' => a ha ha'.
  by Zcases; rewrite mul0r.
by rewrite addr0 !mxE /= ltn_ord addn0 ltnn mulr1.
Qed.

End TopAge.

(** With all coefficients zero and 90 the oldest modelled age, the mean
    remaining life at that age is 3/2: each year one half survives (reward
    1, and the same prospect again) and one half dies (reward 1/2). *)
Lemma mean_at_top_age_90 (e : LongevityEstimator) (col : seq (cell * fl)) :
  coeffs e = Some zero_coeffs ->
  (start_age e <= 90)%Z -> end_age e = 91%Z ->
  dict_get colkey_eqb (disability_prevalence e)
           ("mergeid"%string, CInt (income_dcl e)) = Some col ->
  exists mean std,
    compute_lifetime_estimates e false = Ok (mean, std) /\
    size mean = diff e /\
    nth 0%Re mean (diff e - 1) = (3 / 2)%Re.
Proof.
move=> hc hs he hcol.
have hse : (start_age e <= end_age e)%Z by lia.
have hlt : (start_age e < end_age e)%Z by lia.
have h90 : models_90 e by rewrite /models_90 he; Zcases.
have hpd age : p_dead e age = (1 / 2)%Re by apply: p_dead_zero_coeffs.
have hpa age : p_alive e age = (1 / 2)%Re by apply: p_alive_zero_coeffs.
have hpd0 : p_dead e 90 <> 0%Re by rewrite hpd; lra.
have hd : (0 < diff e)%N by apply/ltP; rewrite /diff; lia.
have hl : ((diff e).-1 < diff e)%N by rewrite prednK.
pose l := Ordinal hl.
have l_last : l.+1 = diff e by rewrite /= prednK.
have [_ [hN _]] := inv_fundamental_ok hse (fun _ => hpd0).
have [mean [std [hr [sm [_ hnth]]]]] :=
  compute_lifetime_estimates_formula
    (generate_prevalence_matrix_closed hlt hcol) (compute_UP_closed hse)
    (@compute_moments_formula _ _ (P_closed e) _ false _ _ hN (erefl _)).
exists mean, std; split=> //; split=> //.
rewrite subn1 -[(diff e).-1]/(nat_of_ord l); have [-> _] := hnth l.
rewrite spec_rho1_entry (bigD1 l) //= [X in _ + X]big1.
  move=> j hj.
  by rewrite (inverse_last_column hse l_last j h90 hpd0 hN) (negbTE hj) !mul0r.
rewrite (inverse_last_column hse l_last l h90 hpd0 hN) eqxx.
rewrite (last_column_rewards l_last).
have hdl : Z.of_nat l = (Z.of_nat (diff e) - 1)%Z by move: l_last; lia.
rewrite /P_closed /mx_of !mxE /P_at /= addn0 hdl.
have hdz := diff_Z hse.
by Zcases; rewrite ?hpd ?hpa; to_real; lra.
Qed.

(** C5, counterexample: for the ages 89 and 90 with all coefficients zero,
    every [p_dead] is 1/2 but the mean at the oldest modelled age is not
    1/2. *)
Lemma C5_mean_at_oldest_age_is_not_half :
  (forall age, p_dead estimator_89_90 age = (1 / 2)%Re) /\
  exists mean std,
    compute_lifetime_estimates estimator_89_90 false = Ok (mean, std) /\
    nth 0%Re mean (diff estimator_89_90 - 1) <> (1 / 2)%Re.
Proof.
split; first by move=> age; apply: p_dead_zero_coeffs.
have hs : (start_age estimator_89_90 <= 90)%Z by rewrite /=; lia.
have [mean [std [h [_ hm]]]] :=
  @mean_at_top_age_90 estimator_89_90 _ (erefl _) hs (erefl _) (erefl _).
by exists mean, std; split=> //; rewrite hm; lra.
Qed.

(** C5, amended: with all three coefficients zero, [p_dead] is 1/2 at every
    age, and when 90 is the oldest modelled age the mean returned by
    [compute_lifetime_estimates(healthy_life_only=False)] is 3/2 at that
    age. *)
Theorem C5_zero_coefficients (e : LongevityEstimator) (col : seq (cell * fl)) :
  coeffs e = Some zero_coeffs ->
  (start_age e <= 90)%Z -> end_age e = 91%Z ->
  dict_get colkey_eqb (disability_prevalence e)
           ("mergeid"%string, CInt (income_dcl e)) = Some col ->
  (forall age, p_dead e age = (1 / 2)%Re) /\
  exists mean std,
    compute_lifetime_estimates e false = Ok (mean, std) /\
    size mean = diff e /\
    nth 0%Re mean (diff e - 1) = (3 / 2)%Re.
Proof.
move=> hc hs he hcol; split; first by move=> age; apply: p_dead_zero_coeffs.
exact: mean_at_top_age_90 hcol.
Qed.

Lemma C5_zero_coefficients_witness :
  (forall age, p_dead estimator_89_90 age = (1 / 2)%Re) /\
  exists mean std,
    compute_lifetime_estimates estimator_89_90 false = Ok (mean, std) /\
    size mean = diff estimator_89_90 /\
    nth 0%Re mean (diff estimator_89_90 - 1) = (3 / 2)%Re.
Proof.
by apply: (@C5_zero_coefficients estimator_89_90 [::]).
Defined.

(** ** The prevalence table and the constructor *)

Lemma py_int_IZR (z : Z) : py_int (IZR z) = z.
Proof.
rewrite /py_int /Rleb; case: Rle_dec => h.
  by symmetry; apply: Int_part_spec; lra.
have h2 : (- z)%Z = Int_part (IZR (- z)) by apply: Int_part_spec; lra.
by rewrite /= -opp_IZR -h2; lia.
Qed.

(** C7, at an input where the code departs from the claim: the estimator
    built from [observations_60_61] models the ages 60 and 61 in decile 0.
    The cell (60, 0) has a missing denominator; the division of the two
    pivot tables leaves NaN there, under an existing key, so that
    [.get(age, 0)] returns NaN and not 0. *)
Theorem C7_missing_denominator_gives_nan :
  exists st e,
    init no_pipeline store_60_61 0 1 "male" 0 None = (st, Ok e) /\
    start_age e = 60%Z /\ end_age e = 62%Z /\
    disability_prevalence e
    = [:: (("mergeid"%string, CInt 0), [:: (CInt 60, NaN); (CInt 61, NaN)])] /\
    prevalence e 60 = Ok NaN.
Proof.
have hmin : Rmin (IZR 61) (IZR 60) = IZR 60 by rewrite Rmin_right //; lra.
have hmax : Rmax (IZR 61) (IZR 60) = IZR 61 by rewrite Rmax_left //; lra.
eexists; eexists; split.
  rewrite /init /= /int_min /int_max /= hmin hmax !py_int_IZR /=.
  by reflexivity.
do 3![split; first by []].
by rewrite /prevalence /= /float_of_int Req_bool_refl.
Qed.

Lemma frame_get_set_same (f : frame) (c : string) (v : column) :
  frame_get (frame_set f c v) c = Some v.
Proof.
elim: f => [|[k w] f IH] /=; first by rewrite String.eqb_refl.
by case h: (String.eqb k c); rewrite /= h.
Qed.

Lemma frame_get_set_other (f : frame) (c c' : string) (v : column) :
  c' <> c -> frame_get (frame_set f c v) c' = frame_get f c'.
Proof.
move=> hc; elim: f => [|[k w] f IH] /=.
  by case: String.eqb_spec => // h; case: hc.
case: (String.eqb_spec k c) => [->|hk] /=; last by rewrite IH.
by case: String.eqb_spec => // h; case: hc.
Qed.

(** The column names after an assignment: the same, or one more at the
    end. *)
Lemma frame_set_names (f : frame) (c : string) (v : column) :
  [seq kv.1 | kv <- frame_set f c v]
  = if frame_get f c is Some _ then [seq kv.1 | kv <- f]
    else rcons [seq kv.1 | kv <- f] c.
Proof.
elim: f => [|[k w] f IH] //=.
by case: String.eqb_spec => [->|hk] //=; rewrite IH; case: frame_get.
Qed.

(** What [age ** 2] holds, row by row. *)
Lemma squares_of (ages : column) :
  all squarable ages ->
  exists squares,
    mapM cell_square ages = Ok squares /\ size squares = size ages /\
    (forall k z, nth CNull ages k = CInt z ->
       nth CNull squares k = CInt (z * z)) /\
    (forall k x, nth CNull ages k = CFloat x ->
       nth CNull squares k = CFloat (x * x)%Re) /\
    (forall k, nth CNull ages k = CNull -> nth CNull squares k = CNull).
Proof.
elim: ages => [|c ages IH] /=.
  by move=> _; exists [::]; do ![split=> //]; move=> [|k] ?.
move=> /andP [hc /IH [squares [-> [hs [hz [hx hn]]]]]].
case: c hc => [z|x|s|] // _ /=; eexists; (split; first by []);
  rewrite /= hs; (split; first by []);
  by do ![split]; move=> [|k] //=; (try by move=> ? [<-]); eauto.
Qed.

(** C10: when the column [age] of [panel_df] holds numbers (an integer's
    square within an int64) or NaN, the constructor replaces the caller's
    panel in the store by the same frame with a column [age_2], added at the
    end or overwritten in place, that holds in each row the square of that
    row's age. No other column of the panel changes and no other frame of
    the store changes: in particular the observation frame [df], a different
    object, is untouched. This holds whether the rest of the constructor
    succeeds or raises. *)
Theorem C10_constructor_adds_age_2
  (pipeline : frame -> Z -> Z -> Z -> R) (st : store) (df_ref panel_ref : nat)
  (gender : string) (income_dcl : Z) (coeffs : option coefficients)
  (panel : frame) (ages : column) :
  st panel_ref = Some panel ->
  frame_get panel "age" = Some ages ->
  all squarable ages ->
  let st' := (init pipeline st df_ref panel_ref gender income_dcl coeffs).1 in
  (exists panel' age_2,
     st' panel_ref = Some panel' /\
     frame_get panel' "age_2" = Some age_2 /\
     size age_2 = size ages /\
     (forall k z, nth CNull ages k = CInt z ->
        nth CNull age_2 k = CInt (z * z)) /\
     (forall k x, nth CNull ages k = CFloat x ->
        nth CNull age_2 k = CFloat (x * x)%Re) /\
     (forall k, nth CNull ages k = CNull -> nth CNull age_2 k = CNull) /\
     (forall c, c <> "age_2"%string -> frame_get panel' c = frame_get panel c) /\
     [seq kv.1 | kv <- panel']
     = if frame_get panel "age_2" is Some _ then [seq kv.1 | kv <- panel]
       else rcons [seq kv.1 | kv <- panel] "age_2"%string) /\
  (forall r, r <> panel_ref -> st' r = st r) /\
  (df_ref <> panel_ref -> st' df_ref = st df_ref).
Proof.
move=> hp ha hsq.
have [squares [hs [hsz [hz [hx hn]]]]] := squares_of hsq.
rewrite /init hp /getattr ha /= hs /=.
split.
  exists (frame_set panel "age_2" squares), squares; rewrite /store_set eqxx.
  split=> //; split; first exact: frame_get_set_same.
  do 4![split=> //].
  split; last exact: frame_set_names.
  by move=> c hc; apply: frame_get_set_other.
have other r : r <> panel_ref ->
    store_set st panel_ref (frame_set panel "age_2" squares) r = st r.
  by rewrite /store_set; case: eqP.
by split=> [r hr|hd]; apply: other.
Qed.

Lemma C10_constructor_adds_age_2_witness :
  exists panel',
    (init no_pipeline store_60_61 0 1 "male" 0 None).1 1%N = Some panel' /\
    frame_get panel' "age_2" = Some [:: CInt 3600; CInt 3721] /\
    (init no_pipeline store_60_61 0 1 "male" 0 None).1 0%N
    = Some observations_60_61.
Proof.
have [[panel' [age_2 [h1 [h2 [h3 [h4 _]]]]]] [_ h5]] :=
  @C10_constructor_adds_age_2 no_pipeline store_60_61 0 1 "male" 0 None
    panel_60_61 [:: CInt 60; CInt 61] (erefl _) (erefl _) (erefl _).
exists panel'; split=> //; split; last by apply: h5.
rewrite h2; congr Some.
have e0 := h4 0%N 60%Z (erefl _); have e1 := h4 1%N 61%Z (erefl _).
by case: age_2 h3 e0 e1 {h2 h4} => [|a [|b [|c s]]] //= _ -> ->.
Defined.

(** ** Inequality indices under a Pigou-Dalton transfer *)

Local Close Scope ring_scope.
Local Open Scope R_scope.

(** *** Sums over a vector *)

Lemma sumf_cons (F : R -> R) (x : R) (s : seq R) :
  sumf F (x :: s) = F x + sumf F s.
Proof. by []. Qed.

Lemma sumf_id (s : seq R) : sumf id s = Rsum s.
Proof. by rewrite /sumf map_id. Qed.

Lemma sumf_perm (F : R -> R) (s t : seq R) :
  Permutation s t -> sumf F s = sumf F t.
Proof.
elim=> [|x s1 t1 _ IH|x y s1|s1 t1 u1 _ IH1 _ IH2] //.
- by rewrite !sumf_cons IH.
- by rewrite !sumf_cons; lra.
- by rewrite IH1.
Qed.

Lemma sumf_ext_in (F G : R -> R) (s : seq R) :
  (forall k, (k < size s)%N -> F (nth 0 s k) = G (nth 0 s k)) ->
  sumf F s = sumf G s.
Proof.
elim: s => [|x s IH] // h; rewrite !sumf_cons (h 0%N) // IH // => k hk.
exact: (h k.+1).
Qed.

Lemma sumf_le (F G : R -> R) (s : seq R) :
  (forall x, F x <= G x) -> sumf F s <= sumf G s.
Proof.
by move=> h; elim: s => [|x s IH]; rewrite ?sumf_cons; [rewrite /sumf /=|
  have := h x]; lra.
Qed.

Lemma sumf_add (F G : R -> R) (s : seq R) :
  sumf (fun x => F x + G x) s = sumf F s + sumf G s.
Proof.
by elim: s => [|x s IH]; rewrite ?sumf_cons ?IH /sumf /=; lra.
Qed.

Lemma sumf_const0 (s : seq R) : sumf (fun _ => 0) s = 0.
Proof. by elim: s => [|x s IH] //; rewrite sumf_cons IH; lra. Qed.

Lemma size_upd (s : seq R) (i : nat) (v : R) : size (upd s i v) = size s.
Proof. by elim: s i => [|x s IH] [|i] //=; rewrite IH. Qed.

Lemma nth_upd (s : seq R) (i k : nat) (v : R) :
  (i < size s)%N -> nth 0 (upd s i v) k = if k == i then v else nth 0 s k.
Proof.
by elim: s i k => [|x s IH] [|i] [|k] //= hi; rewrite IH.
Qed.

Lemma sumf_upd (F : R -> R) (s : seq R) (i : nat) (v : R) :
  (i < size s)%N -> sumf F (upd s i v) = sumf F s - F (nth 0 s i) + F v.
Proof.
elim: s i => [|x s IH] [|i] //= hi; rewrite !sumf_cons ?IH //; lra.
Qed.

Lemma map_upd (F : R -> R) (s : seq R) (i : nat) (v : R) :
  [seq F x | x <- upd s i v] = upd [seq F x | x <- s] i (F v).
Proof. by elim: s i => [|x s IH] [|i] //=; rewrite IH. Qed.

Lemma foldl_Rplus (a : R) (s : seq R) : foldl Rplus a s = a + Rsum s.
Proof.
by elim: s a => [|x s IH] a /=; [rewrite /Rsum /= | rewrite IH /Rsum /=]; lra.
Qed.

(** *** The Gini numerator as a sum of absolute differences *)

Lemma RlebP (x y : R) : reflect (x <= y) (Rleb x y).
Proof. by rewrite /Rleb; case: Rle_dec => h; constructor. Qed.

Lemma RltbP (x y : R) : reflect (x < y) (Rltb x y).
Proof. by rewrite /Rltb; case: Rlt_dec => h; constructor. Qed.

Lemma all_insert (p : R -> bool) (x : R) (s : seq R) :
  all p (insert x s) = p x && all p s.
Proof.
elim: s => [|y s IH] //=; case: Rleb => //=.
by rewrite IH; case: (p x); case: (p y).
Qed.

Lemma ascending_insert (x : R) (s : seq R) :
  ascending s -> ascending (insert x s).
Proof.
elim: s => [|y s IH] //= /andP [hy hs].
case: RlebP => hxy /=.
  rewrite hy hs /= andbT; apply/andP; split; first exact/RlebP.
  apply/allP => z hz; have /RlebP hyz := allP hy z hz.
  by apply/RlebP; lra.
rewrite all_insert hy IH // !andbT.
by apply/RlebP; lra.
Qed.

Lemma np_sort_ascending (s : seq R) : ascending (np_sort s).
Proof. by elim: s => [|x s IH] //=; apply: ascending_insert. Qed.

Lemma perm_insert (x : R) (s : seq R) : Permutation (x :: s) (insert x s).
Proof.
elim: s => [|y s IH] //=; case: Rleb => //.
by apply: (Permutation_trans (perm_swap y x s)); apply: perm_skip.
Qed.

Lemma np_sort_perm (s : seq R) : Permutation s (np_sort s).
Proof.
elim: s => [|x s IH] //=.
by apply: (Permutation_trans (perm_skip x IH)); apply: perm_insert.
Qed.

Lemma size_np_sort (s : seq R) : size (np_sort s) = size s.
Proof. by symmetry; apply: (Permutation_length (np_sort_perm s)). Qed.

Lemma dist_perm (s t : seq R) (x : R) :
  Permutation s t -> dist s x = dist t x.
Proof. exact: sumf_perm. Qed.

Lemma pair_distances_perm (s t : seq R) :
  Permutation s t -> pair_distances s = pair_distances t.
Proof.
move=> hst; rewrite /pair_distances (sumf_perm _ hst).
by apply: sumf_ext_in => k _; apply: dist_perm.
Qed.

Lemma weighted_cons (off : nat) (n x : R) (s : seq R) :
  weighted off n (x :: s) = (2 * INR off - n - 1) * x + weighted off.+1 n s.
Proof. by []. Qed.

Lemma weighted_shift (off : nat) (n : R) (s : seq R) :
  weighted off.+1 (n + 1) s = weighted off n s + Rsum s.
Proof.
elim: s off => [|x s IH] off; first by rewrite /weighted /Rsum /=; lra.
by rewrite !weighted_cons IH S_INR /Rsum /=; lra.
Qed.

Lemma dist_below (x : R) (s : seq R) :
  all (Rleb x) s -> dist s x = Rsum s - INR (size s) * x.
Proof.
elim: s => [|y s IH] /=; first by rewrite /dist /sumf /Rsum /=; lra.
move=> /andP [/RlebP hxy hs]; rewrite /dist sumf_cons -/(dist s x) IH //.
rewrite Rabs_left1; first by lra.
by rewrite /Rsum /= -/(Rsum s); case: (size s) => [|k]; rewrite /=; lra.
Qed.

Lemma pair_distances_cons (x : R) (s : seq R) :
  pair_distances (x :: s) = 2 * dist s x + pair_distances s.
Proof.
rewrite /pair_distances sumf_cons {1}/dist sumf_cons -/(dist s x).
have -> : sumf (dist (x :: s)) s
          = sumf (fun y => Rabs (y - x) + dist s y) s.
  by apply: sumf_ext_in.
rewrite sumf_add Rminus_diag Rabs_R0.
have -> : sumf (fun y => Rabs (y - x)) s = dist s x.
  by apply: sumf_ext_in => k _; rewrite Rabs_minus_sym.
by lra.
Qed.

(** On an ascending vector the weighted sum of the Gini index is half the
    sum of the pairwise distances. *)
Lemma weighted_ascending (s : seq R) :
  ascending s -> 2 * weighted 1 (INR (size s)) s = pair_distances s.
Proof.
elim: s => [|x s IH] /=.
  by rewrite /weighted /pair_distances /sumf /Rsum /=; lra.
move=> /andP [hx hs]; rewrite pair_distances_cons -IH // dist_below //.
rewrite weighted_cons.
have -> : match size s with 0%N => 1 | _.+1 => INR (size s) + 1 end
          = INR (size s) + 1 by case: (size s) => [|k] //=; lra.
by rewrite weighted_shift /=; lra.
Qed.

Lemma sumf_map (F g : R -> R) (s : seq R) :
  sumf F [seq g x | x <- s] = sumf (fun x => F (g x)) s.
Proof. by rewrite /sumf -map_comp. Qed.

Lemma Rsum_shift (c : R) (s : seq R) :
  Rsum [seq x + c | x <- s] = Rsum s + INR (size s) * c.
Proof.
elim: s => [|x s IH]; first by rewrite /Rsum /=; lra.
rewrite [size _]/= S_INR /Rsum /= -/(Rsum s) -/(Rsum [seq y + c | y <- s]) IH.
by lra.
Qed.

Lemma pair_distances_shift (c : R) (s : seq R) :
  pair_distances [seq x + c | x <- s] = pair_distances s.
Proof.
rewrite /pair_distances sumf_map; apply: sumf_ext_in => k _.
rewrite /dist sumf_map; apply: sumf_ext_in => k' _.
by congr Rabs; lra.
Qed.

Lemma amin_nonneg (x : R) (s : seq R) :
  all (Rleb 0) (x :: s) -> 0 <= foldr Rmin x s.
Proof.
move=> /= /andP [/RlebP hx]; elim: s => [|y s IH] //= /andP [/RlebP hy hs].
by apply: Rmin_glb => //; apply: IH.
Qed.

(** The Gini index of a non-negative vector, in closed form. *)
Lemma gini_closed (y : seq R) :
  (0 < size y)%N -> all (Rleb 0) y ->
  gini y = Ok (pair_distances y
               / (2 * (INR (size y) * (Rsum y + INR (size y) * 0.0000001)))).
Proof.
case: y => [|x s] // _ pos; rewrite /gini /np_amin bind_Ok.
have -> : Rltb (foldr Rmin x s) 0 = false.
  by case: RltbP => // h; have := amin_nonneg pos; lra.
set y := x :: s; set y1 := map _ y; congr Ok.
rewrite -/(weighted 1 (INR (size (np_sort y1))) (np_sort y1)).
have hw := weighted_ascending (np_sort_ascending y1).
rewrite -(pair_distances_perm (np_sort_perm y1)) pair_distances_shift in hw.
rewrite -sumf_id -(sumf_perm _ (np_sort_perm y1)) sumf_id Rsum_shift.
rewrite size_np_sort size_map in hw *.
have -> : weighted 1 (INR (size y)) (np_sort y1) = pair_distances y / 2.
  by lra.
move: (INR _ * _) (pair_distances y) => c a.
by rewrite /Rdiv Rinv_mult; ring.
Qed.

(** *** The transfer *)

Lemma size_transfer (y : seq R) (i j : nat) (d : R) :
  size (transfer y i j d) = size y.
Proof. by rewrite /transfer !size_upd. Qed.

Lemma nth_transfer (y : seq R) (i j k : nat) (d : R) :
  (i < size y)%N -> (j < size y)%N ->
  nth 0 (transfer y i j d) k
  = if k == j then nth 0 y j - d
    else if k == i then nth 0 y i + d else nth 0 y k.
Proof. by move=> hi hj; rewrite /transfer !nth_upd ?size_upd. Qed.

Lemma sumf_transfer (F : R -> R) (y : seq R) (i j : nat) (d : R) :
  (i < size y)%N -> (j < size y)%N -> i != j ->
  sumf F (transfer y i j d)
  = sumf F y - F (nth 0 y i) + F (nth 0 y i + d)
    - F (nth 0 y j) + F (nth 0 y j - d).
Proof.
move=> hi hj hij; rewrite /transfer sumf_upd ?size_upd // sumf_upd //.
by rewrite nth_upd // eq_sym (negbTE hij).
Qed.

Lemma Rsum_transfer (y : seq R) (i j : nat) (d : R) :
  (i < size y)%N -> (j < size y)%N -> i != j ->
  Rsum (transfer y i j d) = Rsum y.
Proof. by move=> hi hj hij; rewrite -!sumf_id sumf_transfer //; lra. Qed.

Lemma abs_transfer (a b d x : R) :
  0 <= d -> a + d <= b - d ->
  Rabs (x - (a + d)) + Rabs (x - (b - d)) <= Rabs (x - a) + Rabs (x - b).
Proof.
by move=> hd hab; rewrite /Rabs; do 4![case: Rcase_abs => ?]; lra.
Qed.

(** A transfer from a larger to a smaller element that does not take the
    receiver past the donor cannot increase the sum of pairwise
    distances. *)
Lemma pair_distances_transfer (y : seq R) (i j : nat) (d : R) :
  (i < size y)%N -> (j < size y)%N -> i != j ->
  0 <= d -> nth 0 y i + d <= nth 0 y j - d ->
  pair_distances (transfer y i j d) <= pair_distances y.
Proof.
move=> hi hj hij hd hab; set a := nth 0 y i; set b := nth 0 y j.
pose delta x := Rabs (x - (a + d)) + Rabs (x - (b - d))
                - (Rabs (x - a) + Rabs (x - b)).
have delta_le x : delta x <= 0.
  by have := @abs_transfer a b d x hd hab; rewrite /delta; lra.
have hdist x : dist (transfer y i j d) x = dist y x + delta x.
  by rewrite /dist sumf_transfer // /delta -/a -/b; lra.
have -> : pair_distances (transfer y i j d)
          = sumf (dist y) (transfer y i j d) + sumf delta (transfer y i j d).
  by rewrite -sumf_add; apply: sumf_ext_in => k _; rewrite hdist.
have h1 : sumf delta (transfer y i j d) <= 0.
  by rewrite -(sumf_const0 (transfer y i j d)); apply: sumf_le.
have h2 : sumf (dist y) (transfer y i j d) = pair_distances y + sumf delta y.
  rewrite sumf_transfer // -/a -/b /pair_distances.
  have -> : sumf delta y
            = dist y (a + d) + dist y (b - d) - (dist y a + dist y b).
    rewrite /dist -!sumf_add.
    have -> : sumf (fun x => Rabs (a + d - x) + Rabs (b - d - x)) y
                   - sumf (fun x => Rabs (a - x) + Rabs (b - x)) y
              = sumf (fun x => Rabs (a + d - x) + Rabs (b - d - x)
                               + - (Rabs (a - x) + Rabs (b - x))) y.
      rewrite (sumf_add (fun x => Rabs (a + d - x) + Rabs (b - d - x))).
      have -> : sumf (fun x => - (Rabs (a - x) + Rabs (b - x))) y
                = - sumf (fun x => Rabs (a - x) + Rabs (b - x)) y.
        by elim: (y) => [|z s IH]; rewrite ?sumf_cons ?IH /sumf /Rsum /=; lra.
      by lra.
    apply: sumf_ext_in => k _; rewrite /delta.
    by rewrite !(Rabs_minus_sym (nth 0 y k)); lra.
  by lra.
have h3 : sumf delta y <= 0.
  by rewrite -(sumf_const0 y); apply: sumf_le.
by lra.
Qed.

(** *** The Theil index *)

Lemma zip_map_mul (f : R -> R) (s : seq R) :
  [seq sl.1 * sl.2 | sl <- zip s [seq f x | x <- s]] = [seq x * f x | x <- s].
Proof. by elim: s => [|x s IH] //=; rewrite IH. Qed.

(** The Theil index as one sum over the nudged vector. *)
Lemma theil_closed (y : seq R) :
  theil y = sumf (theil_term (INR (size y)) (Rsum [seq nudge x | x <- y]))
                 [seq nudge x | x <- y].
Proof.
rewrite /theil foldl_Rplus Rplus_0_l zip_map_mul -/(sumf _ _) sumf_map.
by [].
Qed.

Lemma nudge_pos (x : R) : 0 < x -> nudge x = x.
Proof. by move=> hx; rewrite /nudge Req_bool_neq; lra. Qed.

Lemma nudge_gt0 (x : R) : 0 <= x -> 0 < nudge x.
Proof.
by move=> hx; rewrite /nudge /Req_bool; case: Req_EM_T => h /=; lra.
Qed.

Lemma Rsum_ge0 (s : seq R) : all (Rltb 0) s -> 0 <= Rsum s.
Proof.
elim: s => [|x s IH] /=; first by rewrite /Rsum /=; lra.
by move=> /andP [/RltbP hx /IH hs]; rewrite /Rsum /= -/(Rsum s); lra.
Qed.

Lemma Rsum_pos (s : seq R) : (0 < size s)%N -> all (Rltb 0) s -> 0 < Rsum s.
Proof.
case: s => [|x s] //= _ /andP [/RltbP hx /Rsum_ge0 hs].
by rewrite /Rsum /= -/(Rsum s); lra.
Qed.

Lemma all_nudge (y : seq R) :
  all (Rleb 0) y -> all (Rltb 0) [seq nudge x | x <- y].
Proof.
elim: y => [|x y IH] //= /andP [/RlebP hx /IH ->]; rewrite andbT.
by apply/RltbP; apply: nudge_gt0.
Qed.

Lemma ln_le_minus_1 (t : R) : 0 < t -> ln t <= t - 1.
Proof. by move=> ht; have := exp_ineq1_le (ln t); rewrite exp_ln //; lra. Qed.

Lemma ln_mono (x y : R) : 0 < x -> x <= y -> ln x <= ln y.
Proof.
move=> hx [hxy|->]; last by lra.
by apply: Rlt_le; apply: ln_increasing.
Qed.

(** [t ln t] lies above its tangents. *)
Lemma xlnx_tangent (x y : R) :
  0 < x -> 0 < y -> y * ln x + y - x <= y * ln y.
Proof.
move=> hx hy.
have hiy : 0 < / y by apply: Rinv_0_lt_compat.
have hq : 0 < x * / y by apply: Rmult_lt_0_compat.
have := ln_le_minus_1 hq; rewrite (ln_mult _ _ hx hiy) (ln_Rinv _ hy) => h.
have : y * (ln x + - ln y) <= y * (x * / y - 1).
  by apply: Rmult_le_compat_l => //; lra.
have -> : y * (x * / y - 1) = x - y by field; lra.
by lra.
Qed.

(** Moving [d] from [b] to a positive [a] without crossing lowers the sum
    of [t ln t]. *)
Lemma xlnx_transfer (a b d : R) :
  0 < a -> 0 <= d -> a + d <= b - d ->
  (a + d) * ln (a + d) + (b - d) * ln (b - d) <= a * ln a + b * ln b.
Proof.
move=> ha hd hab.
have h1 := @xlnx_tangent (a + d) a ltac:(lra) ha.
have h2 := @xlnx_tangent (b - d) b ltac:(lra) ltac:(lra).
have h3 : ln (a + d) <= ln (b - d) by apply: ln_mono; lra.
have h4 : 0 <= d * (ln (b - d) - ln (a + d)).
  by apply: Rmult_le_pos; lra.
by move: (ln (a + d)) (ln (b - d)) (a * ln a) (b * ln b) h1 h2 h3 h4 => *; lra.
Qed.

Lemma theil_termE (n yt x : R) :
  0 < n -> 0 < yt ->
  theil_term n yt x
  = / n * ((n / (yt * 1.0) * x) * ln (n / (yt * 1.0) * x)).
Proof.
move=> hn hy; rewrite /theil_term.
have -> : n * (x / (yt * 1.0)) = n / (yt * 1.0) * x by field; lra.
by field; lra.
Qed.

Lemma theil_term_transfer (n yt a b d : R) :
  0 < n -> 0 < yt -> 0 < a -> 0 <= d -> a + d <= b - d ->
  theil_term n yt (a + d) + theil_term n yt (b - d)
  <= theil_term n yt a + theil_term n yt b.
Proof.
move=> hn hy ha hd hab; rewrite !theil_termE //.
set c := n / (yt * 1.0).
have hc : 0 < c.
  by apply: Rmult_lt_0_compat => //; apply: Rinv_0_lt_compat; lra.
have hca : 0 < c * a by apply: Rmult_lt_0_compat.
have hcd : 0 <= c * d by apply: Rmult_le_pos => //; lra.
have hcab : c * a + c * d <= c * b - c * d.
  have := Rmult_le_compat_l c _ _ (Rlt_le _ _ hc) hab.
  by lra.
have := xlnx_transfer hca hcd hcab.
have -> : c * a + c * d = c * (a + d) by ring.
have -> : c * b - c * d = c * (b - d) by ring.
move=> h; have hin : 0 <= / n by apply: Rlt_le; apply: Rinv_0_lt_compat.
have := Rmult_le_compat_l _ _ _ hin h.
by lra.
Qed.

(** On a non-negative vector, a transfer to a positive element that does
    not take it past the donor cannot increase the exact value of the Theil
    formula (a value computed in binary64 follows it up to rounding). *)
Lemma theil_transfer (y : seq R) (i j : nat) (d : R) :
  all (Rleb 0) y -> (i < size y)%N -> (j < size y)%N -> i != j ->
  0 <= d -> nth 0 y i + d <= nth 0 y j - d -> 0 < nth 0 y i ->
  theil (transfer y i j d) <= theil y.
Proof.
move=> pos hi hj hij hd hab ha.
set a := nth 0 y i in hab ha *; set b := nth 0 y j in hab *.
set E := [seq nudge x | x <- y].
have sE : size E = size y by rewrite size_map.
have Ei : nth 0 E i = a by rewrite (nth_map 0) // nudge_pos.
have Ej : nth 0 E j = b by rewrite (nth_map 0) // -/b nudge_pos //; lra.
have hE : [seq nudge x | x <- transfer y i j d] = transfer E i j d.
  rewrite /transfer !map_upd -/E Ei Ej -/a -/b.
  by rewrite !nudge_pos //; lra.
rewrite !theil_closed hE size_transfer -/E Rsum_transfer ?sE //.
rewrite sumf_transfer ?sE // Ei Ej.
have hn : 0 < INR (size y) by apply: lt_0_INR; apply/ltP; case: (size y) hi.
have hS : 0 < Rsum E.
  by apply: Rsum_pos; rewrite ?sE ?all_nudge //; case: (size y) hi.
have := theil_term_transfer hn hS ha hd hab.
by lra.
Qed.

(** C8, counterexample: on the vector [0, 1e-8] the transfer of 1e-9 from
    the larger to the smaller element keeps their order; the Theil index
    is 0 before (the zero is replaced by 1e-8, which makes the two
    elements equal) and positive after. *)
Lemma C8_theil_increases_after_transfer :
  let y := [:: 0; 1e-8] in
  all (Rleb 0) y /\ 0 <= 1e-9 /\
  nth 0 y 0 + 1e-9 <= nth 0 y 1 - 1e-9 /\
  theil y < theil (transfer y 0 1 1e-9).
Proof.
have h8 : nudge 1e-8 = 1e-8 by apply: nudge_pos; lra.
have h0 : nudge 0 = 1e-8 by rewrite /nudge Req_bool_refl; lra.
have h1 : nudge (0 + 1e-9) = 1e-9 by rewrite nudge_pos; lra.
have h9 : nudge (1e-8 - 1e-9) = 9e-9 by rewrite nudge_pos; lra.
split; first by apply/andP; split; [|apply/andP; split=> //]; apply/RlebP; lra.
split; first by lra.
split; first by rewrite /=; lra.
rewrite !theil_closed /transfer /= h0 h8 h1 h9 /sumf /Rsum /= /theil_term.
have -> : (1 + 1) * (1e-8 / ((1e-8 + (1e-8 + 0)) * 1.0)) = 1 by lra.
have -> : 1e-9 / ((1e-9 + (9e-9 + 0)) * 1.0) = 1 / 10 by lra.
have -> : 9e-9 / ((1e-9 + (9e-9 + 0)) * 1.0) = 9 / 10 by lra.
have -> : (1 + 1) * (1 / 10) = / 5 by lra.
have -> : (1 + 1) * (9 / 10) = 9 / 5 by lra.
have p5 : 0 < 5 by lra.
have p95 : 0 < 9 / 5 by lra.
have p95' : 0 < 9 / 5 * (9 / 5) by lra.
rewrite ln_1 (ln_Rinv _ p5).
have l1 : 0 < ln (9 / 5) by rewrite -ln_1; apply: ln_increasing; lra.
have l5 : ln 5 < ln (9 / 5 * (9 / 5) * (9 / 5)) by apply: ln_increasing; lra.
rewrite (ln_mult _ _ p95' p95) (ln_mult _ _ p95 p95) in l5.
by lra.
Qed.

Lemma Rsum_nonneg (s : seq R) : all (Rleb 0) s -> 0 <= Rsum s.
Proof.
elim: s => [|x s IH] /=; first by rewrite /Rsum /=; lra.
by move=> /andP [/RlebP hx /IH hs]; rewrite /Rsum /= -/(Rsum s); lra.
Qed.

Lemma transfer_nonneg (y : seq R) (i j : nat) (d : R) :
  all (Rleb 0) y -> (i < size y)%N -> (j < size y)%N ->
  0 <= d -> nth 0 y i + d <= nth 0 y j - d ->
  all (Rleb 0) (transfer y i j d).
Proof.
move=> /(all_nthP 0) pos hi hj hd hab; apply/(all_nthP 0) => k.
rewrite size_transfer => hk; rewrite nth_transfer //.
have /RlebP hyi := pos i hi; have /RlebP hyk := pos k hk.
by case: eqP => _; [|case: eqP => _]; apply/RlebP; lra.
Qed.

(** On a non-negative vector, a transfer that does not take the receiver
    past the donor cannot increase the exact value of the Gini formula (a
    value computed in binary64 follows it up to rounding). *)
Lemma gini_transfer (y : seq R) (i j : nat) (d : R) :
  all (Rleb 0) y -> (i < size y)%N -> (j < size y)%N -> i != j ->
  0 <= d -> nth 0 y i + d <= nth 0 y j - d ->
  exists g g',
    gini y = Ok g /\ gini (transfer y i j d) = Ok g' /\ g' <= g.
Proof.
move=> pos hi hj hij hd hab.
have hn : (0 < size y)%N by case: (size y) hi.
have pos' := transfer_nonneg pos hi hj hd hab.
rewrite (gini_closed hn pos) gini_closed ?size_transfer //.
rewrite Rsum_transfer //; do 2!eexists; split; first by [].
split; first by [].
have hS := Rsum_nonneg pos.
have hN : 0 < INR (size y) by apply: lt_0_INR; apply/ltP.
have hden : 0 < 2 * (INR (size y) * (Rsum y + INR (size y) * 0.0000001)).
  have : 0 < INR (size y) * (Rsum y + INR (size y) * 0.0000001).
    apply: Rmult_lt_0_compat => //.
    have : 0 < INR (size y) * 0.0000001 by apply: Rmult_lt_0_compat => //; lra.
    by lra.
  by lra.
apply: Rmult_le_compat_r; first by apply: Rlt_le; apply: Rinv_0_lt_compat.
exact: pair_distances_transfer.
Qed.

Lemma nudge_nudge (x : R) : nudge (nudge x) = nudge x.
Proof.
have h : nudge x <> 0.
  by rewrite /nudge /Req_bool; case: Req_EM_T => /= h; lra.
by rewrite {1}/nudge Req_bool_neq //; lra.
Qed.

(** The Theil index of a vector is that of the vector with its zeros
    replaced by 1e-08: the replacement leaves every other element, and
    every element of the second vector, as it is. *)
Lemma theil_of_nudged (y : seq R) : theil y = theil [seq nudge x | x <- y].
Proof.
rewrite !theil_closed size_map -map_comp.
have -> : [seq (nudge \o nudge) x | x <- y] = [seq nudge x | x <- y].
  by apply: eq_map => x /=; exact: nudge_nudge.
by [].
Qed.

(** C8, amended: the Theil index counts a zero as 1e-08. It is computed on
    the vector with each zero replaced by 1e-08, before and after a
    transfer. So for a transfer of less than 1e-08 to an element that is
    zero, the receiver goes down in what the index computes on, from 1e-08
    to the amount received, while the donor goes down by that amount: for
    the index the transfer takes from both. *)
Theorem C8_theil_counts_a_zero_as_1e_08 (y : seq R) (i j : nat) (d : R) :
  all (Rleb 0) y -> (i < size y)%N -> (j < size y)%N -> i != j ->
  nth 0 y i = 0 -> 0 < d < 1e-08 -> nth 0 y i + d <= nth 0 y j - d ->
  theil y = theil [seq nudge x | x <- y] /\
  theil (transfer y i j d) = theil [seq nudge x | x <- transfer y i j d] /\
  nth 0 [seq nudge x | x <- y] i = 1e-08 /\
  nth 0 [seq nudge x | x <- transfer y i j d] i = d /\
  nth 0 [seq nudge x | x <- y] j = nth 0 y j /\
  nth 0 [seq nudge x | x <- transfer y i j d] j = nth 0 y j - d.
Proof.
move=> pos hi hj hij h0 hd hab.
split; first exact: theil_of_nudged.
split; first exact: theil_of_nudged.
split.
  by rewrite (nth_map 0) // h0 /nudge Req_bool_refl; lra.
split.
  rewrite (nth_map 0) ?size_transfer // nth_transfer // (negbTE hij) eqxx h0.
  by rewrite nudge_pos; lra.
split; first by rewrite (nth_map 0) // nudge_pos //; lra.
rewrite (nth_map 0) ?size_transfer // nth_transfer // eqxx.
by rewrite nudge_pos; lra.
Qed.

Lemma C8_theil_counts_a_zero_as_1e_08_witness :
  theil [:: 0; 1e-8] = theil [:: 1e-08; 1e-8] /\
  nth 0 [seq nudge x | x <- transfer [:: 0; 1e-8] 0 1 1e-9] 0 = 1e-9.
Proof.
have pos : all (Rleb 0) [:: 0; 1e-8].
  by apply/andP; split; [|apply/andP; split=> //]; apply/RlebP; lra.
have hd : 0 < 1e-9 < 1e-08 by lra.
have hab : nth 0 [:: 0; 1e-8] 0 + 1e-9 <= nth 0 [:: 0; 1e-8] 1 - 1e-9.
  by rewrite /=; lra.
have [h1 [_ [_ [h4 _]]]] :=
  @C8_theil_counts_a_zero_as_1e_08 [:: 0; 1e-8] 0 1 1e-9 pos isT isT isT
    (erefl _) hd hab.
split=> //; rewrite h1 /=; congr (theil [:: _; _]).
  by rewrite /nudge Req_bool_refl; lra.
by apply: nudge_pos; lra.
Defined.

(** *** Symmetries of the Gini index *)

Lemma gini_formula (y : seq R) (lo : R) :
  np_amin y = Ok lo ->
  gini y = Ok (pair_distances (gini_shifted y lo)
               / (2 * (INR (size y) * Rsum (gini_shifted y lo)))).
Proof.
move=> hlo; rewrite /gini hlo bind_Ok -/(gini_shifted y lo).
set y1 := gini_shifted y lo; congr Ok.
rewrite -/(weighted 1 (INR (size (np_sort y1))) (np_sort y1)).
have hw := weighted_ascending (np_sort_ascending y1).
rewrite -(pair_distances_perm (np_sort_perm y1)) in hw.
rewrite -sumf_id -(sumf_perm _ (np_sort_perm y1)) sumf_id.
have sy1 : size y1 = size y.
  by rewrite /y1 /gini_shifted; case: Rltb; rewrite !size_map.
rewrite size_np_sort sy1 in hw *.
have -> : weighted 1 (INR (size y)) (np_sort y1) = pair_distances y1 / 2.
  by lra.
move: (INR _) (Rsum y1) (pair_distances y1) => n S a.
by rewrite /Rdiv !Rinv_mult; ring.
Qed.

Lemma foldr_Rmin_least (x : R) (s : seq R) :
  List.In (foldr Rmin x s) (x :: s) /\
  forall z, List.In z (x :: s) -> foldr Rmin x s <= z.
Proof.
elim: s => [|y s [hin hle]] /=.
  by split; [left | move=> z [<-|[]]; lra].
split.
  rewrite /Rmin; case: Rle_dec => _; first by right; left.
  by case: hin => [h|h]; [left | right; right].
move=> z [<-|[<-|hz]].
- by have := hle x (or_introl (erefl _)); have := Rmin_r y (foldr Rmin x s); lra.
- exact: Rmin_l.
- by have := hle z (or_intror hz); have := Rmin_r y (foldr Rmin x s); lra.
Qed.

Lemma np_amin_perm (y y' : seq R) :
  Permutation y y' -> np_amin y = np_amin y'.
Proof.
move=> hp; case: y y' hp => [|x s] [|x' s'] //.
- by move/Permutation_nil.
- by move/Permutation_sym/Permutation_nil.
move=> hp; rewrite /np_amin; congr Ok.
have [i1 l1] := foldr_Rmin_least x s; have [i2 l2] := foldr_Rmin_least x' s'.
have := l1 _ (Permutation_in _ (Permutation_sym hp) i2).
have := l2 _ (Permutation_in _ hp i1).
by lra.
Qed.

Lemma gini_shifted_perm (y y' : seq R) (lo : R) :
  Permutation y y' -> Permutation (gini_shifted y lo) (gini_shifted y' lo).
Proof.
move=> hp; rewrite /gini_shifted; apply: Permutation_map.
by case: Rltb => //; apply: Permutation_map.
Qed.

(** X11: the Gini index does not depend on the order of the elements. *)
Theorem X11_gini_ignores_order (y y' : seq R) :
  Permutation y y' -> gini y = gini y'.
Proof.
move=> hp; case hlo: (np_amin y) => [lo|err].
  have hlo' : np_amin y' = Ok lo by rewrite -(np_amin_perm hp).
  rewrite (gini_formula hlo) (gini_formula hlo').
  have hs := gini_shifted_perm lo hp.
  rewrite (pair_distances_perm hs) -!sumf_id (sumf_perm _ hs).
  by have -> : size y = size y' by exact: (Permutation_length hp).
by rewrite /gini hlo -(np_amin_perm hp) hlo.
Qed.

Lemma X11_gini_ignores_order_witness : gini [:: 1; 3] = gini [:: 3; 1].
Proof. by apply: X11_gini_ignores_order; apply: perm_swap. Defined.

Lemma foldr_Rmin_shift (c x : R) (s : seq R) :
  foldr Rmin (x + c) [seq z + c | z <- s] = foldr Rmin x s + c.
Proof.
elim: s => [|y s IH] //=; rewrite IH /Rmin.
by do 2![case: Rle_dec => ?]; lra.
Qed.

(** X13: a vector with a negative minimum has the Gini index of the vector
    shifted up so that its minimum is 0. *)
Theorem X13_gini_shifts_negative_vectors (y : seq R) (lo : R) :
  np_amin y = Ok lo -> lo < 0 ->
  gini y = gini [seq x - lo | x <- y].
Proof.
move=> hlo hneg.
have hlo' : np_amin [seq x - lo | x <- y] = Ok 0.
  case: y hlo => [|x s] //= [hm]; congr Ok.
  by rewrite (foldr_Rmin_shift (- lo)) hm; lra.
rewrite (gini_formula hlo) (gini_formula hlo') size_map /gini_shifted.
have -> : Rltb lo 0 by apply/RltbP.
by have -> : Rltb 0 0 = false by apply/RltbP; lra.
Qed.

Lemma X13_gini_shifts_negative_vectors_witness :
  gini [:: -1; 2] = gini [seq x - (-1) | x <- [:: -1; 2]].
Proof.
apply: X13_gini_shifts_negative_vectors; last by lra.
by rewrite /= Rmin_right //; lra.
Defined.

(** *** Symmetries of the Theil index *)

(** X15: on positive vectors the Theil index does not depend on the
    unit: multiplying every element by a positive constant leaves it
    unchanged. *)
Theorem X15_theil_ignores_scale (y : seq R) (c : R) :
  0 < c -> all (Rltb 0) y ->
  theil [seq c * x | x <- y] = theil y.
Proof.
move=> hc pos; rewrite !theil_closed size_map.
have hE : [seq nudge x | x <- y] = y.
  elim: y pos => [|x y IH] //= /andP [/RltbP hx /IH ->].
  by rewrite nudge_pos.
have hcE : [seq nudge x | x <- [seq c * x | x <- y]] = [seq c * x | x <- y].
  elim: y pos {hE} => [|x y IH] //= /andP [/RltbP hx /IH ->].
  by rewrite nudge_pos //; apply: Rmult_lt_0_compat.
rewrite hE hcE sumf_map.
have hsum : Rsum [seq c * x | x <- y] = c * Rsum y.
  elim: (y) => [|x s IH]; first by rewrite /Rsum /=; lra.
  by rewrite /= /Rsum /= -/(Rsum _) -/(Rsum s) IH; lra.
rewrite hsum; case: y pos {hE hcE hsum} => [|x s] pos //.
have hyt : 0 < Rsum (x :: s) by apply: Rsum_pos.
apply: sumf_ext_in => k _; rewrite /theil_term.
have -> : c * nth 0 (x :: s) k / (c * Rsum (x :: s) * 1.0)
          = nth 0 (x :: s) k / (Rsum (x :: s) * 1.0).
  have -> : 1.0 = 1 by lra.
  by move: (nth _ _ _) (Rsum _) hyt => a b hb; field; lra.
by [].
Qed.

Lemma X15_theil_ignores_scale_witness :
  theil [seq 10 * x | x <- [:: 1; 3]] = theil [:: 1; 3].
Proof.
apply: X15_theil_ignores_scale; first by lra.
by apply/andP; split; [|apply/andP; split=> //]; apply/RltbP; lra.
Defined.

Local Close Scope R_scope.
Local Open Scope ring_scope.

(** ** Further properties of the estimator *)

(** *** Probabilities and moments *)

Lemma sigmoid_bounds (x : R) : (0 <= sigmoid x <= 1)%Re.
Proof.
rewrite /sigmoid; have h := exp_pos (- x)%Re.
have hi : (0 < / (1 + exp (- x)))%Re by apply: Rinv_0_lt_compat; lra.
split; first by lra.
have : (/ (1 + exp (- x)) < / 1)%Re by apply: Rinv_lt_contravar; lra.
by rewrite Rinv_1; lra.
Qed.

Lemma p_dead_coefficients (e : LongevityEstimator) (c : coefficients)
  (age : Z) :
  coeffs e = Some c -> (0 <= p_dead e age <= 1)%Re.
Proof.
move=> hc; rewrite /p_dead /probabilities hc /=.
exact: sigmoid_bounds.
Qed.

(** X1: with supplied coefficients the two probabilities of an age are
    proper ones: the sigmoid puts [p_dead] between 0 and 1, and so is its
    complement [p_alive]. *)
Theorem X1_probabilities_from_coefficients (e : LongevityEstimator)
  (c : coefficients) (age : Z) :
  coeffs e = Some c ->
  (0 <= p_dead e age <= 1)%Re /\ (0 <= p_alive e age <= 1)%Re.
Proof.
by move=> hc; rewrite p_alive_dead; have := p_dead_coefficients age hc; lra.
Qed.

Lemma X1_probabilities_from_coefficients_witness :
  (0 <= p_dead estimator_88_89 88 <= 1)%Re /\
  (0 <= p_alive estimator_88_89 88 <= 1)%Re.
Proof.
exact: (@X1_probabilities_from_coefficients estimator_88_89 zero_coeffs 88
          (erefl _)).
Defined.

(** Each moment solves a linear system of the chain. *)
Lemma rho1_system {d : nat} (N U : 'M[R]_(d, d))
  (P R1 : 'M[R]_(d + 1, d + 1)) :
  N *m (1%:M - U) = 1%:M ->
  (1%:M - U)^T *m spec_rho1 N P R1
  = Z_proj d *m ((hadamard P R1)^T *m col_ones (d + 1)).
Proof.
by move=> hN; rewrite /spec_rho1 mulmxA -trmx_mul hN trmx1 mul1mx.
Qed.

Lemma rho2_system {d : nat} (N U : 'M[R]_(d, d))
  (P R1 R2 : 'M[R]_(d + 1, d + 1)) (rho1 : 'cV[R]_d) :
  N *m (1%:M - U) = 1%:M ->
  (1%:M - U)^T *m spec_rho2 N U P R1 R2 rho1
  = Z_proj d *m ((hadamard P R2)^T *m col_ones (d + 1))
    + 2%:R *: ((hadamard U (tilde R1))^T *m rho1).
Proof.
by move=> hN; rewrite /spec_rho2 mulmxA -trmx_mul hN trmx1 mul1mx.
Qed.

Lemma rho3_system {d : nat} (N U : 'M[R]_(d, d))
  (P R1 R2 R3 : 'M[R]_(d + 1, d + 1)) (rho1 rho2 : 'cV[R]_d) :
  N *m (1%:M - U) = 1%:M ->
  (1%:M - U)^T *m spec_rho3 N U P R1 R2 R3 rho1 rho2
  = Z_proj d *m ((hadamard P R3)^T *m col_ones (d + 1))
    + 3%:R *: ((hadamard U (tilde R2))^T *m rho1)
    + 3%:R *: ((hadamard U (tilde R1))^T *m rho2).
Proof.
by move=> hN; rewrite /spec_rho3 mulmxA -trmx_mul hN trmx1 mul1mx.
Qed.

(** X4: the three vectors [compute_moments] returns solve the linear
    systems of the chain: [(I - U)^T] applied to each moment gives the
    expected one-step rewards plus the cross terms with the lower
    moments. *)
Theorem X4_moments_solve_linear_systems {d : nat} (U : 'M[R]_(d, d))
  (P : 'M[R]_(d + 1, d + 1)) (prevalence_matrix : seq (seq fl))
  (healthy_life_only : bool) (R1 : 'M[R]_(d + 1, d + 1))
  (rho1 rho2 rho3 : 'cV[R]_d) :
  compute_moments U P prevalence_matrix healthy_life_only
  = Ok (rho1, rho2, rho3) ->
  (if healthy_life_only
   then as_matrix (d + 1) (d + 1) prevalence_matrix = Ok R1
   else R1 = total_life_rewards d) ->
  (1%:M - U)^T *m rho1
  = Z_proj d *m ((hadamard P R1)^T *m col_ones (d + 1)) /\
  (1%:M - U)^T *m rho2
  = Z_proj d *m ((hadamard P R1)^T *m col_ones (d + 1))
    + 2%:R *: ((hadamard U (tilde R1))^T *m rho1) /\
  (1%:M - U)^T *m rho3
  = Z_proj d *m ((hadamard P R1)^T *m col_ones (d + 1))
    + 3%:R *: ((hadamard U (tilde R1))^T *m rho1)
    + 3%:R *: ((hadamard U (tilde R1))^T *m rho2).
Proof.
move=> hm hR.
have [N hinv] : exists N, np_linalg_inv (1%:M - U) = Ok N.
  move: hm; rewrite /compute_moments.
  by case: (np_linalg_inv _) => [N|] // _; exists N.
have [hN _] := np_linalg_inv_inverse hinv.
move: hm; rewrite (compute_moments_formula P hN hR) => -[<- <- <-].
by rewrite rho1_system // rho2_system // rho3_system.
Qed.

Lemma X4_moments_solve_linear_systems_witness :
  exists rho1 rho2 rho3 : 'cV[R]_(diff estimator_89_90),
    compute_moments (ulsubmx (P_closed estimator_89_90))
      (P_closed estimator_89_90) [::] false = Ok (rho1, rho2, rho3) /\
    (1%:M - ulsubmx (P_closed estimator_89_90))^T *m rho1
    = Z_proj _ *m ((hadamard (P_closed estimator_89_90)
                      (total_life_rewards _))^T *m col_ones _).
Proof.
have hse : (start_age estimator_89_90 <= end_age estimator_89_90)%Z.
  by rewrite /=; lia.
have hpd : p_dead estimator_89_90 90 <> 0%Re.
  by rewrite p_dead_zero_coeffs //; lra.
have [_ [hN _]] := inv_fundamental_ok hse (fun _ => hpd).
have hm := @compute_moments_formula _ _ (P_closed estimator_89_90) [::] false
             _ _ hN (erefl _).
do 3!eexists; split; first exact: hm.
by have [] := X4_moments_solve_linear_systems hm (erefl _).
Defined.

Lemma next_state_lt (d j : nat) : (j < d)%N -> (next_state d j < d)%N.
Proof.
rewrite /next_state; case: eqP => // hne hj.
by rewrite ltn_neqAle hj andbT; apply/eqP.
Qed.

Section TopAge90.

Variable e : LongevityEstimator.
Hypothesis youngest : (start_age e <= 90)%Z.
Hypothesis oldest : end_age e = 91%Z.

Lemma survival_entry (i j : 'I_(diff e)) :
  ulsubmx (P_closed e) i j
  = if (i == next_state (diff e) j :> nat)
    then p_alive e (start_age e + Z.of_nat j) else 0.
Proof.
have hse : (start_age e <= end_age e)%Z by lia.
have hd := diff_Z hse; rewrite U_closedE /P_at /next_state !eqn_Z.
have hi := ord_Z i; have hj := ord_Z j.
have -> : Z.of_nat j.+1 = (Z.of_nat j + 1)%Z by lia.
case: (Z.eqb_spec (Z.of_nat j + 1) (Z.of_nat (diff e))) => hl.

  by move: (Z.of_nat i) (Z.of_nat j) hi hj hl => a b *; Zcases.
rewrite Nat2Z.inj_succ.
by move: (Z.of_nat i) (Z.of_nat j) hi hj hl => a b *; Zcases.
Qed.

Lemma death_entry (j : 'I_(diff e)) :
  P_closed e (rshift (diff e) ord0) (lshift 1 j)
  = p_dead e (start_age e + Z.of_nat j).
Proof.
have hse : (start_age e <= end_age e)%Z by lia.
have hd := diff_Z hse; rewrite /P_closed /mx_of mxE /P_at /= addn0.
by have hj := ord_Z j; move: (Z.of_nat j) hj => b *; Zcases.
Qed.

Lemma sum_next (F : 'I_(diff e) -> R) (j : 'I_(diff e)) (v : R) :
  \sum_(i < diff e) (if (i == next_state (diff e) j :> nat) then v else 0) * F i
  = v * F (Ordinal (next_state_lt (ltn_ord j))).
Proof.
rewrite (bigD1 (Ordinal (next_state_lt (ltn_ord j)))) //= eqxx big1 ?addr0 //.
by move=> i; rewrite -val_eqE /= => /negbTE ->; rewrite mul0r.
Qed.

(** A solution of the chain's linear system for the rewards of total life
    satisfies the recursion of life expectancy. *)
Lemma mean_recursion (rho1 : 'cV[R]_(diff e)) (j : 'I_(diff e)) :
  (1%:M - ulsubmx (P_closed e))^T *m rho1
  = Z_proj (diff e)
    *m ((hadamard (P_closed e) (total_life_rewards (diff e)))^T
        *m col_ones (diff e + 1)) ->
  rho1 j ord0
  = (p_alive e (start_age e + Z.of_nat j)
     * (1 + rho1 (Ordinal (next_state_lt (ltn_ord j))) ord0)
     + p_dead e (start_age e + Z.of_nat j) / 2)%Re.
Proof.
rewrite raddfB /= trmx1 mulmxBl mul1mx.
have -> : (ulsubmx (P_closed e))^T *m rho1 = \col_k
    (p_alive e (start_age e + Z.of_nat k)
     * rho1 (Ordinal (next_state_lt (ltn_ord k))) ord0).
  apply/matrixP => k z; rewrite ord1 !mxE -(sum_next (fun i => rho1 i ord0)).
  by apply: eq_bigr => i _; rewrite mxE survival_entry.
move=> /matrixP /(_ j ord0); rewrite Z_proj_mul [RHS]mxE.
have -> : \sum_b (hadamard (P_closed e) (total_life_rewards (diff e)))^T
                   (lshift 1 j) b * col_ones (diff e + 1) b ord0
          = p_alive e (start_age e + Z.of_nat j)
            + p_dead e (start_age e + Z.of_nat j) * (1 / 2)%Re.
  rewrite big_split_ord /= big_ord1; congr (_ + _).
    rewrite -[RHS]mulr1 -(sum_next (fun=> 1) j); apply: eq_bigr => i _.
    by rewrite !mxE /= !ltn_ord !mulr1 -U_closedE survival_entry.
  by rewrite -death_entry !mxE /= ltn_ord addn0 ltnn mulr1.
rewrite !mxE.
move: (rho1 (Ordinal _) ord0) (rho1 _ ord0) (p_alive _ _) (p_dead _ _).
by move=> a b pa pd; to_real => h; lra.
Qed.

End TopAge90.

(** *** Prevalence lookups *)

Lemma mapM_Raise {A B} (f : A -> result B) (x : A) (s : seq A) (err : exn) :
  f x = Raise err -> mapM f (x :: s) = Raise err.
Proof. by move=> /= ->. Qed.

Lemma py_range_cons (a b : Z) :
  (a < b)%Z -> py_range a b = a :: py_range (a + 1) b.
Proof.
move=> hab; rewrite /py_range.
have -> : Z.to_nat (b - a) = (Z.to_nat (b - (a + 1))).+1 by lia.
rewrite [iota _ _]/= map_cons Z.add_0_r; congr cons.
rewrite (iotaDl 1 0) -map_comp; apply: eq_map => k.
by rewrite -[LHS]/(a + Z.of_nat (1 + k))%Z add1n Nat2Z.inj_succ; lia.
Qed.

Section MissingDecile.

Variable e : LongevityEstimator.
Hypothesis ages_in_order : (start_age e < end_age e)%Z.
Hypothesis decile_missing :
  dict_get colkey_eqb (disability_prevalence e)
           ("mergeid"%string, CInt (income_dcl e)) = None.

Lemma prevalence_KeyError (age : Z) : prevalence e age = Raise KeyError.
Proof.
rewrite /prevalence (py_range_cons ages_in_order).
by rewrite (@mapM_Raise _ _ _ _ _ KeyError) // decile_missing.
Qed.

Lemma generate_prevalence_matrix_KeyError :
  generate_prevalence_matrix e = Raise KeyError.
Proof.
rewrite /generate_prevalence_matrix (py_range_cons ages_in_order).
by rewrite (@mapM_Raise _ _ _ _ _ KeyError) // prevalence_KeyError.
Qed.

End MissingDecile.

(** X5: when the estimator's income decile is not a column of the
    prevalence table, [prevalence], [generate_prevalence_matrix] and
    [compute_lifetime_estimates] (for total life too) raise [KeyError]. *)
Theorem X5_missing_decile_raises_KeyError (e : LongevityEstimator) :
  (start_age e < end_age e)%Z ->
  dict_get colkey_eqb (disability_prevalence e)
           ("mergeid"%string, CInt (income_dcl e)) = None ->
  (forall age, prevalence e age = Raise KeyError) /\
  generate_prevalence_matrix e = Raise KeyError /\
  (forall healthy_life_only,
     compute_lifetime_estimates e healthy_life_only = Raise KeyError).
Proof.
move=> hlt hm; split; first by move=> age; apply: prevalence_KeyError.
have h := generate_prevalence_matrix_KeyError hlt hm.
by split=> // b; rewrite /compute_lifetime_estimates h.
Qed.

Lemma X5_missing_decile_raises_KeyError_witness :
  compute_lifetime_estimates estimator_decile_7 false = Raise KeyError.
Proof.
have hlt : (start_age estimator_decile_7 < end_age estimator_decile_7)%Z.
  by rewrite /=; lia.
by have [_ [_ h]] :=
  @X5_missing_decile_raises_KeyError estimator_decile_7 hlt (erefl _).
Defined.

Section PrevalenceIndex.

Variable e : LongevityEstimator.
Variable col : seq (cell * fl).
Hypothesis column_present :
  dict_get colkey_eqb (disability_prevalence e)
           ("mergeid"%string, CInt (income_dcl e)) = Some col.

(** [prevalence] is an index into the list of the modelled ages' ratios. *)
Lemma prevalence_getitem (age : Z) :
  prevalence e age
  = py_getitem NaN
      [seq prevalence_ratio col (start_age e + Z.of_nat k)
      | k <- iota 0 (diff e)]
      (age - start_age e).
Proof.
rewrite /prevalence /py_range -/(diff e).
rewrite (@mapM_iota _ _ _ _
          (fun j => prevalence_ratio col (start_age e + Z.of_nat j))) //.
by move=> j _; rewrite column_present.
Qed.

Lemma prevalence_out_of_range (age : Z) :
  (start_age e <= end_age e)%Z ->
  (end_age e <= age \/ age < start_age e - Z.of_nat (diff e))%Z ->
  prevalence e age = Raise IndexError.
Proof.
move=> hse hage; have hd := diff_Z hse.
rewrite prevalence_getitem /py_getitem size_map size_iota /py_index.
by Zbool; rewrite /=; Zbool => //; lia.
Qed.

Lemma prevalence_wraps (k : nat) :
  (0 < k <= diff e)%N ->
  prevalence e (start_age e - Z.of_nat k)
  = Ok (prevalence_ratio col (start_age e + Z.of_nat (diff e - k))).
Proof.
move=> /andP [/ltP h0 /leP hk].
rewrite prevalence_getitem /py_getitem size_map size_iota /py_index.
have -> : (0 <=? start_age e - Z.of_nat k - start_age e)%Z = false.
  by apply/Z.leb_gt; lia.
have -> : (- Z.of_nat (diff e) <=? start_age e - Z.of_nat k - start_age e)%Z.
  by apply/Z.leb_le; lia.
have -> : (start_age e - Z.of_nat k - start_age e <? 0)%Z by apply/Z.ltb_lt; lia.
rewrite /=.
have -> : Z.to_nat (start_age e - Z.of_nat k - start_age e + Z.of_nat (diff e))
          = (diff e - k)%N by rewrite -minusE; lia.
have hlt : (diff e - k < diff e)%N by apply/ltP; rewrite -minusE; lia.
by rewrite (nth_map 0%N) ?size_iota // nth_iota.
Qed.

End PrevalenceIndex.

(** X6: [prevalence(age)] indexes the list of the modelled ages' ratios by
    [age - start_age]: a modelled age gets its own ratio, an age from
    [end_age] up raises [IndexError], and an age below [start_age] wraps
    around, as a negative index does: it gets the ratio of the age [diff]
    years later, or an [IndexError] when it is more than [diff] years
    below. *)
Theorem X6_prevalence_indexing (e : LongevityEstimator)
  (col : seq (cell * fl)) :
  dict_get colkey_eqb (disability_prevalence e)
           ("mergeid"%string, CInt (income_dcl e)) = Some col ->
  (start_age e <= end_age e)%Z ->
  (forall age, (start_age e <= age < end_age e)%Z ->
     prevalence e age = Ok (prevalence_ratio col age)) /\
  (forall age, (end_age e <= age)%Z -> prevalence e age = Raise IndexError) /\
  (forall age, (start_age e - Z.of_nat (diff e) <= age < start_age e)%Z ->
     prevalence e age = Ok (prevalence_ratio col (age + Z.of_nat (diff e)))) /\
  (forall age, (age < start_age e - Z.of_nat (diff e))%Z ->
     prevalence e age = Raise IndexError).
Proof.
move=> hcol hse; have hd := diff_Z hse.
split=> [age hage|].
  rewrite (prevalence_getitem hcol) /py_getitem size_map size_iota.
  rewrite py_index_in; first by lia.
  have hlt : (Z.to_nat (age - start_age e) < diff e)%N by apply/ltP; lia.
  rewrite (nth_map 0%N) ?size_iota // nth_iota // add0n.
  by congr (Ok (prevalence_ratio _ _)); lia.
split=> [age hage|].
  exact: (prevalence_out_of_range hcol hse (or_introl hage)).
split=> [age hage|age hage]; last first.
  exact: (prevalence_out_of_range hcol hse (or_intror hage)).
have hk : (0 < Z.to_nat (start_age e - age) <= diff e)%N.
  by apply/andP; split; [apply/ltP | apply/leP]; lia.
have := prevalence_wraps hcol hk.
have -> : (start_age e - Z.of_nat (Z.to_nat (start_age e - age)))%Z = age.
  by lia.
move=> ->; congr (Ok (prevalence_ratio _ _)).
by rewrite -minusE; lia.
Qed.

Lemma X6_prevalence_indexing_witness :
  prevalence estimator_ratio_3 60 = Ok (Num 3) /\
  prevalence estimator_ratio_3 61 = Raise IndexError /\
  prevalence estimator_ratio_3 59 = Ok (Num 3).
Proof.
have hse : (start_age estimator_ratio_3 <= end_age estimator_ratio_3)%Z.
  by rewrite /=; lia.
have [h1 [h2 [h3 _]]] :=
  @X6_prevalence_indexing estimator_ratio_3 _ (erefl _) hse.
have r60 : prevalence_ratio [:: (CInt 60, Num 3)] 60 = Num 3.
  by rewrite /prevalence_ratio /= Req_bool_refl.
split; first by rewrite h1 ?r60 //=; lia.
split; first by rewrite h2 //=; lia.
by rewrite h3 /= ?r60 //; lia.
Defined.

Lemma cell_lt_int_below_88 (c : cell) :
  cell_lt_int c 88 = Ok true -> below_88 c.
Proof. by case: c => //= [z|x] [->]. Qed.

Lemma mapM_cons_Ok {A B} (f : A -> result B) (x : A) (s : seq A)
  (ys : seq B) :
  mapM f (x :: s) = Ok ys ->
  exists y ys', ys = y :: ys' /\ f x = Ok y /\ mapM f s = Ok ys'.
Proof.
rewrite /=; case: (f x) => //= y; case: (mapM f s) => //= ys' [<-].
by exists y, ys'.
Qed.

Lemma masked_young (aged : column) (young : seq bool) :
  mapM (fun c => cell_lt_int c 88) aged = Ok young ->
  forall (eqs : seq bool) (i m : column),
    all (fun r => below_88 (o_is_aged r))
        [seq r.2 | r <- zip [seq b.1 && b.2 | b <- zip eqs young]
                            (zip_obs aged i m) & r.1].
Proof.
elim: aged young => [|a aged IH] young.
  by move=> _ eqs i m /=; case: [seq b.1 && b.2 | b <- _].
move=> h; have [y [ys [-> [ha hs]]]] := mapM_cons_Ok h.
move=> [|q eqs] [|i0 i] [|m0 m] //=; try by case: [seq b.1 && b.2 | b <- _].
case: q => /=; last exact: IH.
case: y ha => /= ha; last exact: IH.
by rewrite (cell_lt_int_below_88 ha) /=; apply: IH.
Qed.

Lemma bind_Ok_inv {A B} (c : result A) (k : A -> result B) (b : B) :
  bind c k = Ok b -> exists a, c = Ok a /\ k a = Ok b.
Proof. by case: c => //= a h; exists a. Qed.

Lemma masked_rows_young (df : frame) (d : Z) (mask : seq bool)
  (rows : seq obs) :
  row_mask df d = Ok mask -> masked_rows df mask = Ok rows ->
  all (fun r => below_88 (o_is_aged r)) rows.
Proof.
rewrite /row_mask /masked_rows.
case: (getitem df "disabled") => [dis|] //=.
case: (getitem df "is_aged") => [aged|] //=.
case hy: (mapM _ aged) => [young|] //= [<-].
case: (getitem df "income_dcl") => [i|] //=.
case: (getitem df "mergeid") => [m|] //= [<-].
exact: masked_young.
Qed.

Lemma all_distinct (p : pred cell) (s : seq cell) :
  all p s -> all p (distinct s).
Proof.
elim: s => [|a s IH] //= /andP [-> /IH hs] /=.
by rewrite all_filter; apply: sub_all hs => x px /=; rewrite px implybT.
Qed.

Lemma pivot_index_young (rows : seq obs) :
  all (fun r => below_88 (o_is_aged r)) rows ->
  all below_88 (t_index (pivot_count rows)).
Proof.
move=> h; rewrite /pivot_count /=; apply: all_distinct.
rewrite all_map all_filter; apply: sub_all h => r hr /=.
by rewrite hr implybT.
Qed.

Lemma label_union_all (p : pred cell) (s t : seq cell) :
  all p s -> all p t -> all p (label_union s t).
Proof.
move=> hs ht; rewrite /label_union all_cat hs /= all_filter.
by apply: sub_all ht => x px /=; rewrite px implybT.
Qed.

Lemma dict_get_to_dict (t : table) (key : colkey) (col : seq (cell * fl)) :
  dict_get colkey_eqb (to_dict t) key = Some col ->
  exists c, col = [seq (a, t_val t a c) | a <- t_index t].
Proof.
rewrite /to_dict; elim: (t_columns t) => [|c cs IH] //=.
by case: colkey_eqb => // [[<-]]; exists c.
Qed.

Lemma dict_get_no_label (idx : seq cell) (v : cell -> fl) (k : cell) :
  all (fun a => ~~ cell_eqb a k) idx ->
  dict_get cell_eqb [seq (a, v a) | a <- idx] k = None.
Proof. by elim: idx => [|a idx IH] //= /andP [/negbTE -> /IH]. Qed.

Lemma below_88_not_age (a : cell) (age : Z) :
  below_88 a -> (88 <= age)%Z -> ~~ cell_eqb a (float_of_int age).
Proof.
have h88 : (88 <= age)%Z -> (88 <= IZR age)%Re by move/IZR_le.
case: a => //= [z /Z.ltb_lt hz|x /RltbP hx] /[dup] hage /h88 hr.
  by rewrite Req_bool_neq // => /eq_IZR; lia.
by rewrite Req_bool_neq //; lra.
Qed.

(** No age from 88 up is a key of the prevalence table. *)
Lemma prevalence_table_ages (df : frame) (t : prevalence_dict)
  (key : colkey) (col : seq (cell * fl)) (age : Z) :
  compute_disability_prevalence_by_age df = Ok t ->
  dict_get colkey_eqb t key = Some col -> (88 <= age)%Z ->
  dict_get cell_eqb col (float_of_int age) = None.
Proof.
rewrite /compute_disability_prevalence_by_age.
case h1: (row_mask df 1) => [sick_mask|] //=.
case h2: (masked_rows df sick_mask) => [sick|] //=.
case h3: (row_mask df 0) => [well_mask|] //=.
case h4: (masked_rows df well_mask) => [well|] //= [<-] hcol hage.
have [c ->] := dict_get_to_dict hcol.
apply: dict_get_no_label; rewrite /table_div /=.
have ys := pivot_index_young (masked_rows_young h1 h2).
have yw := pivot_index_young (masked_rows_young h3 h4).
apply: sub_all (label_union_all ys yw) => a ha.
exact: below_88_not_age.
Qed.

Lemma init_Ok (pipeline : frame -> Z -> Z -> Z -> R) (st st' : store)
  (df_ref panel_ref : nat) (g : string) (dcl : Z)
  (cf : option coefficients) (e : LongevityEstimator) :
  init pipeline st df_ref panel_ref g dcl cf = (st', Ok e) ->
  exists d ages lo hi,
    st' df_ref = Some d /\
    compute_disability_prevalence_by_age d = Ok (disability_prevalence e) /\
    frame_get d "age" = Some ages /\
    int_min ages = Ok lo /\ int_max ages = Ok hi /\
    start_age e = lo /\ end_age e = (hi + 1)%Z /\
    income_dcl e = dcl /\ coeffs e = cf /\ gender e = g.
Proof.
rewrite /init; case: (st panel_ref) => [panel|] //.
case: (bind _ _) => [age_2|] // [<-].
case hd: (store_set _ _ _ df_ref) => [d|] //=.
case hp: (compute_disability_prevalence_by_age d) => [t|] //=.
rewrite /getattr; case ha: (frame_get d "age") => [ages|] //=.
case hlo: (int_min ages) => [lo|] //=.
case hhi: (int_max ages) => [hi|] //=.
case: (frame_get d "income_dcl") => [c|] //= [<-] /=.
by exists d, ages, lo, hi.
Qed.

Lemma Int_part_le (x y : R) : (x <= y)%Re -> (Int_part x <= Int_part y)%Z.
Proof.
move=> hxy; have [hx _] := base_Int_part x; have [_ hy] := base_Int_part y.
have : (IZR (Int_part x) < IZR (Int_part y + 1))%Re by rewrite plus_IZR; lra.
by move/lt_IZR; lia.
Qed.

Lemma Int_part_nonneg (x : R) : (0 <= x)%Re -> (0 <= Int_part x)%Z.
Proof.
move=> hx; have := Int_part_le hx.
by rewrite -[0%Re]/(IZR 0) (_ : Int_part (IZR 0) = 0%Z) //; symmetry;
   apply: Int_part_spec; rewrite /=; lra.
Qed.

(** [int] is monotone. *)
Lemma py_int_le (x y : R) : (x <= y)%Re -> (py_int x <= py_int y)%Z.
Proof.
move=> hxy; rewrite /py_int; case: RlebP => hx; case: RlebP => hy.
- exact: Int_part_le.
- by lra.
- have := @Int_part_nonneg (- x)%Re; have := Int_part_nonneg hy.
  by move=> h1 h2; have := h2 ltac:(lra); lia.
- by have := @Int_part_le (- y)%Re (- x)%Re ltac:(lra); lia.
Qed.

Lemma foldr_Rmin_le (x : R) (s : seq R) : (foldr Rmin x s <= x)%Re.
Proof.
elim: s => [|y s IH] /=; first by lra.
by have := Rmin_r y (foldr Rmin x s); lra.
Qed.

Lemma foldr_Rmax_ge (x : R) (s : seq R) : (x <= foldr Rmax x s)%Re.
Proof.
elim: s => [|y s IH] /=; first by lra.
by have := Rmax_r y (foldr Rmax x s); lra.
Qed.

Lemma int_min_max (c : column) (lo hi : Z) :
  int_min c = Ok lo -> int_max c = Ok hi -> (lo <= hi)%Z.
Proof.
rewrite /int_min /int_max; case: (numeric c) => [[|x s]|] //= [<-] [<-].
apply: py_int_le.
by have := foldr_Rmin_le x s; have := foldr_Rmax_ge x s; lra.
Qed.

(** X7: both pivot tables keep only the rows with [is_aged < 88], so no age
    from 88 up is a key of the table: for an estimator the constructor
    built, the prevalence of every modelled age from 88 up is the default
    0. *)
Theorem X7_no_prevalence_from_88 (pipeline : frame -> Z -> Z -> Z -> R)
  (st st' : store) (df_ref panel_ref : nat) (g : string) (dcl : Z)
  (cf : option coefficients) (e : LongevityEstimator)
  (col : seq (cell * fl)) (age : Z) :
  init pipeline st df_ref panel_ref g dcl cf = (st', Ok e) ->
  dict_get colkey_eqb (disability_prevalence e)
           ("mergeid"%string, CInt (income_dcl e)) = Some col ->
  (start_age e <= age < end_age e)%Z -> (88 <= age)%Z ->
  prevalence e age = Ok (Num 0).
Proof.
move=> /init_Ok [d [ages [lo [hi [_ [ht _]]]]]] hcol hin h88.
rewrite (prevalence_getitem hcol) /py_getitem size_map size_iota.
have hse : (start_age e <= end_age e)%Z by lia.
have hd := diff_Z hse.
rewrite py_index_in; first by lia.
have hlt : (Z.to_nat (age - start_age e) < diff e)%N by apply/ltP; lia.
rewrite (nth_map 0%N) ?size_iota // nth_iota // add0n /prevalence_ratio.
have -> : (start_age e + Z.of_nat (Z.to_nat (age - start_age e)))%Z = age.
  by lia.
by rewrite (prevalence_table_ages ht hcol h88).
Qed.

Lemma init_87_88 :
  exists st e,
    init no_pipeline store_87_88 0 1 "male" 0 None = (st, Ok e) /\
    dict_get colkey_eqb (disability_prevalence e)
             ("mergeid"%string, CInt (income_dcl e))
    = Some [:: (CInt 87, Num (1 / 1)%Re)] /\
    start_age e = 87%Z /\ end_age e = 89%Z.
Proof.
have hmin : Rmin (IZR 87) (Rmin (IZR 88) (IZR 87)) = IZR 87.
  by rewrite (Rmin_right (IZR 88) (IZR 87)) ?Rmin_left //; lra.
have hmax : Rmax (IZR 87) (Rmax (IZR 88) (IZR 87)) = IZR 88.
  by rewrite (Rmax_left (IZR 88) (IZR 87)) ?Rmax_right //; lra.
eexists; eexists; split.
  rewrite /init /= /int_min /int_max /= hmin hmax !py_int_IZR /=.
  by reflexivity.
split; last by [].
by rewrite /= /aligned /= /fl_div Req_bool_neq //; lra.
Qed.

Lemma X7_no_prevalence_from_88_witness :
  exists st e,
    init no_pipeline store_87_88 0 1 "male" 0 None = (st, Ok e) /\
    prevalence e 88 = Ok (Num 0).
Proof.
have [st [e [hinit [hcol [hs he]]]]] := init_87_88.
exists st, e; split=> //.
by apply: (X7_no_prevalence_from_88 hinit hcol); rewrite ?hs ?he; lia.
Defined.

(** X8: an estimator the constructor returns has [start_age < end_age]
    (since [end_age] is the largest integer age plus one), so [diff] is at
    least 1; and when coefficients were supplied, so that no pipeline is
    fitted, [compute_UP] succeeds on it: every index it writes at is within
    the matrix. *)
Theorem X8_constructor_orders_ages (pipeline : frame -> Z -> Z -> Z -> R)
  (st st' : store) (df_ref panel_ref : nat) (g : string) (dcl : Z)
  (cf : option coefficients) (e : LongevityEstimator) :
  init pipeline st df_ref panel_ref g dcl cf = (st', Ok e) ->
  (start_age e < end_age e)%Z /\ (0 < diff e)%N /\
  coeffs e = cf /\
  (cf <> None -> exists U P, compute_UP e = Ok (U, P)).
Proof.
move=> hinit.
have hc : coeffs e = cf.
  move: hinit; rewrite /init; case: (st panel_ref) => [panel|] //.
  case: (bind _ _) => [age_2|err] // [_].
  case: (of_option _ _) => [d|] //=.
  case: (compute_disability_prevalence_by_age d) => [pr|] //=.
  case: (getattr d "age") => [ages|] //=.
  case: (int_min ages) => [lo|] //=; case: (int_max ages) => [hi|] //=.
  by case: (getattr d "income_dcl") => [dcl'|] //= [<-].
move: hinit => /init_Ok [d [ages [lo [hi [_ [_ [_ [hlo [hhi [hs [he _]]]]]]]]]]].
have hle := int_min_max hlo hhi.
have hlt : (start_age e < end_age e)%Z by lia.
split=> //; split; first by apply/ltP; rewrite /diff; lia.
split=> // _.
exists (ulsubmx (P_closed e)), (P_closed e).
by apply: compute_UP_closed; lia.
Qed.

Lemma X8_constructor_orders_ages_witness :
  exists st e,
    init no_pipeline store_87_88 0 1 "male" 0 (Some zero_coeffs)
    = (st, Ok e) /\
    (start_age e < end_age e)%Z /\
    exists U P, compute_UP e = Ok (U, P).
Proof.
have hmin : Rmin (IZR 87) (Rmin (IZR 88) (IZR 87)) = IZR 87.
  by rewrite (Rmin_right (IZR 88) (IZR 87)) ?Rmin_left //; lra.
have hmax : Rmax (IZR 87) (Rmax (IZR 88) (IZR 87)) = IZR 88.
  by rewrite (Rmax_left (IZR 88) (IZR 87)) ?Rmax_right //; lra.
have [st [e hinit]] : exists st e,
    init no_pipeline store_87_88 0 1 "male" 0 (Some zero_coeffs) = (st, Ok e).
  eexists; eexists.
  rewrite /init /= /int_min /int_max /= hmin hmax !py_int_IZR /=.
  by reflexivity.
have [hlt [_ [_ hUP]]] := X8_constructor_orders_ages hinit.
by exists st, e; split=> //; split=> //; apply: hUP.
Defined.

(** X9: how the constructor fails. Without a column [age] in the panel it
    raises [AttributeError] and changes nothing. Later failures come after
    the panel has been given its column [age_2], which stays: [KeyError]
    when [df] has no column [disabled], [AttributeError] when [df] has no
    column [age], [ValueError] when that column holds no number. *)
Theorem X9_constructor_failures (pipeline : frame -> Z -> Z -> Z -> R)
  (st : store) (df_ref panel_ref : nat) (g : string) (dcl : Z)
  (cf : option coefficients) (panel : frame) :
  st panel_ref = Some panel ->
  (frame_get panel "age" = None ->
   init pipeline st df_ref panel_ref g dcl cf = (st, Raise AttributeError)) /\
  (forall ages squares d,
     frame_get panel "age" = Some ages ->
     mapM cell_square ages = Ok squares ->
     df_ref <> panel_ref -> st df_ref = Some d ->
     let st' := store_set st panel_ref (frame_set panel "age_2" squares) in
     (frame_get d "disabled" = None ->
      init pipeline st df_ref panel_ref g dcl cf = (st', Raise KeyError)) /\
     (forall t, compute_disability_prevalence_by_age d = Ok t ->
        (frame_get d "age" = None ->
         init pipeline st df_ref panel_ref g dcl cf
         = (st', Raise AttributeError)) /\
        (forall c, frame_get d "age" = Some c -> all is_null c ->
         init pipeline st df_ref panel_ref g dcl cf
         = (st', Raise ValueError)))).
Proof.
move=> hp; split=> [ha|ages squares d ha hs hne hd st'].
  by rewrite /init hp /getattr ha.
have hd' : st' df_ref = Some d.
  by rewrite /st' /store_set; case: eqP.
split=> [hdis|t ht].
  rewrite /init hp /getattr ha /= hs /= -/st' hd' /=.
  by rewrite /compute_disability_prevalence_by_age /row_mask /getitem hdis.
split=> [hage|c hage hnull].
  by rewrite /init hp /getattr ha /= hs /= -/st' hd' /= ht /= hage.
rewrite /init hp /getattr ha /= hs /= -/st' hd' /= ht /= hage /=.
have -> : int_min c = Raise ValueError.
  rewrite /int_min; have -> // : numeric c = Ok [::].
  by elim: c hnull {hage} => [|[] c IH] //=.
by [].
Qed.

Lemma X9_constructor_failures_witness :
  init no_pipeline store_without_disability 0 1 "male" 0 None
  = (store_set store_without_disability 1
       (frame_set panel_60_61 "age_2" [:: CInt 3600; CInt 3721]),
     Raise KeyError).
Proof.
have [_ h] :=
  @X9_constructor_failures no_pipeline store_without_disability 0 1 "male" 0
    None panel_60_61 (erefl _).
have [hk _] := h [:: CInt 60; CInt 61] [:: CInt 3600; CInt 3721] panel_60_61
                 (erefl _) (erefl _) ltac:(by []) (erefl _).
exact: hk.
Defined.

(** ** Properties of the data preparation *)

Lemma frame_get_filter (mask : seq bool) (f : frame) (k : string) :
  frame_get (frame_filter mask f) k
  = omap (mask_column mask) (frame_get f k).
Proof. by elim: f => [|[k' c] f IH] //=; case: String.eqb. Qed.

Lemma mask_column_map (p : cell -> bool) (c : column) :
  mask_column [seq p x | x <- c] c = [seq x <- c | p x].
Proof.
by rewrite /mask_column; elim: c => [|x c IH] //=; case: (p x); rewrite /= IH.
Qed.

Lemma mapM_map {A B} (f : A -> result B) (g : A -> B) (p : pred A)
  (s : seq A) :
  (forall x, p x -> f x = Ok (g x)) -> all p s ->
  mapM f s = Ok [seq g x | x <- s].
Proof.
by move=> h; elim: s => [|x s IH] //= /andP [/h -> /IH ->].
Qed.

Lemma mask_column_nil (mask : seq bool) : mask_column mask [::] = [::].
Proof. by rewrite /mask_column; case: mask. Qed.

Lemma mask_column_cons (b : bool) (mask : seq bool) (y : cell) (c : column) :
  mask_column (b :: mask) (y :: c)
  = if b then y :: mask_column mask c else mask_column mask c.
Proof. by rewrite /mask_column /=; case: b. Qed.

(** Filtering twice is filtering once with both conditions. *)
Lemma mask_column_twice (p q : cell -> bool) (a c : column) :
  mask_column [seq p x | x <- [seq x <- a | q x]]
              (mask_column [seq q x | x <- a] c)
  = mask_column [seq q x && p x | x <- a] c.
Proof.
elim: a c => [|x a IH] [|y c] //; first by rewrite !mask_column_nil.
rewrite [filter _ _]/= !map_cons !mask_column_cons.
case: (q x); last by rewrite /= IH.
by rewrite map_cons mask_column_cons /= IH; case: (p x).
Qed.

Lemma frame_filter_twice (p q : cell -> bool) (a : column) (f : frame) :
  frame_filter [seq p x | x <- [seq x <- a | q x]]
               (frame_filter [seq q x | x <- a] f)
  = frame_filter [seq q x && p x | x <- a] f.
Proof.
rewrite /frame_filter -map_comp; apply: eq_map => -[k c] /=.
by rewrite mask_column_twice.
Qed.

Lemma frame_filter_ext (m1 m2 : seq bool) (f : frame) :
  m1 = m2 -> frame_filter m1 f = frame_filter m2 f.
Proof. by move=> ->. Qed.

Section ProcessAge.

Variables (start_age end_age : Z).

Let numeric_age (c : cell) : bool :=
  match c with CInt _ | CFloat _ => true | _ => false end.

Let geb (c : cell) : bool :=
  match c with
  | CInt z => (start_age <=? z)%Z
  | CFloat x => Rleb (IZR start_age) x
  | _ => false
  end.

Let leb (c : cell) : bool :=
  match c with
  | CInt z => (z <=? end_age)%Z
  | CFloat x => Rleb x (IZR end_age)
  | _ => false
  end.

Lemma process_age_rows (df : frame) (age : column) :
  frame_get df "age" = Some age -> all age_cell age ->
  process_age df start_age end_age
  = Ok (frame_filter (kept_ages start_age end_age age)
          (frame_set df "age" [seq convert_age c | c <- age])).
Proof.
move=> hage hcells; rewrite /process_age /getitem hage /=.
set df1 := frame_set df "age" _; set age1 := map convert_age age.
have h1 : frame_get df1 "age" = Some age1 by apply: frame_get_set_same.
rewrite h1 /= frame_get_filter h1 /= mask_column_map.
set age2 := filter _ age1.
have num2 : all numeric_age age2.
  rewrite /age2 /age1 all_filter all_map; apply: sub_all hcells => c.
  by case: c => //= s; rewrite /convert_age /= => ->.
have lt_ok c : numeric_age c ->
    cell_lt_int c start_age
    = Ok (if c is CInt z then (z <? start_age)%Z
          else if c is CFloat x then Rltb x (IZR start_age) else false).
  by case: c.
have ge_ok c : numeric_age c -> cell_ge_int c start_age = Ok (geb c).
  by case: c.
have gt_ok c : numeric_age c ->
    cell_gt_int c end_age
    = Ok (if c is CInt z then (end_age <? z)%Z
          else if c is CFloat x then Rltb (IZR end_age) x else false).
  by case: c.
have le_ok c : numeric_age c -> cell_le_int c end_age = Ok (leb c).
  by case: c.
rewrite (mapM_map lt_ok num2) bind_Ok (mapM_map ge_ok num2) bind_Ok.
rewrite frame_get_filter frame_get_filter h1 /= !mask_column_map -/age2.
set age3 := filter geb age2.
have num3 : all numeric_age age3.
  by rewrite all_filter; apply: sub_all num2 => c hc /=; rewrite hc implybT.
rewrite (mapM_map gt_ok num3) bind_Ok (mapM_map le_ok num3) bind_Ok.
congr Ok.
rewrite /age3 /age2 !frame_filter_twice; apply: frame_filter_ext.
rewrite /kept_ages /age1 -map_comp; apply: eq_map => c /=.
case: c => //= s.
by rewrite /convert_age /=; case: String.eqb.
Qed.

End ProcessAge.

Lemma kept_ages_column (start_age end_age : Z) (age : column) :
  all age_cell age ->
  mask_column (kept_ages start_age end_age age) [seq convert_age c | c <- age]
  = [seq c <- age | age_between start_age end_age c].
Proof.
rewrite /kept_ages; elim: age => [|c age IH] //= /andP [hc /IH {}IH].
rewrite mask_column_cons IH.
by case: c hc => //= s; rewrite /convert_age /= => ->.
Qed.

(** X16: on a frame whose column [age] holds numbers, nulls and the code
    of a missing age, [process_age] succeeds and keeps exactly the rows
    whose age is a number between [start_age] and [end_age], bounds
    included, in their order and in every column; no column is added or
    removed. *)
Theorem X16_process_age_keeps_ages_in_range (df : frame) (age : column)
  (start_age end_age : Z) :
  frame_get df "age" = Some age -> all age_cell age ->
  exists df',
    process_age df start_age end_age = Ok df' /\
    frame_get df' "age"
    = Some [seq c <- age | age_between start_age end_age c] /\
    (forall k col, k <> "age"%string -> frame_get df k = Some col ->
       frame_get df' k
       = Some (mask_column (kept_ages start_age end_age age) col)) /\
    [seq kc.1 | kc <- df'] = [seq kc.1 | kc <- df].
Proof.
move=> hage hcells; rewrite (process_age_rows _ _ hage hcells).
eexists; split; first by [].
split.
  by rewrite frame_get_filter frame_get_set_same /= kept_ages_column.
split=> [k col hk hcol|].
  by rewrite frame_get_filter frame_get_set_other // hcol.
rewrite /frame_filter -map_comp.
rewrite (@eq_map _ _ _ fst) // frame_set_names hage.
by [].
Qed.

Lemma X16_process_age_keeps_ages_in_range_witness :
  exists df',
    process_age ages_with_missing_code 65 90 = Ok df' /\
    frame_get df' "age" = Some [:: CInt 70] /\
    frame_get df' "mergeid" = Some [:: CStr "c"].
Proof.
have [df' [h1 [h2 [h3 _]]]] :=
  @X16_process_age_keeps_ages_in_range ages_with_missing_code _ 65 90
    (erefl _) (erefl _).
exists df'; split=> //; split.
  rewrite h2 /=.
  have -> : Rleb 65 64.5 = false by apply/RlebP; lra.
  have -> : Rleb 90.5 90 = false by apply/RlebP; lra.
  by rewrite andbF.
have hne : "mergeid"%string <> "age"%string by [].
rewrite (h3 "mergeid"%string _ hne (erefl _)) /kept_ages /=.
have -> : Rleb 65 64.5 = false by apply/RlebP; lra.
have -> : Rleb 90.5 90 = false by apply/RlebP; lra.
by rewrite andbF.
Defined.

Lemma foldr_Rmin_in (P : R -> Prop) (x : R) (s : seq R) :
  P x -> (forall z, List.In z s -> P z) -> P (foldr Rmin x s).
Proof.
move=> hx; elim: s => [|y s IH] //= h.
rewrite /Rmin; case: Rle_dec => _; first by apply: h; left.
by apply: IH => z hz; apply: h; right.
Qed.

Lemma foldr_Rmax_in (P : R -> Prop) (x : R) (s : seq R) :
  P x -> (forall z, List.In z s -> P z) -> P (foldr Rmax x s).
Proof.
move=> hx; elim: s => [|y s IH] //= h.
rewrite /Rmax; case: Rle_dec => _; last by apply: h; left.
by apply: IH => z hz; apply: h; right.
Qed.

Lemma numeric_between (lo hi : Z) (c : column) (xs : seq R) :
  all (age_between lo hi) c -> numeric c = Ok xs ->
  forall z, List.In z xs -> (IZR lo <= z <= IZR hi)%Re.
Proof.
elim: c xs => [|a c IH] xs /=; first by move=> _ [<-].
case: a => //= [v|x] /andP [/andP [h1 h2] hc];
  case hn: (numeric c) => [ys|] //= [<-] z [<-|hz];
  try exact: (IH _ hc hn).
- by move/Z.leb_le/IZR_le: h1; move/Z.leb_le/IZR_le: h2; lra.
- by move/RlebP: h1; move/RlebP: h2; lra.
Qed.

(** X17: the ages an estimator models lie within the data: when every age
    of [df] is a number between the integers [lo] and [hi], the constructed
    estimator has [lo <= start_age] and [end_age <= hi + 1]. Such is the
    frame [process_age(lo, hi)] leaves. *)
Theorem X17_estimator_ages_within_data (pipeline : frame -> Z -> Z -> Z -> R)
  (st st' : store) (df_ref panel_ref : nat) (g : string) (dcl : Z)
  (cf : option coefficients) (e : LongevityEstimator)
  (d : frame) (ages : column) (lo hi : Z) :
  init pipeline st df_ref panel_ref g dcl cf = (st', Ok e) ->
  st' df_ref = Some d -> frame_get d "age" = Some ages ->
  all (age_between lo hi) ages ->
  (lo <= start_age e)%Z /\ (end_age e <= hi + 1)%Z.
Proof.
move=> /init_Ok [d' [ages' [a [b [hd [_ [ha [hlo [hhi [-> [-> _]]]]]]]]]]].
rewrite hd => -[<-]; rewrite ha => -[<-] hall.
move: hlo hhi; rewrite /int_min /int_max.
case hn: (numeric ages') => [[|x xs]|] //= [<-] [<-].
have hin := numeric_between hall hn.
have hx := hin x (or_introl (erefl _)).
have hxs z : List.In z xs -> (IZR lo <= z <= IZR hi)%Re.
  by move=> hz; apply: hin; right.
have [h1 _] := foldr_Rmin_in (P := fun z => (IZR lo <= z <= IZR hi)%Re) hx hxs.
have [_ h2] := foldr_Rmax_in (P := fun z => (IZR lo <= z <= IZR hi)%Re) hx hxs.
have := py_int_le h1; have := py_int_le h2; rewrite !py_int_IZR.
by lia.
Qed.

Lemma init_87_88_store :
  exists st e,
    init no_pipeline store_87_88 0 1 "male" 0 None = (st, Ok e) /\
    st 0%N = Some observations_87_88.
Proof.
have hmin : Rmin (IZR 87) (Rmin (IZR 88) (IZR 87)) = IZR 87.
  by rewrite (Rmin_right (IZR 88) (IZR 87)) ?Rmin_left //; lra.
have hmax : Rmax (IZR 87) (Rmax (IZR 88) (IZR 87)) = IZR 88.
  by rewrite (Rmax_left (IZR 88) (IZR 87)) ?Rmax_right //; lra.
eexists; eexists; split.
  rewrite /init /= /int_min /int_max /= hmin hmax !py_int_IZR /=.
  by reflexivity.
by [].
Qed.

Lemma X17_estimator_ages_within_data_witness :
  exists st e,
    init no_pipeline store_87_88 0 1 "male" 0 None = (st, Ok e) /\
    (87 <= start_age e)%Z /\ (end_age e <= 88 + 1)%Z.
Proof.
have [st [e [hinit hst]]] := init_87_88_store.
exists st, e; split=> //.
exact: (@X17_estimator_ages_within_data _ _ _ _ _ _ _ _ _ _ _ 87 88 hinit hst
          (erefl _) (erefl _)).
Defined.

(** *** The panel of one person *)

Lemma cell_eqb_value (c1 c2 : cell) (v1 v2 : R) :
  cell_value c1 = Some v1 -> cell_value c2 = Some v2 ->
  cell_eqb c1 c2 = Req_bool v1 v2.
Proof.
case: c1 => //= [z1|x1] [<-]; case: c2 => //= [z2|x2] [<-] //.
case: Z.eqb_spec => [->|hne]; first by rewrite Req_bool_refl.
by rewrite Req_bool_neq // => /eq_IZR.
Qed.

Lemma cell_add_value (c : cell) (k : Z) (v : R) :
  cell_value c = Some v ->
  exists c', cell_add c k = Ok c' /\ cell_value c' = Some (v + IZR k)%Re.
Proof.
case: c => //= [z|x] [<-]; eexists; split=> //=.
by rewrite plus_IZR.
Qed.

Lemma panel_step_before_last (tot i : nat) (row : panel_row) :
  (i + 1 < tot)%N -> panel_step tot i row = Ok [:: row].
Proof.
move=> /ltP hi; rewrite /panel_step.
have -> // : (Z.of_nat i <? Z.of_nat tot - 1)%Z.
by apply/Z.ltb_lt; move: hi; rewrite -plusE; lia.
Qed.

Lemma panel_steps_before_last (tot : nat) (h : seq panel_row)
  (last : panel_row) (off : nat) :
  (off + size h + 1 = tot)%N ->
  mapM (fun ir => panel_step tot ir.1 ir.2)
       (zip (iota off (size h + 1)) (rcons h last))
  = let* tail := panel_step tot (tot - 1) last in
    Ok (rcons [seq [:: r] | r <- h] tail).
Proof.
elim: h off => [|r h IH] off hsz.
  have -> : (tot - 1)%N = off by move: hsz; rewrite /= -!plusE -minusE; lia.
  by rewrite /=; case: (panel_step tot off last).
have hlt : (off + 1 < tot)%N.
  by apply/ltP; move: hsz; rewrite /= -!plusE; lia.
rewrite [size _]/= addSn [iota _ _]/= rcons_cons [zip _ _]/= [mapM _ _]/=.
rewrite (panel_step_before_last _ hlt) bind_Ok IH.
  by move: hsz; rewrite /= -!plusE; lia.
by case: (panel_step tot (tot - 1) last).
Qed.

Lemma panel_rows_rcons (h : seq panel_row) (last : panel_row) :
  panel_rows (rcons h last)
  = let* tail := panel_step (size h + 1) (size h) (with_y_0 last) in
    Ok ([seq with_y_0 r | r <- h] ++ tail).
Proof.
rewrite /panel_rows map_rcons size_rcons -addn1.
have hs : size [seq with_y_0 r | r <- h] = size h by rewrite size_map.
rewrite -{1 2}hs panel_steps_before_last ?hs ?add0n //.
rewrite addn1 subn1 /=.
case: (panel_step _ _ _) => //= tail.
rewrite -cats1 flatten_cat /= cats0; congr (Ok (_ ++ _)).
by elim: (h) => [|r s IH] //=; rewrite IH.
Qed.

Lemma last_step_not_before (n : nat) :
  (Z.of_nat n <? Z.of_nat (n + 1) - 1)%Z = false.
Proof. by apply/Z.ltb_ge; rewrite -plusE; lia. Qed.

(** X18: for a person whose last row has [is_dead] 0, the loop of
    [create_panel_dataset] appends the person's rows as they are, with [y]
    0 in each. *)
Theorem X18_panel_of_a_survivor (h : seq panel_row) (last : panel_row) :
  cell_eqb (r_is_dead last) (CInt 0) ->
  panel_rows (rcons h last) = Ok [seq with_y_0 r | r <- rcons h last].
Proof.
move=> alive; rewrite panel_rows_rcons /panel_step /= alive orbT /=.
by rewrite map_rcons cats1.
Qed.

Section PanelOfTheDead.

Variables (h : seq panel_row) (last : panel_row) (a d : R).
Hypothesis dead : cell_eqb (r_is_dead last) (CInt 0) = false.
Hypothesis age_known : cell_value (r_age_int last) = Some a.
Hypothesis death_known : cell_value (r_deceased_age last) = Some d.

Lemma death_row_of_last :
  exists row,
    death_row (with_y_0 last) = Ok row /\ r_y row = CInt 1 /\
    cell_value (r_age_int row) = Some (d - 1)%Re /\
    cell_value (r_age row) = Some (d - 1)%Re.
Proof.
have [c [hc hv]] := cell_add_value (-1) death_known.
rewrite /death_row /= hc /=; eexists; split; first by [].
by rewrite /= hv; do 2![split=> //]; congr Some; rewrite /=; lra.
Qed.

Lemma panel_rows_of_the_dead :
  exists row,
    death_row (with_y_0 last) = Ok row /\
    panel_rows (rcons h last)
    = Ok ([seq with_y_0 r | r <- h]
          ++ if Req_bool d (a + 1)%Re then
               [:: PanelRow (r_age last) (r_age_int last) (r_is_dead last)
                     (r_deceased_age last) (CInt 1) (r_others last)]
             else if Req_bool d a then [:: row]
             else [:: with_y_0 last; row]).
Proof.
have [row [hrow _]] := death_row_of_last; exists row; split=> //.
rewrite panel_rows_rcons /panel_step last_step_not_before /= dead /=.
have [c [-> hv]] := cell_add_value 1 age_known.
rewrite bind_Ok (cell_eqb_value death_known hv) (cell_eqb_value death_known age_known).
by rewrite hrow /=; case: Req_bool => //; case: Req_bool.
Qed.

End PanelOfTheDead.

(** X19: for a person whose last row has [is_dead] other than 0, an
    integer age [a] and an age at death [d], the loop of
    [create_panel_dataset] appends the rows before the last unchanged and
    with [y] 0, and ends with exactly one row with [y] 1, whose [age_int]
    is [d - 1]. The last interview is kept as a row of its own, with [y]
    0, unless [d] is [a] or [a + 1]. *)
Theorem X19_panel_of_the_dead (h : seq panel_row) (last : panel_row)
  (a d : R) :
  cell_eqb (r_is_dead last) (CInt 0) = false ->
  cell_value (r_age_int last) = Some a ->
  cell_value (r_deceased_age last) = Some d ->
  exists rows final,
    panel_rows (rcons h last) = Ok (rcons rows final) /\
    r_y final = CInt 1 /\
    cell_value (r_age_int final) = Some (d - 1)%Re /\
    all (fun r => cell_eqb (r_y r) (CInt 0)) rows /\
    take (size h) rows = [seq with_y_0 r | r <- h] /\
    size rows
    = (size h + (if Req_bool d (a + 1)%Re || Req_bool d a then 0 else 1))%N.
Proof.
move=> dead ha hd.
have [row [hrow ->]] := panel_rows_of_the_dead h dead ha hd.
have [row' [hrow' [hy [hv _]]]] := death_row_of_last hd.
move: hrow; rewrite hrow' => -[<-] {row}.
have y0 : all (fun r => cell_eqb (r_y r) (CInt 0)) [seq with_y_0 r | r <- h].
  by rewrite all_map; elim: (h) => [|r s IH].
have tk : take (size h) [seq with_y_0 r | r <- h] = [seq with_y_0 r | r <- h].
  by rewrite take_oversize // size_map.
case: Req_boolP => [hda|_] /=.
  eexists; eexists; rewrite cats1; split; first by [].
  rewrite /= ha tk size_map addn0; do 2![split=> //].
  by congr Some; lra.
case: Req_boolP => [hda|_] /=.
  eexists; eexists; rewrite cats1; split; first by [].
  by rewrite tk size_map addn0.
exists (rcons [seq with_y_0 r | r <- h] (with_y_0 last)), row'.
rewrite -!cats1 -catA /=; split=> //; do 2![split=> //].
rewrite all_cat y0 /= size_cat size_map /=; split=> //; split=> //.
by rewrite take_cat size_map ltnn subnn take0 cats0.
Qed.

Lemma X19_panel_of_the_dead_witness :
  exists rows final,
    panel_rows [:: interview_at_70; last_interview_dead]
    = Ok (rcons rows final) /\
    r_y final = CInt 1 /\
    cell_value (r_age_int final) = Some (75 - 1)%Re.
Proof.
have [rows [final [h1 [h2 [h3 _]]]]] :=
  @X19_panel_of_the_dead [:: interview_at_70] last_interview_dead 72 75
    (erefl _) (erefl _) (erefl _).
by exists rows, final.
Defined.

Lemma X18_panel_of_a_survivor_witness :
  panel_rows [:: interview_at_70; last_interview_alive]
  = Ok [:: with_y_0 interview_at_70; with_y_0 last_interview_alive].
Proof.
exact: (@X18_panel_of_a_survivor [:: interview_at_70] last_interview_alive
          (erefl _)).
Defined.

(** *** Gender *)

(** The string [process_gender] writes for a respondent. *)
Lemma convert_female_cases (c : cell) :
  convert_female c = CStr "male" \/ convert_female c = CStr "female".
Proof. by rewrite /convert_female; case: cell_eqb; [left | right]. Qed.

(** X20: [process_gender] writes ['male'] or ['female'] in the column
    [gender], and in [gender_num] the number the estimator uses for that
    gender in [compute_UP]: the model is fitted and queried with the same
    encoding. *)
Theorem X20_gender_encoding_agrees (df : frame) (female : column) :
  frame_get df "female" = Some female ->
  exists df' genders numbers,
    process_gender df = Ok df' /\
    frame_get df' "gender" = Some genders /\
    frame_get df' "gender_num" = Some numbers /\
    size genders = size female /\ size numbers = size female /\
    forall k, (k < size female)%N ->
      (nth CNull genders k = CStr "male"
       \/ nth CNull genders k = CStr "female") /\
      forall e : LongevityEstimator,
        nth CNull genders k = CStr (gender e) ->
        nth CNull numbers k = CInt (gender_num e).
Proof.
move=> hf; rewrite /process_gender /getitem hf /= frame_get_set_same /=.
set genders := [seq convert_female c | c <- female].
set numbers := map _ genders.
do 3!eexists; split; first by [].
split; first by rewrite frame_get_set_other // frame_get_set_same.
split; first by rewrite frame_get_set_same.
rewrite !size_map; do 2![split=> //]; move=> k hk.
have hg : nth CNull genders k = convert_female (nth CNull female k).
  by rewrite (nth_map CNull).
split; first by rewrite hg; apply: convert_female_cases.
move=> e he; rewrite /numbers (nth_map CNull) ?size_map // he /gender_num /=.
by [].
Qed.

Lemma X20_gender_encoding_agrees_witness :
  exists df' numbers,
    process_gender two_respondents = Ok df' /\
    frame_get df' "gender_num" = Some numbers /\
    nth CNull numbers 1 = CInt (gender_num estimator_female).
Proof.
have [df' [genders [numbers [h1 [h2 [h3 [_ [_ h]]]]]]]] :=
  @X20_gender_encoding_agrees two_respondents _ (erefl _).
exists df', numbers; split=> //; split=> //.
have [_ he] := h 1%N isT; apply: he.
by move: h2; rewrite /process_gender /= in h1; case: h1 => <- /= [<-].
Defined.

(** *** Ages at death *)

Lemma size_mask_column (mask : seq bool) (c : column) :
  size (mask_column mask c) = count id (take (size c) mask).
Proof.
elim: mask c => [|b m IH] [|x c] //;
  rewrite ?mask_column_nil ?mask_column_no_mask //.
by rewrite mask_column_cons /= -IH; case: b.
Qed.

Lemma mask_column_no_mask (c : column) : mask_column [::] c = [::].
Proof. by rewrite /mask_column; case: c. Qed.

Lemma zip_mask_column (mask : seq bool) (xs ys : column) :
  zip (mask_column mask xs) (mask_column mask ys)
  = [seq p.2 | p <- zip mask (zip xs ys) & p.1].
Proof.
elim: mask xs ys => [|b m IH] xs ys.
  by rewrite !mask_column_no_mask; case: (zip xs ys).
case: xs => [|x xs].
  rewrite mask_column_nil; case: ys => [|y ys] //=.
  by case: (mask_column _ _).
case: ys => [|y ys].
  by rewrite (mask_column_nil (b :: m)); case: (mask_column _ _).
rewrite !mask_column_cons [RHS]/=.
by case: b; rewrite /= IH.
Qed.

Lemma filter_zip_map {A : Type} (q : A -> bool) (s : seq A) :
  [seq p.2 | p <- zip [seq q x | x <- s] s & p.1] = [seq x <- s | q x].
Proof. by elim: s => [|x s IH] //=; case: (q x); rewrite /= IH. Qed.

Lemma mask_column_comm (f : cell -> cell) (mask : seq bool) (c : column) :
  mask_column mask [seq f x | x <- c] = [seq f x | x <- mask_column mask c].
Proof.
elim: mask c => [|b m IH] [|x c] //;
  rewrite ?mask_column_nil ?mask_column_no_mask //.
by rewrite map_cons !mask_column_cons IH; case: b.
Qed.

Lemma all_mask_column (p : cell -> bool) (mask : seq bool) (c : column) :
  all p c -> all p (mask_column mask c).
Proof.
elim: mask c => [|b m IH] [|x c] //; rewrite ?mask_column_no_mask //.
move=> /andP [hx hc].
by rewrite mask_column_cons; case: b; rewrite /= ?hx IH.
Qed.

Lemma all_zip (p1 p2 : cell -> bool) (xs ys : column) :
  all p1 xs -> all p2 ys -> all (fun p => p1 p.1 && p2 p.2) (zip xs ys).
Proof.
elim: xs ys => [|x xs IH] [|y ys] //= /andP [-> h1] /andP [-> h2] /=.
exact: IH.
Qed.

Lemma zip_map_l (f : cell -> cell) (xs ys : column) :
  zip [seq f x | x <- xs] ys = [seq (f p.1, p.2) | p <- zip xs ys].
Proof. by elim: xs ys => [|x xs IH] [|y ys] //=; rewrite IH. Qed.

Lemma comparable (a b : cell) :
  kept_death_cell a -> int_cell b ->
  (exists r, cell_lt (deceased_age_int a) b = Ok r) /\
  (exists r, cell_ge (deceased_age_int a) b = Ok r).
Proof.
case: b => // z hb _; rewrite /deceased_age_int.
case: a hb => [y|x|s|] //=; try by split; eexists.
by rewrite /kept_death_cell /= => ->; split; eexists.
Qed.

Lemma aged_after_interview (a b : cell) :
  kept_death_cell a -> int_cell b ->
  returns_true (cell_ge (deceased_age_int a) b) ->
  returns_true (cell_ge (deceased a b) b).
Proof.
case: b => // z hb _; rewrite /deceased_age_int /deceased.
case: a hb => [y|x|s|] //=.
rewrite /kept_death_cell /= => -> _ /=.
by case: RlebP => //; lra.
Qed.

Section Deaths.

Variables (df : frame) (dec age : column).
Hypothesis has_deceased_age : frame_get df "deceased_age" = Some dec.
Hypothesis has_age : frame_get df "age" = Some age.
Hypothesis same_size : size dec = size age.
Hypothesis deaths : all death_cell dec.
Hypothesis some_known : has kept_death_cell dec.
Hypothesis ages : all number_cell age.

Let dec1 := [seq convert_deceased_age c | c <- dec].
Let known := [seq ~~ is_null c | c <- dec1].
Let dec2 := mask_column known dec1.
Let age2 := mask_column known age.
Let ai := [seq age_int_of c | c <- age2].
Let alive_at_interview (p : cell * cell) : bool :=
  returns_true (cell_ge (deceased_age_int p.1) p.2).
Let keep := [seq alive_at_interview p | p <- zip dec2 ai].

Lemma kept_deaths : all kept_death_cell dec2.
Proof.
rewrite /dec2 /known mask_column_map all_filter /dec1 all_map.
apply: sub_all deaths => c; case: c => //= s.
rewrite /convert_deceased_age /kept_death_cell /=.
by case: String.eqb => //=; case: String.eqb => //= ->.
Qed.

Lemma rows_left : exists c dec3, dec2 = c :: dec3.
Proof.
have : has (fun c => ~~ is_null c) dec1.
  rewrite /dec1 has_map; apply: sub_has some_known => c /=.
  by case: c => //= s; rewrite /kept_death_cell /convert_deceased_age /=;
     case: String.eqb_spec => // ->.
rewrite has_count -size_filter -mask_column_map -/known -/dec2.
by case: dec2 => // c dec3 _; exists c, dec3.
Qed.

Lemma integer_ages : all int_cell ai.
Proof.
rewrite /ai all_map; apply: sub_all (all_mask_column known ages) => c.
by case: c.
Qed.

Lemma sizes_agree : size dec2 = size ai.
Proof.
by rewrite /ai size_map /dec2 /age2 !size_mask_column /dec1 size_map same_size.
Qed.

Lemma process_deceased_age_frame :
  exists df1,
    process_deceased_age df = Ok df1 /\
    frame_get df1 "deceased_age" = Some (mask_column keep dec2) /\
    frame_get df1 "age_int" = Some (mask_column keep ai).
Proof.
rewrite /process_deceased_age /getitem has_deceased_age /=.
rewrite frame_get_set_same /= frame_get_filter frame_get_set_same /=.
rewrite -/dec1 -/known -/dec2.
set dfb := frame_filter known _.
have hb_age : frame_get dfb "age" = Some age2.
  by rewrite /dfb frame_get_filter frame_get_set_other // has_age.
have hb_dec : frame_get dfb "deceased_age" = Some dec2.
  by rewrite /dfb frame_get_filter frame_get_set_same.
have -> : (if dec2 is [::] then Raise ValueError
           else let* age := of_option KeyError
                              (frame_get
                                 (frame_set dfb "deceased_age_int"
                                    [seq deceased_age_int c | c <- dec2])
                                 "age") in
                mapM age_integer age) = Ok ai.
  have [c [dec3 ->]] := rows_left.
  rewrite frame_get_set_other // hb_age /=.
  apply: (mapM_map (p := number_cell)); first by case.
  exact: all_mask_column.
rewrite bind_Ok frame_get_set_other // frame_get_set_same /=.
rewrite frame_get_set_same /= zip_map_l.
have hcmp : all (fun p => kept_death_cell p.1 && int_cell p.2) (zip dec2 ai).
  exact: all_zip kept_deaths integer_ages.
have -> : mapM (fun p => cell_lt p.1 p.2)
               [seq (deceased_age_int p.1, p.2) | p <- zip dec2 ai]
          = Ok [seq returns_true (cell_lt (deceased_age_int p.1) p.2)
               | p <- zip dec2 ai].
  elim: (zip dec2 ai) hcmp => [|p s IH] //= /andP [/andP [h1 h2] /IH ->].
  by have [[r ->] _] := comparable h1 h2; case: r.
rewrite bind_Ok.
have -> : mapM (fun p => cell_ge p.1 p.2)
               [seq (deceased_age_int p.1, p.2) | p <- zip dec2 ai]
          = Ok keep.
  rewrite /keep /alive_at_interview.
  elim: (zip dec2 ai) hcmp => [|p s IH] //= /andP [/andP [h1 h2] /IH ->].
  by have [_ [r ->]] := comparable h1 h2; case: r.
rewrite bind_Ok; eexists; split; first by [].
rewrite !frame_get_filter frame_get_set_same.
by rewrite frame_get_set_other // frame_get_set_other // hb_dec.
Qed.

Lemma kept_rows :
  zip (mask_column keep dec2) (mask_column keep ai)
  = [seq p <- zip dec2 ai | alive_at_interview p].
Proof. by rewrite zip_mask_column /keep filter_zip_map. Qed.

Lemma deaths_pipeline :
  exists df1 df2 dec' age_int,
    process_deceased_age df = Ok df1 /\
    process_age_of_death df1 = Ok df2 /\
    frame_get df2 "deceased_age" = Some dec' /\
    frame_get df2 "age_int" = Some age_int /\
    size dec' = size age_int /\
    frame_get df2 "is_dead" = Some [seq deceased_dummy c | c <- dec'] /\
    frame_get df2 "is_aged"
    = Some [seq deceased p.1 p.2 | p <- zip dec' age_int] /\
    all kept_death_cell dec' /\ all int_cell age_int /\
    all (fun p => returns_true (cell_ge (deceased_age_int p.1) p.2)
                  && returns_true (cell_ge (deceased p.1 p.2) p.2))
        (zip dec' age_int).
Proof.
have [df1 [h1 [hd hi]]] := process_deceased_age_frame.
exists df1; rewrite h1 /process_age_of_death /getitem hd /=.
rewrite frame_get_set_other // hd /= frame_get_set_other // hi /=.
do 3!eexists; split; first by [].
split; first by [].
split; first by rewrite !frame_get_set_other // hd.
split; first by rewrite !frame_get_set_other // hi.
split.
  by rewrite (size_mask_column keep dec2) (size_mask_column keep ai) sizes_agree.
split; first by rewrite frame_get_set_other // frame_get_set_same.
split; first by rewrite frame_get_set_same.
split; first exact: all_mask_column kept_deaths.
split; first exact: all_mask_column integer_ages.
rewrite kept_rows all_filter.
have := all_zip kept_deaths integer_ages.
apply: sub_all => p /andP [h1' h2']; apply/implyP => h3.
by rewrite -/(alive_at_interview p) h3 /=; apply: aged_after_interview.
Qed.

End Deaths.

(** X21: on a frame whose ages are numbers and whose ages at death are
    numbers, nulls or one of the three codes, at least one of them a number
    or the code of the living, [process_deceased_age] followed by
    [process_age_of_death] succeeds; in the result no age at death (99999
    for the living) is below the integer age at interview, and [is_aged],
    the age at death or else the age at interview, is never below
    [age_int]. *)
Theorem X21_aged_not_before_interview (df : frame) (dec age : column) :
  frame_get df "deceased_age" = Some dec -> frame_get df "age" = Some age ->
  size dec = size age -> all death_cell dec -> has kept_death_cell dec ->
  all number_cell age ->
  exists df1 df2 dec' age_int,
    process_deceased_age df = Ok df1 /\
    process_age_of_death df1 = Ok df2 /\
    frame_get df2 "deceased_age" = Some dec' /\
    frame_get df2 "age_int" = Some age_int /\
    size dec' = size age_int /\
    frame_get df2 "is_dead" = Some [seq deceased_dummy c | c <- dec'] /\
    frame_get df2 "is_aged"
    = Some [seq deceased p.1 p.2 | p <- zip dec' age_int] /\
    all kept_death_cell dec' /\ all int_cell age_int /\
    all (fun p => returns_true (cell_ge (deceased_age_int p.1) p.2)
                  && returns_true (cell_ge (deceased p.1 p.2) p.2))
        (zip dec' age_int).
Proof. exact: deaths_pipeline. Qed.

Lemma X21_aged_not_before_interview_witness :
  exists df1 df2,
    process_deceased_age deaths_frame = Ok df1 /\
    process_age_of_death df1 = Ok df2.
Proof.
have [df1 [df2 [dec' [age_int [h1 [h2 _]]]]]] :=
  @X21_aged_not_before_interview deaths_frame _ _ (erefl _) (erefl _)
    (erefl _) (erefl _) (erefl _) (erefl _).
by exists df1, df2.
Defined.

(** ** Healthy life expectancy *)


(** A solution of the chain's linear system satisfies the recursion of the
    expected rewards, whatever the rewards of living ([rl]) and of dying
    ([rd]) at each age. *)
Lemma reward_recursion (e : LongevityEstimator)
  (R1 : 'M[R]_(diff e + 1, diff e + 1)) (rl rd : 'I_(diff e) -> R)
  (rho1 : 'cV[R]_(diff e)) (j : 'I_(diff e)) :
  (start_age e <= 90)%Z -> end_age e = 91%Z ->
  (forall i k, R1 (lshift 1 i) (lshift 1 k) = rl k) ->
  (forall k, R1 (rshift (diff e) ord0) (lshift 1 k) = rd k) ->
  (1%:M - ulsubmx (P_closed e))^T *m rho1
  = Z_proj (diff e)
    *m ((hadamard (P_closed e) R1)^T *m col_ones (diff e + 1)) ->
  rho1 j ord0
  = (p_alive e (start_age e + Z.of_nat j)
     * (rl j + rho1 (Ordinal (next_state_lt (ltn_ord j))) ord0)
     + p_dead e (start_age e + Z.of_nat j) * rd j)%Re.
Proof.
move=> hs he hl hd; rewrite raddfB /= trmx1 mulmxBl mul1mx.
have -> : (ulsubmx (P_closed e))^T *m rho1 = \col_k
    (p_alive e (start_age e + Z.of_nat k)
     * rho1 (Ordinal (next_state_lt (ltn_ord k))) ord0).
  apply/matrixP => k z.
  rewrite ord1 !mxE -(sum_next (fun i => rho1 i ord0)).
  by apply: eq_bigr => i _; rewrite mxE (survival_entry hs he).
move=> /matrixP /(_ j ord0); rewrite Z_proj_mul [RHS]mxE.
have -> : \sum_b (hadamard (P_closed e) R1)^T (lshift 1 j) b
                  * col_ones (diff e + 1) b ord0
          = p_alive e (start_age e + Z.of_nat j) * rl j
            + p_dead e (start_age e + Z.of_nat j) * rd j.
  rewrite big_split_ord /= big_ord1; congr (_ + _).
    rewrite -(sum_next (fun=> rl j) j); apply: eq_bigr => i _.
    by rewrite !mxE mulr1 hl -U_closedE (survival_entry hs he) mulrC.
  by rewrite !mxE mulr1 hd -(death_entry hs he) mxE.
rewrite !mxE.
move: (rho1 (Ordinal _) ord0) (rho1 _ ord0) (p_alive _ _) (p_dead _ _).
by move: (rl j) (rd j) => l d' a b pa pd; to_real => h; lra.
Qed.

Section MeansAtTopAge90.

Variable e : LongevityEstimator.
Variable col : seq (cell * fl).
Hypothesis youngest : (start_age e <= 90)%Z.
Hypothesis oldest : end_age e = 91%Z.
Hypothesis column_present :
  dict_get colkey_eqb (disability_prevalence e)
           ("mergeid"%string, CInt (income_dcl e)) = Some col.

(** What a call that returned has computed: the inverse exists and the
    means are the first moment. *)
Lemma returned_means (healthy_life_only : bool)
  (R1 : 'M[R]_(diff e + 1, diff e + 1)) (mean : seq R) (std : seq fl) :
  (if healthy_life_only
   then all is_num (ratios e col) /\ R1 = healthy_life_rewards e col
   else R1 = total_life_rewards (diff e)) ->
  compute_lifetime_estimates e healthy_life_only = Ok (mean, std) ->
  exists N,
    N *m (1%:M - ulsubmx (P_closed e)) = 1%:M /\
    mean = squeeze (spec_rho1 N (P_closed e) R1).
Proof.
move=> hR.
have hse : (start_age e <= end_age e)%Z by lia.
have hlt : (start_age e < end_age e)%Z by lia.
rewrite /compute_lifetime_estimates.
rewrite (generate_prevalence_matrix_closed hlt column_present) bind_Ok.
rewrite (compute_UP_closed hse) bind_Ok /=.
case hinv: (np_linalg_inv (1%:M - ulsubmx (P_closed e))) => [N|err]; last first.
  by rewrite /compute_moments hinv.
have [hN _] := np_linalg_inv_inverse hinv.
have hR' : if healthy_life_only
           then as_matrix (diff e + 1) (diff e + 1)
                  [seq [seq fl_sub (Num 1) x | x <- row]
                  | row <- nseq (diff e) (ratios e col)
                           ++ [:: [seq fl_div i (Num 2) | i <- ratios e col]]]
                = Ok R1
           else R1 = total_life_rewards (diff e).
  case: healthy_life_only hR => // -[hnum ->].
  exact: prevalence_matrix_as_matrix.
rewrite (compute_moments_formula (P_closed e) hN hR') bind_Ok /= => -[<- _].
by exists N.
Qed.

Lemma mortal_when_returned (healthy_life_only : bool) (mean : seq R)
  (std : seq fl) :
  compute_lifetime_estimates e healthy_life_only = Ok (mean, std) ->
  p_dead e 90 <> 0%Re.
Proof.
have hse : (start_age e <= end_age e)%Z by lia.
have hlt : (start_age e < end_age e)%Z by lia.
have h90 : models_90 e by rewrite /models_90 oldest; Zcases.
move=> hr h0; move: hr; rewrite /compute_lifetime_estimates.
rewrite (generate_prevalence_matrix_closed hlt column_present) bind_Ok.
rewrite (compute_UP_closed hse) bind_Ok /=.
by rewrite /compute_moments (inv_fundamental_fails hse h90 h0).
Qed.

Lemma total_means (mean : seq R) (std : seq fl) :
  compute_lifetime_estimates e false = Ok (mean, std) ->
  size mean = diff e /\
  forall j, (j < diff e)%N ->
    nth 0%Re mean j
    = (p_alive e (start_age e + Z.of_nat j)
       * (1 + nth 0%Re mean (next_state (diff e) j))
       + p_dead e (start_age e + Z.of_nat j) / 2)%Re.
Proof.
move=> hr.
have [N [hN ->]] :=
  @returned_means false (total_life_rewards (diff e)) mean std (erefl _) hr.
split; first exact: size_squeeze.
move=> j hj.
rewrite (nth_squeeze _ _ (Ordinal hj)).
rewrite (nth_squeeze _ _ (Ordinal (next_state_lt (ltn_ord (Ordinal hj))))).
exact: (@mean_recursion e youngest oldest _ (Ordinal hj) (rho1_system _ _ hN)).
Qed.

Hypothesis ratios_are_numbers : all is_num (ratios e col).

Lemma healthy_means (mean : seq R) (std : seq fl) :
  compute_lifetime_estimates e true = Ok (mean, std) ->
  size mean = diff e /\
  forall j, (j < diff e)%N ->
    nth 0%Re mean j
    = (p_alive e (start_age e + Z.of_nat j)
       * (1 - prevalence_value e col j
          + nth 0%Re mean (next_state (diff e) j))
       + p_dead e (start_age e + Z.of_nat j)
         * (1 - prevalence_value e col j / 2))%Re.
Proof.
move=> hr.
have [N [hN ->]] :=
  @returned_means true (healthy_life_rewards e col) mean std
    (conj ratios_are_numbers (erefl _)) hr.
split; first exact: size_squeeze.
move=> j hj.
rewrite (nth_squeeze _ _ (Ordinal hj)).
rewrite (nth_squeeze _ _ (Ordinal (next_state_lt (ltn_ord (Ordinal hj))))).
apply: (@reward_recursion e _
          (fun k : 'I_(diff e) => (1 - prevalence_value e col k)%Re)
          (fun k : 'I_(diff e) => (1 - prevalence_value e col k / 2)%Re)
          _ (Ordinal hj)) => //; last exact: rho1_system.
- by move=> i k; rewrite mxE /= ltn_ord.
- by move=> k; rewrite mxE /= addn0 ltnn.
Qed.

End MeansAtTopAge90.

Lemma no_disability_ratios (e : LongevityEstimator) (col : seq (cell * fl)) :
  (start_age e <= end_age e)%Z ->
  (forall age, (start_age e <= age < end_age e)%Z ->
     prevalence_ratio col age = Num 0) ->
  forall j, ratio_of_column e col j = Num 0.
Proof.
move=> hse h0 j; rewrite /ratio_of_column; case: ltnP => // /ltP hj.
by apply: h0; have := diff_Z hse; lia.
Qed.

Lemma last_state (d j : nat) :
  (j < d)%N -> (d - j <= 1)%N -> next_state d j = j.
Proof.
move=> /ltP hj /leP hd; rewrite /next_state.
have -> : j.+1 = d by move: hd; rewrite -minusE; lia.
by rewrite eqxx.
Qed.

Lemma inner_state (d j : nat) :
  (j.+1 < d)%N -> next_state d j = j.+1.
Proof. by move=> h; rewrite /next_state ltn_eqF. Qed.

(** The estimator of the ages 89 and 90 with zero coefficients returns its
    estimates, of total and of healthy life. *)
Lemma estimates_89_90 (healthy_life_only : bool) :
  exists mean std,
    compute_lifetime_estimates estimator_89_90 healthy_life_only
    = Ok (mean, std).
Proof.
have hse : (start_age estimator_89_90 <= end_age estimator_89_90)%Z.
  by rewrite /=; lia.
have hlt : (start_age estimator_89_90 < end_age estimator_89_90)%Z.
  by rewrite /=; lia.
have hpd : p_dead estimator_89_90 90 <> 0%Re.
  by rewrite p_dead_zero_coeffs //; lra.
have [_ [hN _]] := inv_fundamental_ok hse (fun _ => hpd).
have hR : if healthy_life_only
          then as_matrix (diff estimator_89_90 + 1) (diff estimator_89_90 + 1)
                 [seq [seq fl_sub (Num 1) x | x <- row]
                 | row <- nseq (diff estimator_89_90)
                               (ratios estimator_89_90 [::])
                          ++ [:: [seq fl_div i (Num 2)
                                 | i <- ratios estimator_89_90 [::]]]]
               = Ok (if healthy_life_only
                     then healthy_life_rewards estimator_89_90 [::]
                     else total_life_rewards _)
          else (if healthy_life_only
                then healthy_life_rewards estimator_89_90 [::]
                else total_life_rewards _) = total_life_rewards _.
  case: healthy_life_only => //.
  exact: (@prevalence_matrix_as_matrix estimator_89_90 [::] (erefl _)).
have [mean [std [h _]]] :=
  compute_lifetime_estimates_formula
    (@generate_prevalence_matrix_closed estimator_89_90 [::] hlt (erefl _))
    (compute_UP_closed hse)
    (compute_moments_formula (P_closed estimator_89_90) hN hR).
by exists mean, std.
Qed.

(** X3: when 90 is the oldest modelled age, the means of total life that
    [compute_lifetime_estimates] returns satisfy the recursion of life
    expectancy: the mean at an age is [p_alive] times one year plus the
    mean at the next state, plus [p_dead] times half a year; the next state
    of the last age is that age itself. *)
Theorem X3_mean_solves_life_expectancy_recursion (e : LongevityEstimator)
  (col : seq (cell * fl)) (mean : seq R) (std : seq fl) :
  (start_age e <= 90)%Z -> end_age e = 91%Z ->
  dict_get colkey_eqb (disability_prevalence e)
           ("mergeid"%string, CInt (income_dcl e)) = Some col ->
  compute_lifetime_estimates e false = Ok (mean, std) ->
  size mean = diff e /\
  forall j, (j < diff e)%N ->
    nth 0%Re mean j
    = (p_alive e (start_age e + Z.of_nat j)
       * (1 + nth 0%Re mean (next_state (diff e) j))
       + p_dead e (start_age e + Z.of_nat j) / 2)%Re.
Proof. by move=> hs he hcol hr; exact: (total_means hs he hcol hr). Qed.

Lemma X3_mean_solves_life_expectancy_recursion_witness :
  exists mean std,
    compute_lifetime_estimates estimator_89_90 false = Ok (mean, std) /\
    nth 0%Re mean 0
    = (p_alive estimator_89_90 89 * (1 + nth 0%Re mean 1)
       + p_dead estimator_89_90 89 / 2)%Re.
Proof.
have hs : (start_age estimator_89_90 <= 90)%Z by rewrite /=; lia.
have [mean [std h]] := estimates_89_90 false.
have [_ hm] :=
  @X3_mean_solves_life_expectancy_recursion estimator_89_90 [::] mean std hs
    (erefl _) (erefl _) h.
by exists mean, std; split=> //; apply: (hm 0%N).
Defined.

(** X22: when 90 is the oldest modelled age and the table holds numbers,
    the means of healthy life that [compute_lifetime_estimates] returns
    satisfy the recursion of expected rewards: the mean at an age is
    [p_alive] times the healthy share [1 - p] of the year plus the mean at
    the next state, plus [p_dead] times [1 - p / 2], the reward of the year
    of death; [p] is the prevalence ratio of the age and the next state of
    the last age is that age itself. *)
Theorem X22_healthy_mean_recursion (e : LongevityEstimator)
  (col : seq (cell * fl)) (mean : seq R) (std : seq fl) :
  (start_age e <= 90)%Z -> end_age e = 91%Z ->
  dict_get colkey_eqb (disability_prevalence e)
           ("mergeid"%string, CInt (income_dcl e)) = Some col ->
  all is_num (ratios e col) ->
  compute_lifetime_estimates e true = Ok (mean, std) ->
  size mean = diff e /\
  forall j, (j < diff e)%N ->
    nth 0%Re mean j
    = (p_alive e (start_age e + Z.of_nat j)
       * (1 - prevalence_value e col j
          + nth 0%Re mean (next_state (diff e) j))
       + p_dead e (start_age e + Z.of_nat j)
         * (1 - prevalence_value e col j / 2))%Re.
Proof.
by move=> hs he hcol hnum hr; exact: (healthy_means hs he hcol hnum hr).
Qed.

Lemma X22_healthy_mean_recursion_witness :
  exists mean std,
    compute_lifetime_estimates estimator_89_90 true = Ok (mean, std) /\
    nth 0%Re mean 0
    = (p_alive estimator_89_90 89
       * (1 - prevalence_value estimator_89_90 [::] 0 + nth 0%Re mean 1)
       + p_dead estimator_89_90 89
         * (1 - prevalence_value estimator_89_90 [::] 0 / 2))%Re.
Proof.
have hs : (start_age estimator_89_90 <= 90)%Z by rewrite /=; lia.
have [mean [std h]] := estimates_89_90 true.
have [_ hm] :=
  @X22_healthy_mean_recursion estimator_89_90 [::] mean std hs
    (erefl _) (erefl _) (erefl _) h.
by exists mean, std; split=> //; apply: (hm 0%N).
Defined.

(** X23: with no disability at any modelled age, the mean of healthy life
    is the mean of total life plus half a year at every age, whenever both
    are returned: the year of death counts [1 - p / 2 = 1] for healthy life
    and [1 / 2] for total life. The half year is what the two
    probabilities of an age give when they add up to 1: in binary64
    [p_alive] is the rounded [1 - p_dead], and the sum is 1 up to that
    rounding. *)
Theorem X23_no_disability_adds_half_a_year (e : LongevityEstimator)
  (col : seq (cell * fl)) (healthy total : seq R)
  (std_healthy std_total : seq fl) :
  (start_age e <= 90)%Z -> end_age e = 91%Z ->
  dict_get colkey_eqb (disability_prevalence e)
           ("mergeid"%string, CInt (income_dcl e)) = Some col ->
  (forall age, (start_age e <= age < end_age e)%Z ->
     prevalence_ratio col age = Num 0) ->
  (forall age, (start_age e <= age < end_age e)%Z ->
     p_alive e age + p_dead e age = 1)%Re ->
  compute_lifetime_estimates e true = Ok (healthy, std_healthy) ->
  compute_lifetime_estimates e false = Ok (total, std_total) ->
  forall j, (j < diff e)%N ->
    nth 0%Re healthy j = (nth 0%Re total j + 1 / 2)%Re.
Proof.
move=> hs he hcol h0 hsum eh et.
have hse : (start_age e <= end_age e)%Z by lia.
have hr := no_disability_ratios hse h0.
have hnum : all is_num (ratios e col).
  by rewrite /ratios all_map; apply/allP => j _ /=; rewrite hr.
have [_ rh] := healthy_means hs he hcol hnum eh.
have [_ rt] := total_means hs he hcol et.
have hpd := mortal_when_returned hs he hcol et.
have hd := diff_Z hse.
suff H n : forall j, (j < diff e)%N -> (diff e - j <= n)%N ->
    nth 0%Re healthy j = (nth 0%Re total j + 1 / 2)%Re.
  by move=> j hj; apply: (H (diff e) j hj); exact: leq_subr.
elim: n => [|n IH] j hj hn.
  by move: hn; rewrite leqn0 subn_eq0 leqNgt hj.
have hage : (start_age e <= start_age e + Z.of_nat j < end_age e)%Z.
  by move/ltP: hj; lia.
have := hsum _ hage.
have [hlast|hin] := leqP (diff e - j) 1.
  have := rh j hj; have := rt j hj.
  rewrite (last_state hj hlast) /prevalence_value hr /=.
  have -> : (start_age e + Z.of_nat j)%Z = 90%Z.
    by move/ltP: hj; move/leP: hlast; rewrite -minusE; lia.
  move: (nth _ healthy j) (nth _ total j) (p_alive e 90) (p_dead e 90) hpd.
  move=> a b pa pd hpd; to_real => h1 h2 h3.
  have : ((a - b - 1 / 2) * pd = 0)%Re by nra.
  by move=> /Rmult_integral [?|?]; lra.
have hj1 : (j.+1 < diff e)%N.
  by move/ltP: hin; rewrite -minusE => ?; apply/ltP; lia.
have hn1 : (diff e - j.+1 <= n)%N.
  by move/leP: hn; rewrite -!minusE => ?; apply/leP; lia.
have := rh j hj; have := rt j hj.
rewrite (inner_state hj1) /prevalence_value hr /= (IH _ hj1 hn1).
move: (nth _ healthy j) (nth _ total j) (nth _ total j.+1).
move: (p_alive e _) (p_dead e _) => pa pd a b c.
by to_real => h1 h2 h3; nra.
Qed.

Lemma X23_no_disability_adds_half_a_year_witness :
  exists healthy std_healthy total std_total,
    compute_lifetime_estimates estimator_89_90 true
    = Ok (healthy, std_healthy) /\
    compute_lifetime_estimates estimator_89_90 false
    = Ok (total, std_total) /\
    nth 0%Re healthy 0 = (nth 0%Re total 0 + 1 / 2)%Re.
Proof.
have hs : (start_age estimator_89_90 <= 90)%Z by rewrite /=; lia.
have [h [sh eh]] := estimates_89_90 true.
have [t [st et]] := estimates_89_90 false.
have hsum age : (start_age estimator_89_90 <= age < end_age estimator_89_90)%Z ->
    (p_alive estimator_89_90 age + p_dead estimator_89_90 age = 1)%Re.
  by move=> _; rewrite p_alive_zero_coeffs // p_dead_zero_coeffs //; lra.
have hm :=
  @X23_no_disability_adds_half_a_year estimator_89_90 [::] h t sh st hs
    (erefl _) (erefl _) (fun _ _ => erefl _) hsum eh et.
by exists h, sh, t, st; split=> //; split=> //; apply: (hm 0%N).
Defined.
